(** * Face detection pipeline: shallow embedding of [face_detector.py] and [app.py]

    The development follows the Python modules of the repository.

    - [face_detector]: the command-line application [FaceDetectionApp]
      (FPS bookkeeping, the webcam loop and the video loop).
    - [config]: the detection defaults.
    - [app]: the FastAPI application (the two detection endpoints and the
      websocket handler [websocket_detect]), and a server that runs the
      requests of several clients on the one global detector.
    - [detector]: the detection parameters of [utils/detector.py], which
      is not among the sources, after the specification.
    - [doubles]: stand-ins for the external functions, for the statements
      evaluated on concrete inputs.

    Conventions of the embedding.

    - A Python [float] is a rational ([Q]) and a Python [int] is [Z].
      Where the code turns a float into an integer or into decimals, or
      an integer into a float ([int(..)] of the progress bar, [round(..,
      2)] of the detection time, [float(..)] of a received integer), the
      operations round to the nearest double ([fl]) as Python's do; the
      FPS bookkeeping and the playback delay are computed exactly.  NaN
      and the infinities are outside the model.
    - [time.time()] is an effect: a clock is the sequence of its future
      readings together with the number of readings consumed so far.
    - A raised exception is the [Raise] outcome of a result type; the
      [try]/[finally] and [try]/[except] blocks are written out.
    - Calls on the capture device, the writer, the windows, the detector
      and the websocket are recorded in a trace, oldest first.  Console
      output ([print]) is not recorded.
    - OpenCV, base64 and the Haar cascade are external: they are fields of
      an interface and never given a body here. *)

From Stdlib Require Import ZArith QArith Qround Qpower Qabs String Ascii List Lia.
From stdpp Require Import base option list gmap strings.
Import ListNotations.

Local Open Scope Z_scope.

(** ** Python exceptions and results *)

Inductive exn : Type :=
| TypeError
| ValueError
| BinasciiError          (* binascii.Error, a subclass of ValueError *)
| CvError                (* cv2.error *)
| InvalidParameter       (* the spec's name for a rejected parameter update *)
| JSONDecodeError
| WebSocketDisconnect
| IndexError
| KeyboardInterrupt
| OverflowError          (* a value too large for a float *)
| OSError                (* a file or directory that cannot be made or opened *)
| OtherError.

Inductive res (A : Type) : Type :=
| Ok (a : A)
| Raise (e : exn).
Arguments Ok {A} a.
Arguments Raise {A} e.

Definition res_bind {A B} (r : res A) (k : A -> res B) : res B :=
  match r with
  | Ok a => k a
  | Raise e => Raise e
  end.

(** ** State, exceptions and a trace of effects

    A computation runs on a state [S], appends the external effects it
    performs (of type [E], oldest first) and either returns a value or
    raises.  A raise keeps the state and the effects reached so far. *)

Definition SE (S E A : Type) : Type := S -> res A * list E * S.

#[global] Instance SE_ret {S E} : MRet (SE S E) := fun A a s => (Ok a, [], s).
#[global] Instance SE_bind {S E} : MBind (SE S E) := fun A B k m s =>
  match m s with
  | (Ok a, tr, s') => let '(r, tr', s'') := k a s' in (r, tr ++ tr', s'')
  | (Raise e, tr, s') => (Raise e, tr, s')
  end.

Definition raise {S E A} (e : exn) : SE S E A := fun s => (Raise e, [], s).
Definition get {S E} : SE S E S := fun s => (Ok s, [], s).
Definition modify {S E} (f : S -> S) : SE S E unit := fun s => (Ok tt, [], f s).
Definition emit {S E} (e : E) : SE S E unit := fun s => (Ok tt, [e], s).
Definition lift {S E A} (r : res A) : SE S E A := fun s => (r, [], s).

(** [sat m post s]: run from [s], the computation [m] ends with a result,
    a trace and a state that satisfy [post]. *)
Definition sat {S E A} (m : SE S E A) (post : res A -> list E -> S -> Prop)
  (s : S) : Prop :=
  let '(r, tr, s') := m s in post r tr s'.

(** [except Exception] catches everything but the [BaseException]s that
    are not [Exception]s. *)
Definition is_Exception (e : exn) : bool :=
  match e with
  | KeyboardInterrupt => false
  | _ => true
  end.

(** Detected rectangles, [(x, y, w, h)]. *)
Definition Rect : Type := (Z * Z * Z * Z)%type.

(** ** Rationals standing for floats *)

Definition Qgeb (a b : Q) : bool := Qle_bool b a.   (* a >= b *)
Definition Qgtb (a b : Q) : bool := negb (Qle_bool a b).   (* a > b *)

(** [int(x)] on a float: truncation towards zero. *)
Definition py_int_of_float (q : Q) : Z := Z.quot (Qnum q) (Z.pos (Qden q)).

(** ** Doubles

    A double is a rational [m * 2^k] with [|m| < 2^53] and [-1074 <= k].
    The arithmetic of Python floats is the exact operation followed by
    the rounding to the nearest double, ties to the even significand. *)

(** The nearest integer, ties to even. *)
Definition round_half_even (x : Q) : Z :=
  let f := Qfloor x in
  let r := (x - inject_Z f)%Q in
  if Qgtb (1 # 2) r then f
  else if Qgtb r (1 # 2) then f + 1
  else if Z.even f then f else f + 1.

Definition pow2 (k : Z) : Q := (2 ^ k)%Q.

Definition dyadic (m k : Z) : Q := (inject_Z m * pow2 k)%Q.

(** The binary exponent of a positive rational: [2^e <= q < 2^(e+1)]. *)
Definition ilog2 (q : Q) : Z :=
  let l := Z.log2 (Qnum q) - Z.log2 (Z.pos (Qden q)) in
  if Qle_bool (pow2 l) q then l else l - 1.

(** The double nearest to a positive rational: 53 significant bits, or
    fewer below [2^-1022], where the spacing stays [2^-1074]. *)
Definition fl_pos (q : Q) : Q :=
  let u := Z.max (ilog2 q - 52) (-1074) in
  (inject_Z (round_half_even (q * pow2 (- u))) * pow2 u)%Q.

(** The double nearest to a rational.  A result of [2^1024] or more
    stands for an overflow, which the operations that can reach it check. *)
Definition fl (q : Q) : Q :=
  match Qnum q with
  | Z0 => 0%Q
  | Zpos _ => fl_pos q
  | Zneg _ => (- fl_pos (- q))%Q
  end.

(** [float(n)] on an integer: the nearest double, or [OverflowError]. *)
Definition float_of_int (n : Z) : res Q :=
  let x := fl (inject_Z n) in
  if Qle_bool (pow2 1024) (Qabs x) then Raise OverflowError else Ok x.

(** ** The clock *)

Record Clock : Type := mkClock {
  readings : nat -> Q;     (* the k-th value [time.time()] will return *)
  pos : nat                (* readings consumed so far *)
}.

Definition time_time (c : Clock) : Q * Clock :=
  (readings c (pos c), mkClock (readings c) (S (pos c))).

(** ** [face_detector.py] *)

Module face_detector.

(** *** FPS bookkeeping of [FaceDetectionApp] *)

(** The three attributes set under "FPS calculation" in [__init__].  The
    [detector] attribute is an object of [utils.detector]; its methods
    are the variables of section [Loops] below. *)
Record FaceDetectionApp : Type := mkApp {
  fps_start_time : Q;
  fps_frame_count : Z;
  current_fps : Q
}.

Definition __init__ (c : Clock) : FaceDetectionApp * Clock :=
  let '(t, c) := time_time c in
  (mkApp t 0 0%Q, c).

Definition _update_fps (self : FaceDetectionApp) (c : Clock)
  : Q * FaceDetectionApp * Clock :=
  let self := mkApp (fps_start_time self) (fps_frame_count self + 1)
                    (current_fps self) in
  let '(now, c) := time_time c in
  let elapsed := (now - fps_start_time self)%Q in
  if Qgeb elapsed 1 then
    let fps := (inject_Z (fps_frame_count self) / elapsed)%Q in
    let '(now', c) := time_time c in
    (fps, mkApp now' 0 fps, c)
  else
    (current_fps self, self, c).

(** [n] consecutive calls of [_update_fps]; the returned values, oldest
    first. *)
Fixpoint update_fps_times (n : nat) (self : FaceDetectionApp) (c : Clock)
  : list Q * FaceDetectionApp * Clock :=
  match n with
  | O => ([], self, c)
  | S n =>
      let '(v, self, c) := _update_fps self c in
      let '(vs, self, c) := update_fps_times n self c in
      (v :: vs, self, c)
  end.


(** *** Video properties and the progress bar *)

Definition Point : Type := (Z * Z)%type.
Definition Color : Type := (Z * Z * Z)%type.

(** [progress = frame_count / total_frames if total_frames > 0 else 0] *)
Definition progress (frame_count total_frames : Z) : Q :=
  if 0 <? total_frames then (inject_Z frame_count / inject_Z total_frames)%Q
  else 0%Q.

(** An integer times a float: the integer is converted, the product
    rounded. *)
Definition int_mul_float (n : Z) (x : Q) : Q := fl (fl (inject_Z n) * x).

(** [bar_width = int(width * 0.8)], [bar_start = int(width * 0.1)]; the
    literals are the doubles nearest to 0.8 and 0.1. *)
Definition bar_width (width : Z) : Z :=
  py_int_of_float (int_mul_float width (fl (8 # 10))).
Definition bar_start (width : Z) : Z :=
  py_int_of_float (int_mul_float width (fl (1 # 10))).

(** Right end of the green rectangle:
    [bar_start + int(bar_width * progress)], where [progress] is the
    quotient as a float. *)
Definition bar_fill_end (width frame_count total_frames : Z) : Z :=
  bar_start width
  + py_int_of_float
      (int_mul_float (bar_width width) (fl (progress frame_count total_frames))).

(** The rows of the bar: [height - 20] and [height - 10]. *)
Definition bar_top (height : Z) : Z := height - 20.
Definition bar_bottom (height : Z) : Z := height - 10.

(** [delay = int(1000 / fps) if fps > 0 else 33] *)
Definition delay (fps : Q) : Z :=
  if Qgtb fps 0 then py_int_of_float (1000 / fps) else 33.

(** *** The external world of the loops *)

(** Methods of [self.detector] (module [utils.detector]) and the OpenCV
    drawing primitive, over an abstract type of frames. *)
Class Cv (Frame : Type) : Type := {
  process_frame : Frame -> Frame * list Rect;
  draw_info : Frame -> Z -> Q -> Frame;
  rectangle : Frame -> Point -> Point -> Color -> Frame
}.

(** Effects on the capture device, the writer and the windows, in the
    order they happen. *)
Inductive event (Frame : Type) : Type :=
| EvCapOpen
| EvCapSet (prop value : Z)
| EvCapRead (ret : bool)
| EvCapRelease
| EvWriterOpen
| EvWriterWrite (f : Frame)
| EvWriterRelease
| EvImshow (f : Frame)
| EvWaitKey (delay : Z)
| EvImwrite (screenshot : Z) (f : Frame)
| EvDestroyAllWindows.
Arguments EvCapOpen {Frame}.
Arguments EvCapSet {Frame} prop value.
Arguments EvCapRead {Frame} ret.
Arguments EvCapRelease {Frame}.
Arguments EvWriterOpen {Frame}.
Arguments EvWriterWrite {Frame} f.
Arguments EvWriterRelease {Frame}.
Arguments EvImshow {Frame} f.
Arguments EvWaitKey {Frame} delay.
Arguments EvImwrite {Frame} screenshot f.
Arguments EvDestroyAllWindows {Frame}.

Definition is_cap_read {Frame} (e : event Frame) : bool :=
  match e with EvCapRead _ => true | _ => false end.
Definition is_cap_open {Frame} (e : event Frame) : bool :=
  match e with EvCapOpen => true | _ => false end.
Definition is_writer_open {Frame} (e : event Frame) : bool :=
  match e with EvWriterOpen => true | _ => false end.
Definition is_cap_release {Frame} (e : event Frame) : bool :=
  match e with EvCapRelease => true | _ => false end.
Definition is_writer_release {Frame} (e : event Frame) : bool :=
  match e with EvWriterRelease => true | _ => false end.

(** How often an event of the given kind occurs in a trace. *)
Definition occurrences {Frame} (kind : event Frame -> bool)
  (tr : list (event Frame)) : nat :=
  length (List.filter kind tr).

(** The frames displayed, the frames written to the recording and the
    numbers of the screenshots saved, in the order of a trace; and the
    number of successful reads. *)
Definition shown {Frame} (tr : list (event Frame)) : list Frame :=
  omap (fun e => match e with EvImshow f => Some f | _ => None end) tr.
Definition written {Frame} (tr : list (event Frame)) : list Frame :=
  omap (fun e => match e with EvWriterWrite f => Some f | _ => None end) tr.
Definition screenshots {Frame} (tr : list (event Frame)) : list Z :=
  omap (fun e => match e with EvImwrite n _ => Some n | _ => None end) tr.
Definition frames_read {Frame} (tr : list (event Frame)) : nat :=
  occurrences (fun e => match e with EvCapRead true => true | _ => false end) tr.

(** The events around the loop: opening and configuring the capture,
    opening the writer, and the [finally] block. *)
Definition plumbing {Frame} (e : event Frame) : Prop :=
  match e with
  | EvCapOpen | EvCapSet _ _ | EvWriterOpen
  | EvCapRelease | EvWriterRelease | EvDestroyAllWindows => True
  | _ => False
  end.

(** The external calls of a loop body that may raise. *)
Inductive stage : Type :=
| AtRead | AtProcess | AtDrawInfo | AtRectangle | AtImshow | AtWrite
| AtWaitKey | AtMakedirs | AtImwrite.

Definition stage_eqb (a b : stage) : bool :=
  match a, b with
  | AtRead, AtRead | AtProcess, AtProcess | AtDrawInfo, AtDrawInfo
  | AtRectangle, AtRectangle | AtImshow, AtImshow | AtWrite, AtWrite
  | AtWaitKey, AtWaitKey | AtMakedirs, AtMakedirs | AtImwrite, AtImwrite => true
  | _, _ => false
  end.

(** The external calls of a run between the opening of the capture and
    the [try] block that may raise. *)
Inductive setup_stage : Type :=
| AtSetWidth         (* [cap.set(cv2.CAP_PROP_FRAME_WIDTH, 640)] *)
| AtSetHeight        (* [cap.set(cv2.CAP_PROP_FRAME_HEIGHT, 480)] *)
| AtCapGet           (* [cap.get(..)] and [int(cap.get(..))] *)
| AtOutputDir        (* [os.makedirs(config.OUTPUT_DIR, exist_ok=True)] *)
| AtWriterOpen       (* [cv2.VideoWriter_fourcc], [cv2.VideoWriter] *)
| AtDelay.           (* [int(1000 / fps)] *)

Definition setup_stage_eqb (a b : setup_stage) : bool :=
  match a, b with
  | AtSetWidth, AtSetWidth | AtSetHeight, AtSetHeight | AtCapGet, AtCapGet
  | AtOutputDir, AtOutputDir | AtWriterOpen, AtWriterOpen | AtDelay, AtDelay => true
  | _, _ => false
  end.

(** The set-up calls of the two runs, in the order they are made. *)
Definition webcam_stages (save_output : bool) : list setup_stage :=
  [AtSetWidth; AtSetHeight]
  ++ (if save_output then [AtOutputDir; AtWriterOpen] else []).
Definition video_stages (save_output : bool) : list setup_stage :=
  [AtCapGet] ++ (if save_output then [AtOutputDir; AtWriterOpen] else [])
  ++ [AtDelay].

(** Whether a set-up that makes the calls [stages] raises, when the
    environment makes the call [fault] (if any) raise. *)
Definition setup_outcome (stages : list setup_stage)
  (fault : option (setup_stage * exn)) : res unit :=
  match fault with
  | Some (s, e) => if existsb (setup_stage_eqb s) stages then Raise e else Ok tt
  | None => Ok tt
  end.

(** What the environment does during one loop iteration: the raw value
    [cv2.waitKey] returns, and the external call (if any) that raises. *)
Record tick : Type := mkTick {
  key : Z;
  fault : option (stage * exn)
}.

Definition ord_p : Z := 112.
Definition ord_q : Z := 113.
Definition ord_s : Z := 115.

(** The mutable state of a run: the application object, the clock, the
    frames the opened capture still holds and the locals of the loop. *)
Record Proc (Frame : Type) : Type := mkProc {
  self : FaceDetectionApp;
  clock : Clock;
  cap : list Frame;
  frame_count : Z;
  paused : bool;
  total_faces_detected : Z;
  screenshot_count : Z
}.
Arguments mkProc {Frame}.
Arguments self {Frame}.
Arguments clock {Frame}.
Arguments cap {Frame}.
Arguments frame_count {Frame}.
Arguments paused {Frame}.
Arguments total_faces_detected {Frame}.
Arguments screenshot_count {Frame}.

(** *** The run state *)

Section Loops.
Context {Frame : Type} `{!Cv Frame}.

Definition M (A : Type) : Type := SE (Proc Frame) (event Frame) A.

Definition set_self (a : FaceDetectionApp) (p : Proc Frame) : Proc Frame :=
  mkProc a (clock p) (cap p) (frame_count p) (paused p)
         (total_faces_detected p) (screenshot_count p).
Definition set_clock (c : Clock) (p : Proc Frame) : Proc Frame :=
  mkProc (self p) c (cap p) (frame_count p) (paused p)
         (total_faces_detected p) (screenshot_count p).
Definition set_cap (l : list Frame) (p : Proc Frame) : Proc Frame :=
  mkProc (self p) (clock p) l (frame_count p) (paused p)
         (total_faces_detected p) (screenshot_count p).
Definition set_frame_count (n : Z) (p : Proc Frame) : Proc Frame :=
  mkProc (self p) (clock p) (cap p) n (paused p)
         (total_faces_detected p) (screenshot_count p).
Definition set_paused (b : bool) (p : Proc Frame) : Proc Frame :=
  mkProc (self p) (clock p) (cap p) (frame_count p) b
         (total_faces_detected p) (screenshot_count p).
Definition set_total_faces_detected (n : Z) (p : Proc Frame) : Proc Frame :=
  mkProc (self p) (clock p) (cap p) (frame_count p) (paused p)
         n (screenshot_count p).
Definition set_screenshot_count (n : Z) (p : Proc Frame) : Proc Frame :=
  mkProc (self p) (clock p) (cap p) (frame_count p) (paused p)
         (total_faces_detected p) n.

(** An external call at stage [s]: it raises when this iteration's fault
    is placed there. *)
Definition ext (t : tick) (s : stage) : M unit :=
  match fault t with
  | Some (s', e) => if stage_eqb s s' then raise e else mret tt
  | None => mret tt
  end.

(** [ret, frame = cap.read()]: [None] stands for [ret == False]. *)
Definition cap_read (t : tick) : M (option Frame) :=
  ext t AtRead;;
  p ← get;
  match cap p with
  | [] => emit (EvCapRead false);; mret None
  | f :: rest => modify (set_cap rest);; emit (EvCapRead true);; mret (Some f)
  end.

(** [self._update_fps()] inside a run. *)
Definition update_fps : M Q :=
  p ← get;
  let '(v, a, c) := _update_fps (self p) (clock p) in
  modify (set_self a);; modify (set_clock c);; mret v.

(** [key = cv2.waitKey(d) & 0xFF] *)
Definition wait_key (t : tick) (d : Z) : M Z :=
  ext t AtWaitKey;;
  emit (EvWaitKey d);;
  mret (Z.land (key t) 255).

(** How a loop body ends: fall through to the next iteration, or [break]. *)
Inductive control : Type := Continue | Break.

(** *** [run_webcam] *)

(** One iteration of the [while True] of [run_webcam]; [save_output]
    stands for [out is not None]. *)
Definition webcam_iteration (save_output : bool) (t : tick) : M control :=
  fr ← cap_read t;
  match fr with
  | None => mret Break                     (* "Failed to capture frame" *)
  | Some frame =>
      ext t AtProcess;;
      let '(processed_frame, faces) := process_frame frame in
      fps ← update_fps;
      ext t AtDrawInfo;;
      let processed_frame := draw_info processed_frame (Z.of_nat (length faces)) fps in
      ext t AtImshow;;
      emit (EvImshow processed_frame);;
      (if save_output
       then ext t AtWrite;; emit (EvWriterWrite processed_frame)
       else mret tt);;
      k ← wait_key t 1;
      if k =? ord_q then mret Break
      else if k =? ord_s then
        ext t AtMakedirs;;
        ext t AtImwrite;;
        p ← get;
        emit (EvImwrite (screenshot_count p) processed_frame);;
        modify (set_screenshot_count (screenshot_count p + 1));;
        mret Continue
      else mret Continue
  end.

(** How the loop of a run stands after the scripted iterations: left by
    [break], left by an exception, or still looping (the script of
    iterations is exhausted). *)
Inductive loop_end : Type :=
| Broke
| Raised (e : exn)
| Pending.

Fixpoint loop (body : tick -> M control) (script : list tick) (p : Proc Frame)
  : loop_end * list (event Frame) * Proc Frame :=
  match script with
  | [] => (Pending, [], p)
  | t :: script =>
      match body t p with
      | (Ok Continue, tr, p) =>
          let '(r, tr', p) := loop body script p in (r, tr ++ tr', p)
      | (Ok Break, tr, p) => (Broke, tr, p)
      | (Raise e, tr, p) => (Raised e, tr, p)
      end
  end.

(** The [finally] block of both runs. *)
Definition finally (save_output : bool) : M unit :=
  emit EvCapRelease;;
  (if save_output then emit EvWriterRelease else mret tt);;
  emit EvDestroyAllWindows.

(** How a run function ends. *)
Inductive run_end : Type :=
| Returned                 (* the function returned *)
| Propagated (e : exn)     (* an exception left the function *)
| Running.                 (* the loop has not ended within the script *)

(** [try: <loop> finally: ...]; the effects of the [finally] block follow
    those of the loop. *)
Definition try_finally
  (body : Proc Frame -> loop_end * list (event Frame) * Proc Frame)
  (save_output : bool) (p : Proc Frame)
  : run_end * list (event Frame) * Proc Frame :=
  match body p with
  | (Broke, tr, p) =>
      let '(_, tr', p) := finally save_output p in (Returned, tr ++ tr', p)
  | (Raised e, tr, p) =>
      let '(_, tr', p) := finally save_output p in (Propagated e, tr ++ tr', p)
  | (Pending, tr, p) => (Running, tr, p)
  end.

(** The state a run starts from. *)
Definition start (app : FaceDetectionApp) (c : Clock) : Proc Frame :=
  mkProc app c [] 0 false 0 0.

(** A call of the set-up at stage [s]: it raises when the fault of the
    run is placed there. *)
Definition at_setup (fault : option (setup_stage * exn)) (s : setup_stage)
  : M unit :=
  match fault with
  | Some (s', e) => if setup_stage_eqb s s' then raise e else mret tt
  | None => mret tt
  end.

(** A run: its set-up, which comes before the [try] block, so that an
    exception it raises leaves the function at once, and then the loop
    under its [finally]. *)
Definition run_with_setup (setup : M unit)
  (body : Proc Frame -> loop_end * list (event Frame) * Proc Frame)
  (save_output : bool) (p : Proc Frame)
  : run_end * list (event Frame) * Proc Frame :=
  match setup p with
  | (Raise e, tr, p) => (Propagated e, tr, p)
  | (Ok _, tr, p) =>
      let '(r, tr', p) := try_finally body save_output p in (r, tr ++ tr', p)
  end.

(** The lines of [run_webcam] between [cv2.VideoCapture(camera_id)] and
    [try:], for a capture that has opened. *)
Definition webcam_setup (save_output : bool)
  (fault : option (setup_stage * exn)) : M unit :=
  emit EvCapOpen;;
  at_setup fault AtSetWidth;;
  emit (EvCapSet 3 640);;
  at_setup fault AtSetHeight;;
  emit (EvCapSet 4 480);;
  if save_output then
    at_setup fault AtOutputDir;;
    (* the recording is named after [int(time.time())] *)
    modify (fun p => set_clock (snd (time_time (clock p))) p);;
    at_setup fault AtWriterOpen;;
    emit EvWriterOpen
  else mret tt.

(** [run_webcam]: [camera] is [None] when the device does not open, and
    otherwise the frames it delivers before [cap.read()] fails. *)
Definition run_webcam (app : FaceDetectionApp) (c : Clock)
  (camera : option (list Frame)) (save_output : bool)
  (fault : option (setup_stage * exn)) (script : list tick)
  : run_end * list (event Frame) * Proc Frame :=
  match camera with
  | None => (Returned, [], start app c)      (* "Failed to open webcam" *)
  | Some frames =>
      run_with_setup (webcam_setup save_output fault)
        (loop (webcam_iteration save_output) script) save_output
        (set_cap frames (start app c))
  end.

(** *** [run_video] *)

(** What [cv2.VideoCapture] reports about an opened file, and the frames
    [cap.read()] will actually deliver. *)
Record VideoFile : Type := mkVideo {
  v_fps : Q;                 (* CAP_PROP_FPS *)
  v_width : Z;               (* int(CAP_PROP_FRAME_WIDTH) *)
  v_height : Z;              (* int(CAP_PROP_FRAME_HEIGHT) *)
  v_total_frames : Z;        (* int(CAP_PROP_FRAME_COUNT) *)
  v_frames : list Frame
}.

(** One iteration of the [while True] of [run_video]. *)
Definition video_iteration (v : VideoFile) (save_output : bool) (t : tick)
  : M control :=
  p ← get;
  go ← (if paused p then mret true
        else
          fr ← cap_read t;
          match fr with
          | None => mret false               (* "Video ended": break *)
          | Some frame =>
              modify (fun p => set_frame_count (frame_count p + 1) p);;
              ext t AtProcess;;
              let '(processed_frame, faces) := process_frame frame in
              modify (fun p => set_total_faces_detected
                         (total_faces_detected p + Z.of_nat (length faces)) p);;
              fps ← update_fps;
              ext t AtDrawInfo;;
              let processed_frame :=
                draw_info processed_frame (Z.of_nat (length faces)) fps in
              p ← get;
              ext t AtRectangle;;
              let processed_frame :=
                rectangle processed_frame
                  (bar_start (v_width v), bar_top (v_height v))
                  (bar_start (v_width v) + bar_width (v_width v),
                   bar_bottom (v_height v))
                  (100, 100, 100) in
              let processed_frame :=
                rectangle processed_frame
                  (bar_start (v_width v), bar_top (v_height v))
                  (bar_fill_end (v_width v) (frame_count p) (v_total_frames v),
                   bar_bottom (v_height v))
                  (0, 255, 0) in
              ext t AtImshow;;
              emit (EvImshow processed_frame);;
              (if save_output
               then ext t AtWrite;; emit (EvWriterWrite processed_frame)
               else mret tt);;
              mret true
          end);
  if go : bool then
    k ← wait_key t (delay (v_fps v));
    if k =? ord_q then mret Break
    else if k =? ord_p then
      modify (fun p => set_paused (negb (paused p)) p);; mret Continue
    else mret Continue
  else (mret Break : M control).

(** The lines of [run_video] between [cv2.VideoCapture(video_path)] and
    [try:], for a capture that has opened. *)
Definition video_setup (save_output : bool)
  (fault : option (setup_stage * exn)) : M unit :=
  emit EvCapOpen;;
  at_setup fault AtCapGet;;
  (if save_output then
     at_setup fault AtOutputDir;;
     at_setup fault AtWriterOpen;;
     emit EvWriterOpen
   else mret tt);;
  at_setup fault AtDelay.

(** [run_video]: [file] is [None] when the path does not exist or the
    capture does not open. *)
Definition run_video (app : FaceDetectionApp) (c : Clock)
  (file : option VideoFile) (save_output : bool)
  (fault : option (setup_stage * exn)) (script : list tick)
  : run_end * list (event Frame) * Proc Frame :=
  match file with
  | None => (Returned, [], start app c)
  | Some v =>
      run_with_setup (video_setup save_output fault)
        (loop (video_iteration v save_output) script) save_output
        (set_cap (v_frames v) (start app c))
  end.

(** *** Predicates on runs *)

(** The key read in this iteration is [q]. *)
Definition quits (t : tick) : Prop := Z.land (key t) 255 = ord_q.

(** Nothing happens in this iteration: no external call raises and the key
    read, if any, is neither [q] nor [p]. *)
Definition idle (t : tick) : Prop :=
  fault t = None
  /\ Z.land (key t) 255 <> ord_q
  /\ Z.land (key t) 255 <> ord_p.

(** What the frames read so far say about the state of a video run. *)
Definition in_step (frames : list Frame) (tr : list (event Frame))
  (p : Proc Frame) : Prop :=
  frame_count p = Z.of_nat (frames_read tr)
  /\ cap p = skipn (frames_read tr) frames
  /\ (frames_read tr <= length frames)%nat.

(** The faces found in a list of frames, all together. *)
Definition detections (frames : list Frame) : Z :=
  fold_right (fun f acc => Z.of_nat (length (snd (process_frame f))) + acc) 0 frames.

(** What one iteration of a video run does to the counters: it reads no
    frame and leaves them alone, or it takes the next frame [f] of the
    capture, counts it, and adds the faces found in [f] to the total,
    unless an exception came first. *)
Definition tallies {A} (p : Proc Frame) (r : res A) (tr : list (event Frame))
  (p' : Proc Frame) : Prop :=
  (frames_read tr = 0%nat /\ cap p' = cap p /\ frame_count p' = frame_count p
   /\ total_faces_detected p' = total_faces_detected p)
  \/ (exists f,
        cap p = f :: cap p' /\ frames_read tr = 1%nat
        /\ frame_count p' = frame_count p + 1
        /\ (total_faces_detected p'
            = total_faces_detected p + Z.of_nat (length (snd (process_frame f)))
            \/ (total_faces_detected p' = total_faces_detected p
                /\ exists e, r = Raise e))).

(** How the run ends when its loop ends. *)
Definition ended (e : loop_end) : run_end :=
  match e with
  | Broke => Returned
  | Raised x => Propagated x
  | Pending => Running
  end.

(** The screenshots of a trace are numbered 0, 1, 2, ... and the counter
    is the next number. *)
Definition numbered (tr : list (event Frame)) (p : Proc Frame) : Prop :=
  screenshots tr = List.map Z.of_nat (seq 0 (length (screenshots tr)))
  /\ screenshot_count p = Z.of_nat (length (screenshots tr)).

(** The recording of a run against its display: without a writer nothing
    is written; with one, the frames written are the frames displayed, in
    the same order, except that the last displayed frame is missing when
    an exception came between its display and its write. *)
Definition recorded (save_output : bool) (r : run_end)
  (tr : list (event Frame)) : Prop :=
  (save_output = false -> written tr = [])
  /\ (save_output = true ->
      (written tr = shown tr \/ exists f, shown tr = written tr ++ [f])
      /\ ((forall e, r <> Propagated e) -> written tr = shown tr)).

(** What a trace displays against what it reads: every frame read has
    been displayed, except that the last one read is missing from the
    display when an exception came first ([exact] excludes that). *)
Definition displayed (exact : Prop) (tr : list (event Frame)) : Prop :=
  (length (shown tr) <= frames_read tr <= length (shown tr) + 1)%nat
  /\ (exact -> frames_read tr = length (shown tr)).

(** What one iteration writes against what it displays. *)
Definition wrote_shown (save : bool) {A} (r : res A)
  (tr : list (event Frame)) : Prop :=
  if save then
    match r with
    | Ok _ => written tr = shown tr
    | Raise _ => written tr = shown tr \/ exists f, written tr = [] /\ shown tr = [f]
    end
  else written tr = [].

(** In a trace, the capture is released exactly once, and the writer
    exactly once if one is attached (never otherwise). *)
Definition released_once (save_output : bool) (tr : list (event Frame)) : Prop :=
  occurrences is_cap_release tr = 1%nat
  /\ occurrences is_writer_release tr = (if save_output then 1 else 0)%nat.

(** A computation is silent for a kind of event when it never emits one. *)
Definition silent (kind : event Frame -> bool) {A} (m : M A) : Prop :=
  forall p, occurrences kind (snd (fst (m p))) = 0%nat.

(** The kinds of event the loop bodies never emit: everything that is
    neither a read, a write, a display, a key wait nor a screenshot. *)
Definition body_free (kind : event Frame -> bool) : Prop :=
  (forall b, kind (EvCapRead b) = false)
  /\ (forall f, kind (EvWriterWrite f) = false)
  /\ (forall f, kind (EvImshow f) = false)
  /\ (forall d, kind (EvWaitKey d) = false)
  /\ (forall n f, kind (EvImwrite n f) = false).

(** The value a computation returns, when it returns, satisfies [P]. *)
Definition returns {A} (m : M A) (P : A -> Prop) : Prop :=
  forall p a tr p', m p = (Ok a, tr, p') -> P a.

(** The computation never falls through to the next iteration. *)
Definition leaves (m : M control) : Prop :=
  forall p, fst (fst (m p)) <> Ok Continue.

End Loops.

End face_detector.

(** ** [config.py] *)

Module config.

Definition SCALE_FACTOR : Q := 11 # 10.
Definition MIN_NEIGHBORS : Z := 5.
Definition MIN_SIZE : Z * Z := (30, 30).
Definition MAX_SIZE : option (Z * Z) := None.

End config.

(** ** [app.py] *)

Module app.

(** *** Strings *)

(** [c in s] for a one-character string [c]. *)
Fixpoint str_contains (c : ascii) (s : string) : bool :=
  match s with
  | EmptyString => false
  | String a s' => if Ascii.eqb a c then true else str_contains c s'
  end.

(** [s.split(c)] for a one-character separator.  A comma is one byte of
    UTF-8 and part of no longer sequence, so splitting the bytes is
    splitting the text. *)
Fixpoint str_split (c : ascii) (s : string) : list string :=
  match s with
  | EmptyString => [EmptyString]
  | String a s' =>
      if Ascii.eqb a c then EmptyString :: str_split c s'
      else match str_split c s' with
           | piece :: rest => String a piece :: rest
           | [] => [String a EmptyString]
           end
  end.

Definition comma : ascii := ","%char.

(** Lines 143-144 and 210-211:
    [if "," in data: data = data.split(",")[1]]. *)
Definition strip_data_uri (data : string) : res string :=
  if str_contains comma data then
    match str_split comma data with
    | _ :: second :: _ => Ok second
    | _ => Raise IndexError
    end
  else Ok data.

(** The text before the first [c], or all of [s] if there is none. *)
Fixpoint str_until (c : ascii) (s : string) : string :=
  match s with
  | EmptyString => EmptyString
  | String a s' => if Ascii.eqb a c then EmptyString else String a (str_until c s')
  end.

(** The text after the first [c] (empty if there is none). *)
Fixpoint str_after (c : ascii) (s : string) : string :=
  match s with
  | EmptyString => EmptyString
  | String a s' => if Ascii.eqb a c then s' else str_after c s'
  end.

(** The stripping as the specification words it: with a comma, the prefix
    up to the first comma is dropped and the remainder kept; without one
    the payload is kept whole. *)
Definition strip_data_uri_spec (data : string) : string :=
  if str_contains comma data then str_after comma data else data.

(** *** JSON values and Python conversions *)

(** A value of a received JSON object.  A number written without
    fraction or exponent is a Python [int] ([JInt]); any other number is
    the double it was parsed to ([JFloat]).  Arrays and objects are not
    distinguished: every use the handler makes of one raises. *)
Inductive json : Type :=
| JNull
| JBool (b : bool)
| JInt (n : Z)
| JFloat (x : Q)
| JStr (s : string)
| JCompound.

(** The library functions the handlers call, over an abstract type of
    decoded images. *)
Class Runtime (Image : Type) : Type := {
  float_of_str : string -> res Q;                    (* float(s) *)
  int_of_str : string -> res Z;                      (* int(s) *)
  b64decode : string -> res (list Byte.byte);        (* base64.b64decode *)
  imdecode : list Byte.byte -> res (option Image);   (* np.frombuffer, cv2.imdecode; None: not an image *)
  imencode_jpg : Image -> res (list Byte.byte);      (* cv2.imencode('.jpg', ..) *)
  b64encode : list Byte.byte -> string;              (* base64.b64encode(..).decode *)
  shape : Image -> Z * Z                             (* (height, width) *)
}.

(** The methods of the global [detector] object ([utils.detector], not
    among the sources) that [app.py] calls, over an abstract type [D] of
    detector states.  A call of [set_detection_params] may raise and may
    change the detector either way. *)
Class FaceDetector (Image D : Type) : Type := {
  set_detection_params : Q -> Z -> D -> res unit * D;
  detect_faces : Image -> D -> res (list Rect);
  process_frame : Image -> D -> res (Image * list Rect)
}.

(** [round(x, 2)]: the double nearest to [x] rounded to hundredths, ties
    to even. *)
Definition py_round2 (x : Q) : Q :=
  fl (inject_Z (round_half_even (x * 100)) / 100).

(** [(end_time - start_time) * 1000] on floats. *)
Definition elapsed_ms (start_time end_time : Q) : Q :=
  fl (fl (end_time - start_time) * 1000).

Section Handlers.
Context {Image D : Type} `{!Runtime Image} `{!FaceDetector Image D}.

(** [float(v)] *)
Definition py_float (v : json) : res Q :=
  match v with
  | JBool b => Ok (if b then 1 else 0)%Q
  | JInt n => float_of_int n
  | JFloat x => Ok x
  | JStr s => float_of_str s
  | JNull | JCompound => Raise TypeError
  end.

(** [int(v)] *)
Definition py_int (v : json) : res Z :=
  match v with
  | JBool b => Ok (if b then 1 else 0)
  | JInt n => Ok n
  | JFloat x => Ok (py_int_of_float x)
  | JStr s => int_of_str s
  | JNull | JCompound => Raise TypeError
  end.

(** *** The process-wide state and the effects *)

(** The global [detector] and the clock. *)
Record World : Type := mkWorld {
  detector : D;
  clock : Clock
}.

(** The body of a detection response:
    [{faces_count, faces, detection_time_ms}]. *)
Record Detection : Type := mkDetection {
  faces_count : Z;
  faces : list Rect;
  detection_time_ms : Q
}.

(** Calls on the detector (with the detector state a detection runs on)
    and messages sent to the websocket client. *)
Inductive effect : Type :=
| CallSetParams (scale_factor : Q) (min_neighbors : Z)
| CallDetect (image : Image) (d : D)
| CallProcess (image : Image) (d : D)
| SendJson (r : Detection).

Definition App (A : Type) : Type := SE World effect A.

Definition now : App Q := fun w =>
  let '(t, c) := time_time (clock w) in (Ok t, [], mkWorld (detector w) c).

(** [detector.set_detection_params(scale_factor=.., min_neighbors=..)] *)
Definition call_set_detection_params (scale_factor : Q) (min_neighbors : Z)
  : App unit :=
  fun w =>
    let '(r, d) := set_detection_params scale_factor min_neighbors (detector w) in
    (r, [CallSetParams scale_factor min_neighbors], mkWorld d (clock w)).

(** [detector.detect_faces(image)] *)
Definition call_detect_faces (image : Image) : App (list Rect) :=
  w ← get;
  emit (CallDetect image (detector w));;
  lift (detect_faces image (detector w)).

(** [detector.process_frame(image)] *)
Definition call_process_frame (image : Image) : App (Image * list Rect) :=
  w ← get;
  emit (CallProcess image (detector w));;
  lift (process_frame image (detector w)).

(** [try: body except Exception as e: handler(e)] *)
Definition try_except {A} (body : App A) (handler : exn -> App A) : App A :=
  fun w =>
    match body w with
    | (Raise e, tr, w') =>
        if is_Exception e then
          let '(r, tr', w'') := handler e w' in (r, tr ++ tr', w'')
        else (Raise e, tr, w')
    | ok => ok
    end.

(** *** The HTTP endpoints *)

Inductive response : Type :=
| Detected (r : Detection)
| DetectedImage (r : Detection) (image_data : string) (original_size : Z * Z)
| BadRequest                   (* 400, "Could not decode image" *)
| ServerError (e : exn).       (* 500, [str(e)] *)

(** [POST /api/detect/image] *)
Definition detect_image (contents : list Byte.byte) (scale_factor : Q)
  (min_neighbors : Z) : App response :=
  try_except
    (image ← lift (imdecode contents);
     match image with
     | None => mret BadRequest
     | Some image =>
         call_set_detection_params scale_factor min_neighbors;;
         start_time ← now;
         '(processed_image, faces) ← call_process_frame image;
         end_time ← now;
         let detection_time := elapsed_ms start_time end_time in
         buffer ← lift (imencode_jpg processed_image);
         let img_base64 := b64encode buffer in
         mret (DetectedImage
                 (mkDetection (Z.of_nat (length faces)) faces
                              (py_round2 detection_time))
                 ("data:image/jpeg;base64," ++ img_base64)%string
                 (snd (shape image), fst (shape image)))
     end)
    (fun e => mret (ServerError e)).

(** [POST /api/detect/base64] *)
Definition detect_base64 (image_data : string) (scale_factor : Q)
  (min_neighbors : Z) : App response :=
  try_except
    (image_data ← lift (strip_data_uri image_data);
     img_bytes ← lift (b64decode image_data);
     image ← lift (imdecode img_bytes);
     match image with
     | None => mret BadRequest
     | Some image =>
         call_set_detection_params scale_factor min_neighbors;;
         start_time ← now;
         faces ← call_detect_faces image;
         end_time ← now;
         let detection_time := elapsed_ms start_time end_time in
         mret (Detected
                 (mkDetection (Z.of_nat (length faces)) faces
                              (py_round2 detection_time)))
     end)
    (fun e => mret (ServerError e)).

(** What the [except Exception] of an endpoint makes of an exception [e]
    of its body, raised after the effects [tr] in the world [w]: the 500
    response, or [e] itself if it is no [Exception]. *)
Definition answered (e : exn) (tr : list effect) (w : World)
  : res response * list effect * World :=
  if is_Exception e then (Ok (ServerError e), tr, w) else (Raise e, tr, w).

(** *** The websocket handler *)

(** The locals [scale_factor] and [min_neighbors] of one run of
    [websocket_detect]: the detection parameters of the session. *)
Record Session : Type := mkSession {
  scale_factor : Q;
  min_neighbors : Z
}.

(** "Default parameters" *)
Definition default_session : Session := mkSession (11 # 10) 5.

(** "Check for parameter updates" (lines 199-203). *)
Definition update_parameters (data : gmap string json) (s : Session)
  : res Session :=
  res_bind
    (match data !! "scale_factor"%string with
     | Some v => res_bind (py_float v) (fun x => Ok (mkSession x (min_neighbors s)))
     | None => Ok s
     end)
    (fun s =>
       match data !! "min_neighbors"%string with
       | Some v => res_bind (py_int v) (fun n => Ok (mkSession (scale_factor s) n))
       | None => Ok s
       end).

(** "Decode base64 image" (lines 207-215).  On a value that is not a
    string one of the three calls raises ([TypeError] stands for it). *)
Definition decode_frame (frame_data : json) : res (option Image) :=
  match frame_data with
  | JStr frame_data =>
      res_bind (strip_data_uri frame_data) (fun frame_data =>
      res_bind (b64decode frame_data) (fun img_bytes =>
      imdecode img_bytes))
  | _ => Raise TypeError
  end.

(** "Update and detect", "Send results" (lines 218-234).  Sending is
    taken to succeed. *)
Definition detect_and_send (image : Image) (s : Session) : App Session :=
  call_set_detection_params (scale_factor s) (min_neighbors s);;
  start_time ← now;
  faces ← call_detect_faces image;
  end_time ← now;
  let detection_time := elapsed_ms start_time end_time in
  emit (SendJson (mkDetection (Z.of_nat (length faces)) faces
                              (py_round2 detection_time)));;
  mret s.

(** The body of the [while True] loop once a message has been received
    (lines 199-234). *)
Definition handle_message (data : gmap string json) (s : Session) : App Session :=
  s ← lift (update_parameters data s);
  match data !! "frame"%string with
  | None => mret s
  | Some frame_data =>
      image ← lift (decode_frame frame_data);
      match image with
      | None => mret s
      | Some image => detect_and_send image s
      end
  end.

(** What [await websocket.receive_json()] yields.  A message is a JSON
    object, as the clients send; other JSON values are outside the
    model. *)
Inductive inbound : Type :=
| Message (data : gmap string json)
| NotJson                      (* text that is not JSON *)
| Disconnect.                  (* the client has gone *)

Definition receive_json (i : inbound) : App (gmap string json) :=
  match i with
  | Message data => mret data
  | NotJson => raise JSONDecodeError
  | Disconnect => raise WebSocketDisconnect
  end.

(** A connection is open, waiting in [receive_json] with its session
    parameters, or the handler has ended on an exception (printed, for
    an [Exception]). *)
Inductive connection : Type :=
| Open (s : Session)
| Closed (cause : exn).

(** One turn of the loop of [websocket_detect]: receive, then handle.
    The [try] encloses the loop, so any exception ends the handler. *)
Definition turn (i : inbound) (s : Session) (w : World)
  : connection * list effect * World :=
  match (data ← receive_json i; handle_message data s) w with
  | (Ok s', tr, w') => (Open s', tr, w')
  | (Raise e, tr, w') => (Closed e, tr, w')
  end.

(** [websocket_detect] on the messages of one connection. *)
Fixpoint websocket_loop (script : list inbound) (s : Session) (w : World)
  : connection * list effect * World :=
  match script with
  | [] => (Open s, [], w)
  | i :: script =>
      match turn i s w with
      | (Open s', tr, w') =>
          let '(c, tr', w'') := websocket_loop script s' w' in (c, tr ++ tr', w'')
      | closed => closed
      end
  end.

Definition websocket_detect (script : list inbound) (w : World)
  : connection * list effect * World :=
  websocket_loop script default_session w.

(** *** Concurrent connections

    The handlers are coroutines on one event loop.  Between receiving a
    message and sending its response a handler does not await, so the
    requests below run one at a time, in the order of a schedule, on the
    one [World]. *)

Inductive request : Type :=
| Connect (c : nat)                       (* a websocket client is accepted *)
| Deliver (c : nat) (i : inbound)         (* [receive_json] of [c] returns *)
| PostBase64 (image_data : string) (scale_factor : Q) (min_neighbors : Z)
| PostImage (contents : list Byte.byte) (scale_factor : Q) (min_neighbors : Z).

(** The server: the world, the connections by id, and the effects so far
    with the connection that caused each ([None]: an HTTP request). *)
Record Server : Type := mkServer {
  world : World;
  connections : gmap nat connection;
  log : list (option nat * effect)
}.

Definition tagged (who : option nat) (tr : list effect)
  : list (option nat * effect) :=
  List.map (fun e => (who, e)) tr.

Definition serve (r : request) (sv : Server) : Server :=
  match r with
  | Connect c =>
      match connections sv !! c with
      | None => mkServer (world sv) (<[c := Open default_session]> (connections sv)) (log sv)
      | Some _ => sv
      end
  | Deliver c i =>
      match connections sv !! c with
      | Some (Open s) =>
          let '(conn, tr, w) := turn i s (world sv) in
          mkServer w (<[c := conn]> (connections sv)) (log sv ++ tagged (Some c) tr)
      | _ => sv
      end
  | PostBase64 image_data scale_factor min_neighbors =>
      let '(_, tr, w) := detect_base64 image_data scale_factor min_neighbors (world sv) in
      mkServer w (connections sv) (log sv ++ tagged None tr)
  | PostImage contents scale_factor min_neighbors =>
      let '(_, tr, w) := detect_image contents scale_factor min_neighbors (world sv) in
      mkServer w (connections sv) (log sv ++ tagged None tr)
  end.

Definition run (schedule : list request) (sv : Server) : Server :=
  fold_left (fun sv r => serve r sv) schedule sv.

(** What a client can tell from an effect: everything but the wall-clock
    measurement [detection_time_ms]. *)
Definition erase_time (e : effect) : effect :=
  match e with
  | SendJson r => SendJson (mkDetection (faces_count r) (faces r) 0)
  | e => e
  end.

(** The effects of connection [c] in a log, oldest first: the parameters
    it gave the detector, the detector states its detections ran on, and
    the responses it was sent. *)
Definition trace_of (c : nat) (l : list (option nat * effect)) : list effect :=
  omap (fun '(who, e) =>
          match who with
          | Some c' => if Nat.eqb c c' then Some (erase_time e) else None
          | None => None
          end) l.

(** The responses sent in a trace, oldest first. *)
Definition responses (tr : list effect) : list Detection :=
  omap (fun e => match e with SendJson r => Some r | _ => None end) tr.

(** An inbound item that does not carry the key [k]. *)
Definition omits (k : string) (i : inbound) : Prop :=
  match i with
  | Message data => data !! k = None
  | NotJson | Disconnect => True
  end.

(** Whether an inbound item is a message with a [frame] key. *)
Definition has_frame (i : inbound) : bool :=
  match i with
  | Message data => bool_decide (is_Some (data !! "frame"%string))
  | _ => false
  end.

(** The requests of connection [c]. *)
Definition own (c : nat) (r : request) : bool :=
  match r with
  | Connect c' | Deliver c' _ => Nat.eqb c c'
  | PostBase64 _ _ _ | PostImage _ _ _ => false
  end.

End Handlers.

End app.

(** ** [utils/detector.py]

    The module is not among the sources.  Its class [FaceDetector] holds
    the detection parameters: [face_detector.py] passes [scale_factor],
    [min_neighbors] and [min_size] to the constructor and reads the first
    two back as attributes, and [config.py] gives the defaults. *)

Module detector.

Record FaceDetector : Type := mkDetector {
  scale_factor : Q;
  min_neighbors : Z;
  min_size : Z * Z;
  max_size : option (Z * Z)
}.

(** [FaceDetector()] *)
Definition init : FaceDetector :=
  mkDetector config.SCALE_FACTOR config.MIN_NEIGHBORS config.MIN_SIZE config.MAX_SIZE.

(** Modelled from the spec: the validation of [utils/detector.py], which
    is not among the sources.  "[validate()] fails with [InvalidParameter]
    when [scaleFactor <= 1.0], any size dimension is negative, or
    [maxSize] is present and smaller than [minSize] in either axis." *)
Definition validate (d : FaceDetector) : res unit :=
  let '(w, h) := min_size d in
  if Qle_bool (scale_factor d) 1
     || (w <? 0) || (h <? 0)
     || match max_size d with
        | Some (mw, mh) => (mw <? 0) || (mh <? 0) || (mw <? w) || (mh <? h)
        | None => false
        end
  then Raise InvalidParameter
  else Ok tt.

(** Modelled from the spec: the parameter update of [utils/detector.py],
    which is not among the sources.  "[update(partial)] applies only the
    supplied fields, leaving others unchanged, then re-validates; on
    validation failure the previous values are retained unchanged and the
    caller receives the failure." *)
Definition update (scale_factor' : option Q) (min_neighbors' : option Z)
  (d : FaceDetector) : res unit * FaceDetector :=
  let d' := mkDetector (default (scale_factor d) scale_factor')
                       (default (min_neighbors d) min_neighbors')
                       (min_size d) (max_size d) in
  match validate d' with
  | Ok _ => (Ok tt, d')
  | Raise e => (Raise e, d)
  end.

(** Modelled from the spec: [set_detection_params(scale_factor=..,
    min_neighbors=..)] of [utils/detector.py], which is not among the
    sources, as the update of these two fields. *)
Definition set_detection_params (scale_factor' : Q) (min_neighbors' : Z)
  (d : FaceDetector) : res unit * FaceDetector :=
  update (Some scale_factor') (Some min_neighbors') d.

(** Modelled from the spec: the detector of [utils/detector.py] as the
    interface [app.py] uses, around an opaque classifier
    "[detect(frame, params) -> rects], pure with respect to its inputs"
    and an opaque [annotate]. *)
Definition api {Image : Type}
  (classify : Image -> FaceDetector -> list Rect)
  (annotate : Image -> list Rect -> Image)
  : app.FaceDetector Image FaceDetector :=
  {| app.set_detection_params := set_detection_params;
     app.detect_faces image d := Ok (classify image d);
     app.process_frame image d :=
       Ok (annotate image (classify image d), classify image d) |}.

(** *** Invariants of the shared detector *)

Section Shared.
Context {Image : Type}.

(** The size bounds of a detector: no request changes them. *)
Definition sizes (d : FaceDetector) : Z * Z * option (Z * Z) :=
  (min_size d, max_size d).

(** A computation that leaves the size bounds of the detector alone. *)
Definition keeps_sizes {A}
  (m : app.App (Image := Image) (D := FaceDetector) A) : Prop :=
  forall w, sizes (app.detector (snd (m w))) = sizes (app.detector w).

(** The relation kept between a server and the server that sees the
    requests of connection [c] only. *)
Definition same_for (c : nat)
  (sv sv' : app.Server (Image := Image) (D := FaceDetector)) : Prop :=
  sizes (app.detector (app.world sv)) = sizes (app.detector (app.world sv'))
  /\ app.connections sv !! c = app.connections sv' !! c
  /\ app.trace_of c (app.log sv) = app.trace_of c (app.log sv').

End Shared.

End detector.

(** ** Test doubles

    Stand-ins for the external functions, used where a statement is
    evaluated on concrete inputs.  Images are numbered.  The base64 double
    knows three payloads: [AAAA] (three zero bytes, not an image),
    [not-base64-or-not-an-image] (rejected by the decoder: 21 alphabet
    characters) and [face_jpeg], which stands for the encoding of a
    100x100 picture of one face. *)

Module doubles.

Definition face_jpeg : string := "/9j/".

Definition runtime : app.Runtime nat :=
  {| app.float_of_str _ := Raise ValueError;
     app.int_of_str _ := Raise ValueError;
     app.b64decode s :=
       if String.eqb s "AAAA" then Ok [Byte.x00; Byte.x00; Byte.x00]
       else if String.eqb s face_jpeg then Ok [Byte.xff; Byte.xd8; Byte.xff]
       else Raise BinasciiError;
     app.imdecode bytes :=
       match bytes with
       | [Byte.xff; Byte.xd8; Byte.xff] => Ok (Some 1%nat)
       | _ => Ok None
       end;
     app.imencode_jpg _ := Ok [Byte.xff; Byte.xd8; Byte.xff];
     app.b64encode _ := face_jpeg;
     app.shape _ := (100, 100) |}.

(** A classifier that finds one face in every image. *)
Definition classify (image : nat) (d : detector.FaceDetector) : list Rect :=
  [(10, 10, 50, 50)].

Definition face_detector : app.FaceDetector nat detector.FaceDetector :=
  detector.api classify (fun image _ => image).

Definition cv : face_detector.Cv nat :=
  {| face_detector.process_frame f := (f, [(10, 10, 50, 50)]);
     face_detector.draw_info f _ _ := f;
     face_detector.rectangle f _ _ _ := f |}.

(** A clock that advances by a tenth of a second per reading. *)
Definition tenths : Clock := mkClock (fun k => Z.of_nat k # 10) 0.

Definition world : app.World (D := detector.FaceDetector) :=
  app.mkWorld detector.init tenths.

(** The inputs of the scenarios. *)

Definition clip : face_detector.VideoFile (Frame := nat) := face_detector.mkVideo 25 640 480 3 [1; 2; 3]%nat.
Definition key_p : face_detector.tick := face_detector.mkTick 112 None.
Definition key_q : face_detector.tick := face_detector.mkTick 113 None.
Definition no_key : face_detector.tick := face_detector.mkTick (-1) None.
Definition app0 : face_detector.FaceDetectionApp := fst (face_detector.__init__ tenths).
Definition clock0 : Clock := snd (face_detector.__init__ tenths).

Definition paused_state : face_detector.Proc nat := face_detector.mkProc app0 clock0 [2; 3]%nat 1 true 1 0.

Definition frame_only (payload : string) : gmap string app.json :=
  {[ "frame"%string := app.JStr payload ]}.

Definition tuned_frame : gmap string app.json :=
  {[ "scale_factor"%string := app.JFloat (12 # 10);
     "frame"%string := app.JStr face_jpeg ]}.

End doubles.

(** * Properties *)

(** ** Comparison of rationals *)

Lemma Qgeb_true a b : Qgeb a b = true <-> (b <= a)%Q.
Proof. unfold Qgeb. apply Qle_bool_iff. Qed.

Lemma Qgeb_false a b : Qgeb a b = false <-> (a < b)%Q.
Proof.
  unfold Qgeb. split.
  - intros H. apply Qnot_le_lt. intros Hle.
    apply Qle_bool_iff in Hle. congruence.
  - intros H. destruct (Qle_bool b a) eqn:E; [|reflexivity].
    apply Qle_bool_iff in E. exfalso. exact (Qlt_not_le _ _ H E).
Qed.

(** ** Rounding to the nearest double *)

Section FloatProperties.
Local Open Scope Q_scope.

Lemma pow2_pos k : 0 < pow2 k.
Proof. apply Qpower_0_lt. reflexivity. Qed.

Lemma pow2_add a b : pow2 (a + b) == pow2 a * pow2 b.
Proof. apply Qpower_plus. discriminate. Qed.

Lemma pow2_Z k : (0 <= k)%Z -> pow2 k == inject_Z (2 ^ k).
Proof. intros H. unfold pow2. rewrite Zpower_Qpower by exact H. reflexivity. Qed.

Lemma pow2_le a b : (a <= b)%Z -> pow2 a <= pow2 b.
Proof. intros H. apply Qpower_le_compat_l; [exact H | discriminate]. Qed.

Lemma pow2_lt_inv a b : pow2 a < pow2 b -> (a < b)%Z.
Proof. intros H. apply (Qpower_lt_compat_l_inv 2 a b H). reflexivity. Qed.

Lemma pow2_cancel a : pow2 a * pow2 (- a) == 1.
Proof. rewrite <- pow2_add, Z.add_opp_diag_r. reflexivity. Qed.

Lemma ilog2_spec q : 0 < q -> pow2 (ilog2 q) <= q /\ q < pow2 (ilog2 q + 1).
Proof.
  intros Hq. destruct q as [n d]. unfold ilog2. cbn [Qnum Qden].
  assert (Hn : (0 < n)%Z) by (unfold Qlt in Hq; cbn in Hq; lia).
  set (a := Z.log2 n). set (b := Z.log2 (Z.pos d)).
  assert (Ha : (0 <= a)%Z) by apply Z.log2_nonneg.
  assert (Hb : (0 <= b)%Z) by apply Z.log2_nonneg.
  destruct (Z.log2_spec n Hn) as [Ha1 Ha2]. fold a in Ha1, Ha2.
  destruct (Z.log2_spec (Z.pos d) eq_refl) as [Hb1 Hb2]. fold b in Hb1, Hb2.
  assert (Hd : 0 < inject_Z (Z.pos d)) by reflexivity.
  assert (Hnd : n # d == inject_Z n / inject_Z (Z.pos d)) by apply Qmake_Qdiv.
  assert (Hup : n # d < pow2 (a - b + 1)).
  { rewrite Hnd. apply Qlt_shift_div_r; [exact Hd|].
    apply Qlt_le_trans with (pow2 (a + 1)).
    - rewrite pow2_Z by lia. rewrite <- Zlt_Qlt. exact Ha2.
    - replace (a + 1)%Z with ((a - b + 1) + b)%Z by lia. rewrite pow2_add.
      apply Qmult_le_l; [apply pow2_pos|].
      rewrite pow2_Z by lia. rewrite <- Zle_Qle. exact Hb1. }
  assert (Hlow : pow2 (a - b - 1) <= n # d).
  { rewrite Hnd. apply Qle_shift_div_l; [exact Hd|].
    apply Qle_trans with (pow2 a).
    - replace a with ((a - b - 1) + (b + 1))%Z at 2 by lia. rewrite pow2_add.
      apply Qmult_le_l; [apply pow2_pos|].
      rewrite pow2_Z by lia. rewrite <- Zle_Qle. lia.
    - rewrite pow2_Z by lia. rewrite <- Zle_Qle. exact Ha1. }
  destruct (Qle_bool (pow2 (a - b)) (n # d)) eqn:E.
  - apply Qle_bool_iff in E. split; assumption.
  - split; [exact Hlow|]. replace (a - b - 1 + 1)%Z with (a - b)%Z by lia.
    apply Qnot_le_lt. intros H. apply Qle_bool_iff in H. congruence.
Qed.

Lemma round_half_even_cases x :
  round_half_even x = Qfloor x
  \/ (round_half_even x = Qfloor x + 1)%Z /\ inject_Z (Qfloor x) < x.
Proof.
  unfold round_half_even, Qgtb.
  destruct (Qle_bool (1 # 2) (x - inject_Z (Qfloor x))) eqn:E; cbn [negb];
    [|left; reflexivity].
  apply Qle_bool_iff in E.
  assert (H : inject_Z (Qfloor x) < x).
  { apply Qlt_minus_iff. apply Qlt_le_trans with (1 # 2); [reflexivity | exact E]. }
  destruct (negb (Qle_bool (x - inject_Z (Qfloor x)) (1 # 2))); [right; auto|].
  destruct (Z.even (Qfloor x)); [left; reflexivity | right; auto].
Qed.

Lemma round_half_even_le x k : x <= inject_Z k -> (round_half_even x <= k)%Z.
Proof.
  intros H.
  assert (Hf : (Qfloor x <= k)%Z).
  { rewrite <- (Qfloor_Z k). apply Qfloor_resp_le, H. }
  destruct (round_half_even_cases x) as [-> | [-> Hlt]]; [exact Hf|].
  assert (inject_Z (Qfloor x) < inject_Z k) by (eapply Qlt_le_trans; eassumption).
  rewrite <- Zlt_Qlt in H0. lia.
Qed.

Lemma round_half_even_ge x k : inject_Z k <= x -> (k <= round_half_even x)%Z.
Proof.
  intros H.
  assert (Hf : (k <= Qfloor x)%Z).
  { rewrite <- (Qfloor_Z k). apply Qfloor_resp_le, H. }
  destruct (round_half_even_cases x) as [-> | [-> _]]; lia.
Qed.

Lemma dyadic_scaled m k u :
  (u <= k)%Z -> dyadic m k * pow2 (- u) == inject_Z (m * 2 ^ (k - u)).
Proof.
  intros H. unfold dyadic. rewrite <- Qmult_assoc, <- pow2_add.
  replace (k + - u)%Z with (k - u)%Z by lia.
  rewrite pow2_Z by lia. rewrite inject_Z_mult. reflexivity.
Qed.

Lemma fl_pos_le x m k :
  0 < x -> (0 < m < 2 ^ 53)%Z -> (-1074 <= k)%Z ->
  x <= dyadic m k -> fl_pos x <= dyadic m k.
Proof.
  intros Hx Hm Hk Hle. unfold fl_pos.
  destruct (ilog2_spec x Hx) as [He _]. set (e := ilog2 x) in *.
  set (u := Z.max (e - 52) (-1074)).
  assert (Hu : (u <= k)%Z).
  { assert (pow2 e < pow2 (53 + k)).
    { apply Qle_lt_trans with x; [exact He|].
      apply Qle_lt_trans with (dyadic m k); [exact Hle|].
      unfold dyadic. rewrite pow2_add. apply Qmult_lt_r; [apply pow2_pos|].
      rewrite pow2_Z by lia. rewrite <- Zlt_Qlt. lia. }
    apply pow2_lt_inv in H. lia. }
  assert (Hs : x * pow2 (- u) <= inject_Z (m * 2 ^ (k - u))).
  { rewrite <- (dyadic_scaled m k u Hu).
    apply Qmult_le_compat_r; [exact Hle | apply Qlt_le_weak, pow2_pos]. }
  apply round_half_even_le in Hs.
  apply Qle_trans with (inject_Z (m * 2 ^ (k - u)) * pow2 u).
  - apply Qmult_le_compat_r; [|apply Qlt_le_weak, pow2_pos].
    rewrite <- Zle_Qle. exact Hs.
  - rewrite <- (dyadic_scaled m k u Hu), <- Qmult_assoc.
    rewrite (Qmult_comm (pow2 (- u))), pow2_cancel, Qmult_1_r. apply Qle_refl.
Qed.

Lemma fl_pos_ge x m k :
  (0 < m < 2 ^ 53)%Z -> (-1074 <= k)%Z ->
  dyadic m k <= x -> dyadic m k <= fl_pos x.
Proof.
  intros Hm Hk Hle. unfold fl_pos.
  assert (Hd : 0 < dyadic m k).
  { unfold dyadic. apply Qmult_lt_0_compat; [|apply pow2_pos].
    rewrite <- (Zlt_Qlt 0). lia. }
  assert (Hx : 0 < x) by (eapply Qlt_le_trans; eassumption).
  destruct (ilog2_spec x Hx) as [He _]. set (e := ilog2 x) in *.
  set (u := Z.max (e - 52) (-1074)).
  destruct (Z_le_gt_dec u k) as [Hu|Hu].
  - assert (Hs : inject_Z (m * 2 ^ (k - u)) <= x * pow2 (- u)).
    { rewrite <- (dyadic_scaled m k u Hu).
      apply Qmult_le_compat_r; [exact Hle | apply Qlt_le_weak, pow2_pos]. }
    apply round_half_even_ge in Hs.
    apply Qle_trans with (inject_Z (m * 2 ^ (k - u)) * pow2 u).
    + rewrite <- (dyadic_scaled m k u Hu), <- Qmult_assoc.
      rewrite (Qmult_comm (pow2 (- u))), pow2_cancel, Qmult_1_r. apply Qle_refl.
    + apply Qmult_le_compat_r; [|apply Qlt_le_weak, pow2_pos].
      rewrite <- Zle_Qle. exact Hs.
  - assert (Hue : u = (e - 52)%Z) by lia.
    assert (Hs : inject_Z (2 ^ 52) <= x * pow2 (- u)).
    { rewrite <- pow2_Z by lia.
      replace 52%Z with (e + - u)%Z by lia. rewrite pow2_add.
      apply Qmult_le_compat_r; [exact He | apply Qlt_le_weak, pow2_pos]. }
    apply round_half_even_ge in Hs.
    apply Qle_trans with (pow2 (53 + k)).
    + unfold dyadic. rewrite pow2_add. apply Qmult_le_compat_r;
        [|apply Qlt_le_weak, pow2_pos].
      rewrite pow2_Z by lia. rewrite <- Zle_Qle. lia.
    + apply Qle_trans with (pow2 (52 + u)); [apply pow2_le; lia|].
      rewrite pow2_add. apply Qmult_le_compat_r; [|apply Qlt_le_weak, pow2_pos].
      rewrite pow2_Z by lia. rewrite <- Zle_Qle. exact Hs.
Qed.

Lemma fl_nonneg x : 0 <= x -> 0 <= fl x.
Proof.
  intros H. unfold fl. destruct x as [[|n|n] d]; cbn [Qnum].
  - apply Qle_refl.
  - unfold fl_pos. apply Qmult_le_0_compat; [|apply Qlt_le_weak, pow2_pos].
    rewrite <- (Zle_Qle 0). apply round_half_even_ge.
    apply Qmult_le_0_compat; [exact H | apply Qlt_le_weak, pow2_pos].
  - exfalso. unfold Qle in H. cbn in H. lia.
Qed.

Lemma fl_of_pos x : 0 < x -> fl x = fl_pos x.
Proof.
  intros H. unfold fl. destruct x as [[|n|n] d]; cbn [Qnum]; try reflexivity;
    exfalso; unfold Qlt in H; cbn in H; lia.
Qed.

Lemma fl_zero x : x == 0 -> fl x = 0.
Proof.
  intros H. unfold fl. destruct x as [[|n|n] d]; cbn [Qnum]; try reflexivity;
    exfalso; unfold Qeq in H; cbn in H; lia.
Qed.

(** Rounding keeps to the side of a double it starts on. *)
Lemma fl_le x m k :
  0 <= x -> (0 <= m < 2 ^ 53)%Z -> (-1074 <= k)%Z ->
  x <= dyadic m k -> fl x <= dyadic m k.
Proof.
  intros Hx Hm Hk Hle.
  destruct (Qlt_le_dec 0 x) as [Hpos|Hzero].
  - rewrite (fl_of_pos x Hpos).
    assert (Hm0 : Z.lt 0 m).
    { destruct (Z.eq_dec m 0%Z) as [->|]; [|lia].
      exfalso. unfold dyadic in Hle. rewrite Qmult_0_l in Hle.
      exact (Qlt_not_le _ _ Hpos Hle). }
    apply fl_pos_le; [assumption | lia | assumption..].
  - rewrite (fl_zero x) by (apply Qle_antisym; assumption).
    eapply Qle_trans; eassumption.
Qed.

Lemma fl_ge x m k :
  (0 <= m < 2 ^ 53)%Z -> (-1074 <= k)%Z ->
  dyadic m k <= x -> dyadic m k <= fl x.
Proof.
  intros Hm Hk Hle.
  destruct (Z.eq_dec m 0%Z) as [->|Hm0].
  - unfold dyadic in *. rewrite Qmult_0_l in *. apply fl_nonneg, Hle.
  - assert (Hd : 0 < dyadic m k).
    { unfold dyadic. apply Qmult_lt_0_compat; [|apply pow2_pos].
      rewrite <- (Zlt_Qlt 0). lia. }
    rewrite fl_of_pos by (eapply Qlt_le_trans; eassumption).
    apply fl_pos_ge; [lia | assumption..].
Qed.

Lemma fl_exact x m k :
  (0 <= m < 2 ^ 53)%Z -> (-1074 <= k)%Z -> x == dyadic m k -> fl x == dyadic m k.
Proof.
  intros Hm Hk H. apply Qle_antisym.
  - apply fl_le; try assumption.
    + rewrite H. unfold dyadic. apply Qmult_le_0_compat;
        [rewrite <- (Zle_Qle 0); lia | apply Qlt_le_weak, pow2_pos].
    + rewrite H. apply Qle_refl.
  - apply fl_ge; try assumption. rewrite H. apply Qle_refl.
Qed.

Lemma Qmult_le_compat_l_nonneg (x y z : Q) : 0 <= z -> x <= y -> z * x <= z * y.
Proof.
  intros Hz H. rewrite (Qmult_comm z x), (Qmult_comm z y).
  apply Qmult_le_compat_r; assumption.
Qed.

Lemma round_half_even_nonneg (x : Q) : 0 <= x -> (0 <= round_half_even x)%Z.
Proof. intros H. apply round_half_even_ge, H. Qed.

End FloatProperties.

(** ** Equations of the monad *)

Section MonadEquations.
Context {S E : Type}.

Lemma bind_ret {A B} (a : A) (k : A -> SE S E B) (s : S) :
  (mret a ≫= k) s = k a s.
Proof.
  unfold mbind, SE_bind, mret, SE_ret. destruct (k a s) as [[r tr] s'].
  reflexivity.
Qed.

Lemma bind_get {A} (k : S -> SE S E A) (s : S) : (get ≫= k) s = k s s.
Proof.
  unfold mbind, SE_bind, get. destruct (k s s) as [[r tr] s']. reflexivity.
Qed.

Lemma bind_modify {A} (f : S -> S) (k : unit -> SE S E A) (s : S) :
  (modify f ≫= k) s = k tt (f s).
Proof.
  unfold mbind, SE_bind, modify. destruct (k tt (f s)) as [[r tr] s'].
  reflexivity.
Qed.

Lemma bind_lift_ok {A B} (a : A) (k : A -> SE S E B) (s : S) :
  (lift (Ok a) ≫= k) s = k a s.
Proof.
  unfold mbind, SE_bind, lift. destruct (k a s) as [[r tr] s']. reflexivity.
Qed.

Lemma bind_lift_raise {A B} (e : exn) (k : A -> SE S E B) (s : S) :
  (lift (Raise e) ≫= k) s = (Raise e, [], s).
Proof. reflexivity. Qed.

Lemma bind_raise {A B} (e : exn) (k : A -> SE S E B) (s : S) :
  (raise e ≫= k) s = (Raise e, [], s).
Proof. reflexivity. Qed.

Lemma bind_emit {A} (e : E) (k : unit -> SE S E A) (s : S) :
  (emit e ≫= k) s = let '(r, tr, s') := k tt s in (r, e :: tr, s').
Proof. reflexivity. Qed.

End MonadEquations.

(** ** FPS bookkeeping *)

Section FpsProperties.
Import face_detector.

(** Within the window: the call counts the frame and returns the held
    value. *)
Lemma update_fps_hold (self : FaceDetectionApp) (c : Clock) :
  (readings c (pos c) - fps_start_time self < 1)%Q ->
  _update_fps self c =
    (current_fps self,
     mkApp (fps_start_time self) (fps_frame_count self + 1) (current_fps self),
     mkClock (readings c) (S (pos c))).
Proof.
  intros H. unfold _update_fps, time_time.
  cbn [fps_start_time fps_frame_count current_fps readings pos].
  apply Qgeb_false in H. rewrite H. reflexivity.
Qed.

(** At the end of the window: the call recomputes and starts a new
    window at the next reading of the clock. *)
Lemma update_fps_recompute (self : FaceDetectionApp) (c : Clock) :
  let elapsed := (readings c (pos c) - fps_start_time self)%Q in
  let fps := (inject_Z (fps_frame_count self + 1) / elapsed)%Q in
  (1 <= elapsed)%Q ->
  _update_fps self c =
    (fps,
     mkApp (readings c (S (pos c))) 0 fps,
     mkClock (readings c) (S (S (pos c)))).
Proof.
  intros elapsed fps H. unfold _update_fps, time_time.
  cbn [fps_start_time fps_frame_count current_fps readings pos].
  fold elapsed. apply Qgeb_true in H. rewrite H. reflexivity.
Qed.

(** C5.  A call of [_update_fps] whose elapsed time since the window
    start is below one second only counts the frame: it returns the held
    [current_fps] and leaves it (and the window start) unchanged.  A call
    whose elapsed time is at least one second sets [current_fps] to the
    frames counted in the window (this one included) divided by the
    elapsed time, resets the counter to 0 and the window start to the next
    clock reading, and returns the new value. *)
Theorem update_fps_window (self : FaceDetectionApp) (c : Clock) :
  let elapsed := (readings c (pos c) - fps_start_time self)%Q in
  ((elapsed < 1)%Q ->
   _update_fps self c =
     (current_fps self,
      mkApp (fps_start_time self) (fps_frame_count self + 1) (current_fps self),
      mkClock (readings c) (S (pos c))))
  /\
  ((1 <= elapsed)%Q ->
   let fps := (inject_Z (fps_frame_count self + 1) / elapsed)%Q in
   _update_fps self c =
     (fps,
      mkApp (readings c (S (pos c))) 0 fps,
      mkClock (readings c) (S (S (pos c))))).
Proof.
  intros elapsed. split.
  - apply update_fps_hold.
  - apply update_fps_recompute.
Qed.

(** While every reading stays within one second of the window start, [n]
    calls return the held value [n] times and only count frames. *)
Lemma update_fps_times_hold (n : nat) :
  forall (self : FaceDetectionApp) (c : Clock),
    (forall k, (k < n)%nat ->
       (readings c (pos c + k) - fps_start_time self < 1)%Q) ->
    update_fps_times n self c =
      (repeat (current_fps self) n,
       mkApp (fps_start_time self) (fps_frame_count self + Z.of_nat n)
             (current_fps self),
       mkClock (readings c) (pos c + n)).
Proof.
  induction n as [|n IH]; intros self c Hk.
  - cbn [update_fps_times repeat]. destruct self, c; cbn.
    rewrite Z.add_0_r, Nat.add_0_r. reflexivity.
  - cbn [update_fps_times repeat].
    rewrite update_fps_hold.
    2:{ specialize (Hk O). rewrite Nat.add_0_r in Hk. apply Hk. lia. }
    rewrite IH.
    + cbn [fps_start_time fps_frame_count current_fps readings pos].
      f_equal; [f_equal|]; [f_equal; lia | f_equal; lia].
    + intros k Hlt'. cbn [fps_start_time readings pos].
      replace (S (pos c) + k)%nat with (pos c + S k)%nat by lia.
      apply Hk. lia.
Qed.

(** C10.  After construction, [_update_fps] returns 0 on every call made
    while less than one second has elapsed since the construction-time
    reading of the clock. *)
Theorem fps_zero_during_first_window (c : Clock) (n : nat) :
  (forall k, (1 <= k <= n)%nat ->
     (readings c (pos c + k) - readings c (pos c) < 1)%Q) ->
  fst (fst (update_fps_times n (fst (__init__ c)) (snd (__init__ c))))
  = repeat 0%Q n.
Proof.
  intros H. unfold __init__, time_time. cbn [fst snd].
  rewrite update_fps_times_hold.
  - reflexivity.
  - intros k Hk. cbn [readings pos fps_start_time].
    replace (S (pos c) + k)%nat with (pos c + S k)%nat by lia.
    apply H. lia.
Qed.

End FpsProperties.

(** ** The progress bar of [run_video] *)

Section ProgressProperties.
Import face_detector.

Lemma progress_pos_total (fc : Z) (t : positive) :
  progress fc (Z.pos t) = (inject_Z fc / inject_Z (Z.pos t))%Q.
Proof. reflexivity. Qed.

Lemma progress_nonpos_total (fc total : Z) :
  total <= 0 -> progress fc total = 0%Q.
Proof.
  intros H. unfold progress. destruct (0 <? total) eqn:E; [|reflexivity].
  apply Z.ltb_lt in E. lia.
Qed.

(** Against C6 as worded: a source that under-reports its frame count
    drives the fraction above 1.  At the tenth frame of a file reporting
    five frames it is 2. *)
Lemma progress_exceeds_one : (1 < progress 10 5)%Q.
Proof. reflexivity. Qed.

(** C6, as the code has it.  For a processed frame ([frame_count >= 1])
    the fraction is never negative, does not decrease from one frame to
    the next, is at most 1 as long as the frame index has not passed a
    positive reported total, and is 1 exactly when the frame index equals
    the reported total. *)
Theorem progress_fraction (frame_count total_frames : Z) :
  1 <= frame_count ->
  (0 <= progress frame_count total_frames)%Q
  /\ (progress frame_count total_frames
      <= progress (frame_count + 1) total_frames)%Q
  /\ (frame_count <= total_frames ->
      (progress frame_count total_frames <= 1)%Q)
  /\ ((progress frame_count total_frames == 1)%Q
      <-> frame_count = total_frames).
Proof.
  intros Hfc.
  assert (Hnp : total_frames <= 0 ->
                forall fc, 1 <= fc ->
                  (0 <= progress fc total_frames)%Q
                  /\ (progress fc total_frames
                      <= progress (fc + 1) total_frames)%Q
                  /\ (fc <= total_frames -> (progress fc total_frames <= 1)%Q)
                  /\ ((progress fc total_frames == 1)%Q <-> fc = total_frames)).
  { intros Hle fc Hfc'. rewrite !progress_nonpos_total by lia.
    split; [apply Qle_refl|]. split; [apply Qle_refl|].
    split; [intros _; unfold Qle; simpl; lia|].
    split; [intros H; discriminate H | lia]. }
  destruct total_frames as [|t|t]; [apply Hnp; lia | | apply Hnp; lia].
  clear Hnp. rewrite !progress_pos_total.
  unfold Qle, Qeq, Qdiv, Qmult, Qinv, inject_Z. cbn [Qnum Qden].
  split; [nia|]. split; [nia|]. split; [intros H; nia|].
  split; intros H; nia.
Qed.

(** C6 at a concrete input: the third frame of four. *)
Lemma progress_fraction_witness :
  (0 <= progress 3 4)%Q
  /\ (progress 3 4 <= progress (3 + 1) 4)%Q
  /\ (3 <= 4 -> (progress 3 4 <= 1)%Q)
  /\ ((progress 3 4 == 1)%Q <-> 3 = 4).
Proof. apply (progress_fraction 3 4). lia. Defined.

End ProgressProperties.

(** ** The loops of [run_webcam] and [run_video] *)

Section LoopProperties.
Import face_detector.
Context {Frame : Type} `{!Cv Frame}.

Implicit Types (kind : event Frame -> bool) (tr : list (event Frame)).
Local Abbreviation M := (@M Frame).
Local Abbreviation returns := (returns (Frame := Frame)).
Local Abbreviation leaves := (leaves (Frame := Frame)).

Lemma occurrences_app kind tr tr' :
  occurrences kind (tr ++ tr') = (occurrences kind tr + occurrences kind tr')%nat.
Proof. unfold occurrences. rewrite List.filter_app, List.length_app. reflexivity. Qed.

Lemma silent_ret kind {A} (a : A) : silent kind (mret a : M A).
Proof. intros p. reflexivity. Qed.

Lemma silent_raise kind {A} (e : exn) : silent kind (raise e : M A).
Proof. intros p. reflexivity. Qed.

Lemma silent_get kind : silent kind (get : M (Proc Frame)).
Proof. intros p. reflexivity. Qed.

Lemma silent_modify kind f : silent kind (modify f : M unit).
Proof. intros p. reflexivity. Qed.

Lemma silent_emit kind (e : event Frame) :
  kind e = false -> silent kind (emit e : M unit).
Proof. intros H p. unfold emit, occurrences. cbn. rewrite H. reflexivity. Qed.

Lemma silent_bind kind {A B} (m : M A) (k : A -> M B) :
  silent kind m -> (forall a, silent kind (k a)) -> silent kind (m ≫= k).
Proof.
  intros Hm Hk p. specialize (Hm p).
  unfold mbind, SE_bind at 1.
  destruct (m p) as [[[a|e] tr] p']; cbn [fst snd] in *.
  - specialize (Hk a p'). destruct (k a p') as [[r tr'] p''].
    cbn [fst snd] in *. rewrite occurrences_app. lia.
  - exact Hm.
Qed.

Lemma silent_ext kind t s : silent kind (ext t s).
Proof.
  unfold ext. destruct (fault t) as [[s' e]|];
    [destruct (stage_eqb s s')|]; auto using silent_raise, silent_ret.
Qed.

Lemma silent_update_fps kind : silent kind update_fps.
Proof.
  unfold update_fps. apply silent_bind; [apply silent_get|]. intros p.
  destruct (_update_fps (self p) (clock p)) as [[v a] c].
  repeat (apply silent_bind; [apply silent_modify|]; intros _).
  apply silent_ret.
Qed.

Lemma silent_wait_key kind t d :
  kind (EvWaitKey d) = false -> silent kind (wait_key t d).
Proof.
  intros H. unfold wait_key.
  apply silent_bind; [apply silent_ext|]; intros _.
  apply silent_bind; [apply silent_emit, H|]; intros _.
  apply silent_ret.
Qed.

Lemma silent_cap_read kind t :
  (forall b, kind (EvCapRead b) = false) -> silent kind (cap_read t).
Proof.
  intros H. unfold cap_read.
  apply silent_bind; [apply silent_ext|]; intros _.
  apply silent_bind; [apply silent_get|]; intros p.
  destruct (cap p) as [|f rest].
  - apply silent_bind; [apply silent_emit, H|]; intros _. apply silent_ret.
  - apply silent_bind; [apply silent_modify|]; intros _.
    apply silent_bind; [apply silent_emit, H|]; intros _. apply silent_ret.
Qed.

Lemma body_free_cap_release : body_free (Frame := Frame) is_cap_release.
Proof. repeat split. Qed.

Lemma body_free_writer_release : body_free (Frame := Frame) is_writer_release.
Proof. repeat split. Qed.

Ltac silent_step :=
  first
    [ apply silent_ret
    | apply silent_raise
    | apply silent_get
    | apply silent_modify
    | apply silent_ext
    | apply silent_update_fps
    | apply silent_wait_key; solve [auto]
    | apply silent_cap_read; solve [auto]
    | apply silent_emit; solve [auto]
    | apply silent_bind; [|intros ?] ].

Lemma silent_webcam_iteration kind save t :
  body_free kind -> silent kind (webcam_iteration save t).
Proof.
  intros (Hread & Hwrite & Hshow & Hkey & Hshot). unfold webcam_iteration.
  silent_step; [silent_step|].
  destruct a as [frame|]; [|silent_step].
  silent_step; [silent_step|].
  destruct (process_frame frame) as [processed faces].
  do 4 (silent_step; [silent_step|]).
  silent_step.
  { destruct save; repeat silent_step. }
  silent_step; [silent_step|].
  destruct (_ =? ord_q); [silent_step|].
  destruct (_ =? ord_s); repeat silent_step.
Qed.

Lemma silent_video_iteration kind v save t :
  body_free kind -> silent kind (video_iteration v save t).
Proof.
  intros (Hread & Hwrite & Hshow & Hkey & Hshot). unfold video_iteration.
  silent_step; [silent_step|].
  silent_step.
  - destruct (paused a); [silent_step|].
    silent_step; [silent_step|].
    destruct a0 as [frame|]; [|silent_step].
    do 2 (silent_step; [silent_step|]).
    destruct (process_frame frame) as [processed faces].
    do 6 (silent_step; [silent_step|]).
    silent_step; [silent_step|].
    silent_step; [destruct save; repeat silent_step|].
    silent_step.
  - destruct a0; [|silent_step].
    silent_step; [silent_step|].
    destruct (_ =? ord_q); [silent_step|].
    destruct (_ =? ord_p); repeat silent_step.
Qed.

Lemma silent_loop kind (body : tick -> M control) script :
  (forall t, silent kind (body t)) ->
  forall p, occurrences kind (snd (fst (loop body script p))) = 0%nat.
Proof.
  intros Hbody. induction script as [|t script IH]; intros p; [reflexivity|].
  cbn [loop]. specialize (Hbody t p).
  destruct (body t p) as [[[[]|e] tr] p']; cbn [fst snd] in *; try assumption.
  specialize (IH p'). destruct (loop body script p') as [[r tr'] p''].
  cbn [fst snd] in *. rewrite occurrences_app. lia.
Qed.


(** *** Waiting for a key *)

(** [cv2.waitKey] either raises, with no effect, or waits and returns the
    low byte of the key. *)
Lemma wait_key_cases (t : tick) (d : Z) (p : Proc Frame) :
  (exists e, wait_key t d p = (Raise e, [], p))
  \/ wait_key t d p = (Ok (Z.land (key t) 255), [EvWaitKey d], p).
Proof.
  unfold wait_key, ext.
  destruct (fault t) as [[s e]|]; [destruct s|]; cbn; eauto.
Qed.

(** *** Pause: the source is not polled *)

(** C8.  An iteration of the video loop that starts paused performs no
    [cap.read()], leaves the frames held by the capture untouched and
    leaves [frame_count] unchanged, whatever key arrives and whether or
    not [cv2.waitKey] raises. *)
Theorem paused_iteration_does_not_poll
  (v : VideoFile) (save_output : bool) (t : tick) (p : Proc Frame) :
  paused p = true ->
  occurrences is_cap_read (snd (fst (video_iteration v save_output t p))) = 0%nat
  /\ cap (snd (video_iteration v save_output t p)) = cap p
  /\ frame_count (snd (video_iteration v save_output t p)) = frame_count p.
Proof.
  intros Hp. unfold video_iteration.
  rewrite bind_get, Hp, bind_ret.
  unfold mbind, SE_bind.
  destruct (wait_key_cases t (delay (v_fps v)) p) as [[e ->] | ->].
  - cbn. auto.
  - destruct (Z.land (key t) 255 =? ord_q); [cbn; auto|].
    destruct (Z.land (key t) 255 =? ord_p); cbn; auto.
Qed.

(** *** Termination and release of the resources *)

Lemma leaves_bind {A} (m : M A) (k : A -> M control) (P : A -> Prop) :
  returns m P -> (forall a, P a -> leaves (k a)) -> leaves (m ≫= k).
Proof.
  intros Hm Hk p. unfold mbind, SE_bind.
  destruct (m p) as [[[a|e] tr] p'] eqn:E; cbn [fst snd].
  - specialize (Hk a (Hm _ _ _ _ E) p').
    destruct (k a p') as [[r tr'] p'']. exact Hk.
  - discriminate.
Qed.

Lemma returns_any {A} (m : M A) : returns m (fun _ => True).
Proof. intros p a tr p' _. exact I. Qed.

Lemma returns_wait_key t d : returns (wait_key t d) (fun k => k = Z.land (key t) 255).
Proof.
  intros p a tr p'.
  destruct (wait_key_cases t d p) as [[e ->] | ->]; intros H;
    inversion H; reflexivity.
Qed.

Lemma leaves_break : leaves (mret Break).
Proof. intros p. discriminate. Qed.

Lemma webcam_iteration_quit save t : quits t -> leaves (webcam_iteration save t).
Proof.
  intros Hq. unfold webcam_iteration.
  eapply leaves_bind; [apply returns_any|]. intros [frame|] _; [|apply leaves_break].
  eapply leaves_bind; [apply returns_any|]. intros _ _.
  destruct (process_frame frame) as [processed faces].
  do 4 (eapply leaves_bind; [apply returns_any|]; intros ? _).
  eapply leaves_bind; [apply returns_any|]; intros _ _.
  eapply leaves_bind; [apply returns_wait_key|]. intros k ->.
  rewrite Hq. apply leaves_break.
Qed.

Lemma video_iteration_quit v save t : quits t -> leaves (video_iteration v save t).
Proof.
  intros Hq. unfold video_iteration.
  eapply leaves_bind; [apply returns_any|]. intros p _.
  eapply leaves_bind; [apply returns_any|]. intros [|] _; [|apply leaves_break].
  eapply leaves_bind; [apply returns_wait_key|]. intros k ->.
  rewrite Hq. apply leaves_break.
Qed.

Lemma loop_quit_ends (body : tick -> M control) script :
  (forall t, quits t -> leaves (body t)) ->
  Exists quits script ->
  forall p, fst (fst (loop body script p)) <> Pending.
Proof.
  intros Hbody. induction script as [|t script IH]; intros Hex p.
  - inversion Hex.
  - cbn [loop]. destruct (body t p) as [[[[]|e] tr] p'] eqn:E; cbn [fst snd];
      try discriminate.
    assert (Hrest : Exists quits script).
    { inversion Hex as [? ? Hq|]; [|assumption]. subst.
      exfalso. apply (Hbody t Hq p). rewrite E. reflexivity. }
    specialize (IH Hrest p'). destruct (loop body script p') as [[r tr'] p''].
    exact IH.
Qed.

Lemma finally_effects save (p : Proc Frame) :
  finally save p
  = (Ok tt,
     [EvCapRelease] ++ (if save then [EvWriterRelease] else [])
       ++ [EvDestroyAllWindows],
     p).
Proof. destruct save; reflexivity. Qed.

Lemma try_finally_released body save p :
  (forall kind, body_free kind ->
     occurrences kind (snd (fst (body p))) = 0%nat) ->
  (fst (fst (try_finally body save p)) <> Running ->
   released_once save (snd (fst (try_finally body save p))))
  /\ (fst (fst (body p)) <> Pending ->
      fst (fst (try_finally body save p)) <> Running).
Proof.
  intros Hbody.
  pose proof (Hbody _ body_free_cap_release) as Hc.
  pose proof (Hbody _ body_free_writer_release) as Hw.
  unfold try_finally, released_once.
  destruct (body p) as [[[| e |] tr] p']; rewrite ?finally_effects;
    cbn [fst snd] in *.
  - split; [intros _ | discriminate].
    rewrite !occurrences_app, Hc, Hw. destruct save; split; reflexivity.
  - split; [intros _ | discriminate].
    rewrite !occurrences_app, Hc, Hw. destruct save; split; reflexivity.
  - split; [congruence | congruence].
Qed.

(** The set-up of a run, case by case: it raises exactly when the fault
    is placed at one of its calls, and has then opened the capture and
    released nothing. *)
Lemma webcam_setup_cases save fault (p : Proc Frame) :
  exists pre p',
    webcam_setup save fault p
    = (setup_outcome (webcam_stages save) fault, pre, p')
    /\ Forall plumbing pre
    /\ occurrences is_cap_open pre = 1%nat
    /\ occurrences is_cap_release pre = 0%nat
    /\ occurrences is_writer_release pre = 0%nat
    /\ cap p' = cap p /\ screenshot_count p' = screenshot_count p.
Proof.
  destruct fault as [[[] e]|]; destruct save;
    (eexists _, _; split; [reflexivity|]);
    repeat split; repeat constructor.
Qed.

Lemma video_setup_cases save fault (p : Proc Frame) :
  exists pre,
    video_setup save fault p
    = (setup_outcome (video_stages save) fault, pre, p)
    /\ Forall plumbing pre
    /\ occurrences is_cap_open pre = 1%nat
    /\ occurrences is_cap_release pre = 0%nat
    /\ occurrences is_writer_release pre = 0%nat.
Proof.
  destruct fault as [[[] e]|]; destruct save;
    (eexists; split; [reflexivity|]);
    repeat split; repeat constructor.
Qed.

Lemma run_with_setup_released setup body save (p : Proc Frame) outcome pre p' :
  setup p = (outcome, pre, p') ->
  occurrences is_cap_open pre = 1%nat ->
  occurrences is_cap_release pre = 0%nat ->
  occurrences is_writer_release pre = 0%nat ->
  (forall kind, body_free kind -> occurrences kind (snd (fst (body p'))) = 0%nat) ->
  let run := run_with_setup setup body save p in
  match outcome with
  | Ok _ =>
      (fst (fst (body p')) <> Pending -> fst (fst run) <> Running)
      /\ (fst (fst run) <> Running -> released_once save (snd (fst run)))
  | Raise e =>
      fst (fst run) = Propagated e
      /\ occurrences is_cap_open (snd (fst run)) = 1%nat
      /\ occurrences is_cap_release (snd (fst run)) = 0%nat
      /\ occurrences is_writer_release (snd (fst run)) = 0%nat
  end.
Proof.
  intros Hsetup Hopen Hc Hw Hbody run. subst run. unfold run_with_setup.
  rewrite Hsetup. destruct outcome as [[]|e]; [|cbn [fst snd]; auto].
  destruct (try_finally_released body save p' Hbody) as [Hrel Hend].
  destruct (try_finally body save p') as [[r tr] p''].
  cbn [fst snd] in *. split; [exact Hend|].
  intros Hr. destruct (Hrel Hr) as [H1 H2]. unfold released_once.
  rewrite !occurrences_app, H1, H2, Hc, Hw. split; reflexivity.
Qed.

(** C7, as the code has it.  A run of [run_webcam] or [run_video] whose
    set-up completes has, once it has ended (by the quit key, by
    [cap.read()] failing at the end of the stream or on a capture
    failure, or by an exception raised inside the loop, paused or not),
    released the capture exactly once and the writer exactly once when
    one was attached; and a quit key in the script ends the run.  A run
    whose set-up raises, after the capture has opened and before the
    [try] block, propagates the exception and releases nothing.  A run
    whose capture does not open returns at once, with nothing opened. *)
Theorem resources_released_once
  (app : FaceDetectionApp) (c : Clock) (save_output : bool)
  (fault : option (setup_stage * exn)) (script : list tick) :
  (forall frames,
     let run := run_webcam app c (Some frames) save_output fault script in
     match setup_outcome (webcam_stages save_output) fault with
     | Ok _ =>
         (Exists quits script -> fst (fst run) <> Running)
         /\ (fst (fst run) <> Running ->
             released_once save_output (snd (fst run)))
     | Raise e =>
         fst (fst run) = Propagated e
         /\ occurrences is_cap_open (snd (fst run)) = 1%nat
         /\ occurrences is_cap_release (snd (fst run)) = 0%nat
         /\ occurrences is_writer_release (snd (fst run)) = 0%nat
     end)
  /\
  (forall v,
     let run := run_video app c (Some v) save_output fault script in
     match setup_outcome (video_stages save_output) fault with
     | Ok _ =>
         (Exists quits script -> fst (fst run) <> Running)
         /\ (fst (fst run) <> Running ->
             released_once save_output (snd (fst run)))
     | Raise e =>
         fst (fst run) = Propagated e
         /\ occurrences is_cap_open (snd (fst run)) = 1%nat
         /\ occurrences is_cap_release (snd (fst run)) = 0%nat
         /\ occurrences is_writer_release (snd (fst run)) = 0%nat
     end)
  /\ fst (run_webcam app c None save_output fault script) = (Returned, [])
  /\ fst (run_video app c None save_output fault script) = (Returned, []).
Proof.
  split; [|split; [|split; reflexivity]].
  - intros frames run. subst run. unfold run_webcam.
    destruct (webcam_setup_cases save_output fault (set_cap frames (start app c)))
      as (pre & p' & Hsetup & _ & Hopen & Hc & Hw & _).
    pose proof (run_with_setup_released _
                  (loop (webcam_iteration save_output) script) save_output
                  _ _ _ _ Hsetup Hopen Hc Hw) as H.
    cbv zeta in H.
    destruct (setup_outcome (webcam_stages save_output) fault) as [[]|e].
    + destruct H as [Hend Hrel].
      { intros kind Hk. apply silent_loop. intros t.
        apply silent_webcam_iteration, Hk. }
      split; [|exact Hrel]. intros Hq. apply Hend.
      apply loop_quit_ends; [apply webcam_iteration_quit | exact Hq].
    + apply H. intros kind Hk. apply silent_loop. intros t.
      apply silent_webcam_iteration, Hk.
  - intros v run. subst run. unfold run_video.
    destruct (video_setup_cases save_output fault (set_cap (v_frames v) (start app c)))
      as (pre & Hsetup & _ & Hopen & Hc & Hw).
    pose proof (run_with_setup_released _
                  (loop (video_iteration v save_output) script) save_output
                  _ _ _ _ Hsetup Hopen Hc Hw) as H.
    cbv zeta in H.
    destruct (setup_outcome (video_stages save_output) fault) as [[]|e].
    + destruct H as [Hend Hrel].
      { intros kind Hk. apply silent_loop. intros t.
        apply silent_video_iteration, Hk. }
      split; [|exact Hrel]. intros Hq. apply Hend.
      apply loop_quit_ends; [apply video_iteration_quit | exact Hq].
    + apply H. intros kind Hk. apply silent_loop. intros t.
      apply silent_video_iteration, Hk.
Qed.

End LoopProperties.

(** ** Data-URI prefixes *)

Section PayloadProperties.
Import app.

Lemma str_split_nonempty c s : str_split c s <> [].
Proof.
  destruct s as [|a s]; cbn; [discriminate|].
  destruct (Ascii.eqb a c); [discriminate|].
  destruct (str_split c s); discriminate.
Qed.

Lemma str_split_head c s : exists rest, str_split c s = str_until c s :: rest.
Proof.
  induction s as [|a s [rest IH]]; cbn; [eauto|].
  destruct (Ascii.eqb a c); [eauto|]. rewrite IH. eauto.
Qed.

Lemma append_empty (s : string) : ("" ++ s)%string = s.
Proof. reflexivity. Qed.

Lemma append_String a (s s' : string) :
  (String a s ++ s')%string = String a (s ++ s')%string.
Proof. reflexivity. Qed.

Lemma str_split_prefix c pre rest :
  str_contains c pre = false ->
  str_split c (pre ++ String c rest) = pre :: str_split c rest.
Proof.
  induction pre as [|a pre IH]; intros H.
  - rewrite append_empty. cbn. rewrite Ascii.eqb_refl. reflexivity.
  - rewrite append_String. cbn in *.
    destruct (Ascii.eqb a c); [discriminate|]. rewrite (IH H). reflexivity.
Qed.

Lemma str_contains_prefix c pre rest :
  str_contains c (pre ++ String c rest) = true.
Proof.
  induction pre as [|a pre IH].
  - rewrite append_empty. cbn. rewrite Ascii.eqb_refl. reflexivity.
  - rewrite append_String. cbn.
    destruct (Ascii.eqb a c); [reflexivity | exact IH].
Qed.

Lemma str_until_no_sep c s : str_contains c s = false -> str_until c s = s.
Proof.
  induction s as [|a s IH]; cbn; [reflexivity|].
  destruct (Ascii.eqb a c); [discriminate|]. intros H. rewrite (IH H). reflexivity.
Qed.

Lemma str_contains_until c s : str_contains c (str_until c s) = false.
Proof.
  induction s as [|a s IH]; cbn; [reflexivity|].
  destruct (Ascii.eqb a c) eqn:E; [reflexivity|]. cbn. rewrite E. exact IH.
Qed.

Lemma strip_data_uri_no_comma s :
  str_contains comma s = false -> strip_data_uri s = Ok s.
Proof. intros H. unfold strip_data_uri. rewrite H. reflexivity. Qed.

Lemma strip_data_uri_comma pre rest :
  str_contains comma pre = false ->
  strip_data_uri (pre ++ String comma rest) = Ok (str_until comma rest).
Proof.
  intros H. unfold strip_data_uri.
  rewrite str_contains_prefix, (str_split_prefix _ _ _ H).
  destruct (str_split_head comma rest) as [tl ->]. reflexivity.
Qed.

(** Against C9 as worded: on a payload with two commas the handlers keep
    the text between them, not the remainder after the first. *)
Lemma strip_data_uri_second_comma :
  strip_data_uri "data:image/png;base64,AAAA,BBBB" = Ok "AAAA"%string
  /\ strip_data_uri_spec "data:image/png;base64,AAAA,BBBB" = "AAAA,BBBB"%string.
Proof. split; reflexivity. Qed.

Context {Image D : Type} `{!Runtime Image} `{!FaceDetector Image D}.

Lemma decode_frame_stripped payload payload' :
  strip_data_uri payload = Ok payload' ->
  decode_frame (JStr payload) = res_bind (b64decode payload') imdecode.
Proof. intros H. unfold decode_frame. rewrite H. reflexivity. Qed.

Lemma detect_base64_stripped payload payload' scale_factor min_neighbors :
  strip_data_uri payload = Ok payload' ->
  strip_data_uri payload' = Ok payload' ->
  detect_base64 payload scale_factor min_neighbors
  = detect_base64 payload' scale_factor min_neighbors.
Proof. intros H H'. unfold detect_base64. rewrite H, H'. reflexivity. Qed.

(** C9, as the code has it.  A payload without a comma is base64-decoded
    whole and unchanged.  A payload [pre,rest] whose prefix [pre] holds no
    comma loses the prefix and the comma, and what is base64-decoded is
    [rest] up to its own first comma: all of [rest] when it holds none.
    This is so in the websocket handler and in the base64 endpoint. *)
Theorem data_uri_prefix_stripped (pre rest : string)
  (scale_factor : Q) (min_neighbors : Z) :
  str_contains comma pre = false ->
  let payload := (pre ++ String comma rest)%string in
  let kept := str_until comma rest in
  strip_data_uri pre = Ok pre
  /\ decode_frame (JStr pre) = res_bind (b64decode pre) imdecode
  /\ strip_data_uri payload = Ok kept
  /\ decode_frame (JStr payload) = res_bind (b64decode kept) imdecode
  /\ detect_base64 payload scale_factor min_neighbors
     = detect_base64 kept scale_factor min_neighbors
  /\ (str_contains comma rest = false -> kept = rest).
Proof.
  intros Hpre payload kept.
  pose proof (strip_data_uri_no_comma _ Hpre) as H1.
  pose proof (strip_data_uri_comma _ rest Hpre) as H2.
  pose proof (strip_data_uri_no_comma _ (str_contains_until comma rest)) as H3.
  split; [exact H1|].
  split; [apply decode_frame_stripped, H1|].
  split; [exact H2|].
  split; [apply decode_frame_stripped, H2|].
  split; [apply detect_base64_stripped; assumption|].
  apply str_until_no_sep.
Qed.

End PayloadProperties.

(** ** The websocket handler *)

Section HandlerProperties.
Import app.
Context {Image D : Type} `{!Runtime Image} `{!FaceDetector Image D}.

Implicit Types (data : gmap string json) (s : Session) (w : World (D := D)).

(** The handling of one message, case by case. *)
Lemma handle_message_cases data s w :
  handle_message data s w =
  match update_parameters data s with
  | Raise e => (Raise e, [], w)
  | Ok s' =>
      match data !! "frame"%string with
      | None => (Ok s', [], w)
      | Some frame_data =>
          match decode_frame frame_data with
          | Raise e => (Raise e, [], w)
          | Ok None => (Ok s', [], w)
          | Ok (Some image) => detect_and_send image s' w
          end
      end
  end.
Proof.
  unfold handle_message, App.
  destruct (update_parameters data s) as [s'|e]; [|reflexivity].
  rewrite bind_lift_ok.
  destruct (data !! "frame"%string) as [frame_data|]; [|reflexivity].
  destruct (decode_frame frame_data) as [[image|]|e]; [| |reflexivity].
  - rewrite bind_lift_ok. reflexivity.
  - rewrite bind_lift_ok. reflexivity.
Qed.

(** The effects of "update and detect", in order: the detector is given
    the session's parameters, the detection runs on the detector this
    leaves, and the result is sent. *)
Lemma detect_and_send_cases (image : Image) s w :
  detect_and_send image s w =
  let set := CallSetParams (scale_factor s) (min_neighbors s) in
  let c := clock w in
  let '(r, d) :=
    set_detection_params (scale_factor s) (min_neighbors s) (detector w) in
  match r with
  | Raise e => (Raise e, [set], mkWorld d c)
  | Ok _ =>
      match detect_faces image d with
      | Raise e =>
          (Raise e, [set; CallDetect image d],
           mkWorld d (mkClock (readings c) (S (pos c))))
      | Ok faces =>
          (Ok s,
           [set; CallDetect image d;
            SendJson (mkDetection (Z.of_nat (length faces)) faces
                        (py_round2 (elapsed_ms (readings c (pos c))
                                               (readings c (S (pos c))))))],
           mkWorld d (mkClock (readings c) (S (S (pos c)))))
      end
  end.
Proof.
  unfold detect_and_send, call_set_detection_params, call_detect_faces, now.
  unfold mbind, SE_bind, mret, SE_ret, get, emit, lift, time_time.
  cbn [detector clock].
  destruct (set_detection_params _ _ (detector w)) as [[[]|e] d]; cbn;
    [|reflexivity].
  destruct (detect_faces image d) as [faces|e]; reflexivity.
Qed.


Lemma turn_message data s w :
  turn (Message data) s w =
  match handle_message data s w with
  | (Ok s', tr, w') => (Open s', tr, w')
  | (Raise e, tr, w') => (Closed e, tr, w')
  end.
Proof. unfold turn, receive_json, App. rewrite bind_ret. reflexivity. Qed.

(** *** Parameter updates *)


(** *** Update, then detect *)

Lemma update_parameters_values data s s' :
  update_parameters data s = Ok s' ->
  (forall v x, data !! "scale_factor"%string = Some v -> py_float v = Ok x ->
     scale_factor s' = x)
  /\ (forall u n, data !! "min_neighbors"%string = Some u -> py_int u = Ok n ->
        min_neighbors s' = n)
  /\ (data !! "scale_factor"%string = None -> scale_factor s' = scale_factor s)
  /\ (data !! "min_neighbors"%string = None -> min_neighbors s' = min_neighbors s).
Proof.
  unfold update_parameters.
  destruct (data !! "scale_factor"%string) as [v|];
    [destruct (py_float v) as [x|] eqn:Ev|];
    (destruct (data !! "min_neighbors"%string) as [u|];
     [destruct (py_int u) as [n|] eqn:Eu|]); cbn; intros [= <-];
    (split; [|split; [|split]]); cbn;
    first [ intros ? ? H1 H2; congruence
          | intros H; first [reflexivity | discriminate H] ].
Qed.

(** A turn that leaves the connection open was the turn of a message,
    and the session it leaves is the one the message's update gives. *)
Lemma turn_open i s w s1 tr1 w1 :
  turn i s w = (Open s1, tr1, w1) ->
  exists data, i = Message data /\ update_parameters data s = Ok s1.
Proof.
  destruct i as [data| |];
    [|unfold turn, receive_json, app.App; rewrite bind_raise; discriminate..].
  rewrite turn_message, handle_message_cases. intros H. exists data.
  split; [reflexivity|].
  destruct (update_parameters data s) as [s'|e]; [|discriminate].
  destruct (data !! "frame"%string) as [frame_data|]; [|congruence].
  destruct (decode_frame frame_data) as [[image|]|e]; [|congruence|discriminate].
  rewrite detect_and_send_cases in H. cbv zeta in H.
  destruct (set_detection_params _ _ (detector w)) as [[[]|e] d]; [|discriminate].
  destruct (detect_faces image d) as [found|e]; [congruence | discriminate].
Qed.

(** While the connection stays open, a parameter no message carries
    keeps the value the session holds. *)
Lemma websocket_loop_keeps (script : list inbound) s w s1 tr1 w1 :
  websocket_loop script s w = (Open s1, tr1, w1) ->
  (Forall (omits "scale_factor") script -> scale_factor s1 = scale_factor s)
  /\ (Forall (omits "min_neighbors") script -> min_neighbors s1 = min_neighbors s).
Proof.
  revert s w tr1 w1. induction script as [|i script IH]; intros s w tr1 w1.
  { cbn. intros [= <- _ _]. split; reflexivity. }
  cbn [websocket_loop].
  destruct (turn i s w) as [[[s2|e] tr2] w2] eqn:Ht; [|discriminate].
  destruct (websocket_loop script s2 w2) as [[c tr3] w3] eqn:Hl.
  intros [= -> _ _].
  destruct (turn_open _ _ _ _ _ _ Ht) as (data & -> & Hup).
  destruct (update_parameters_values _ _ _ Hup) as (_ & _ & Hsf & Hmn).
  destruct (IH _ _ _ _ Hl) as [IHsf IHmn].
  split; intros Hall; inversion Hall as [|? ? Hi Hrest]; subst.
  - rewrite (IHsf Hrest). apply Hsf, Hi.
  - rewrite (IHmn Hrest). apply Hmn, Hi.
Qed.

(** The handler on a script with one more message at its end. *)
Lemma websocket_loop_snoc (script : list inbound) i s w s1 tr1 w1 :
  websocket_loop script s w = (Open s1, tr1, w1) ->
  websocket_loop (script ++ [i]) s w
  = (let '(c, tr2, w2) := turn i s1 w1 in (c, tr1 ++ tr2, w2)).
Proof.
  revert s w tr1. induction script as [|j script IH]; intros s w tr1.
  { cbn [websocket_loop app]. intros [= <- <- <-].
    destruct (turn i s w) as [[[s2|e] tr2] w2]; rewrite ?app_nil_r; reflexivity. }
  cbn [websocket_loop app].
  destruct (turn j s w) as [[[s2|e] tr2] w2]; [|discriminate].
  destruct (websocket_loop script s2 w2) as [[c tr3] w3] eqn:Hl.
  intros [= -> <- ->]. rewrite (IH _ _ _ Hl).
  destruct (turn i s1 w1) as [[c' tr4] w4]. rewrite app_assoc. reflexivity.
Qed.

(** The turn of a message whose frame decodes: the detector is given the
    updated parameters, the detection runs on the detector this leaves,
    and its result is sent. *)
Lemma turn_detects data s s' (frame_data : json) (image : Image) w :
  update_parameters data s = Ok s' ->
  data !! "frame"%string = Some frame_data ->
  decode_frame frame_data = Ok (Some image) ->
  turn (Message data) s w
  = (let set := CallSetParams (scale_factor s') (min_neighbors s') in
     let c := clock w in
     let '(r, d) :=
       set_detection_params (scale_factor s') (min_neighbors s') (detector w) in
     match r with
     | Raise e => (Closed e, [set], mkWorld d c)
     | Ok _ =>
         match detect_faces image d with
         | Raise e =>
             (Closed e, [set; CallDetect image d],
              mkWorld d (mkClock (readings c) (S (pos c))))
         | Ok faces =>
             (Open s',
              [set; CallDetect image d;
               SendJson (mkDetection (Z.of_nat (length faces)) faces
                           (py_round2 (elapsed_ms (readings c (pos c))
                                                  (readings c (S (pos c))))))],
              mkWorld d (mkClock (readings c) (S (S (pos c)))))
         end
     end).
Proof.
  intros Hup Hframe Hdec.
  rewrite turn_message, handle_message_cases, Hup, Hframe, Hdec,
    detect_and_send_cases.
  cbv zeta.
  destruct (set_detection_params _ _ (detector w)) as [[[]|e] d]; [|reflexivity].
  destruct (detect_faces image d) as [faces|e]; reflexivity.
Qed.

(** C4.  When a message carries parameter keys and a frame that decodes
    to an image, the session's parameters are updated first, to the
    values of the message; the detector is then given the updated
    parameters, the detection of this frame runs on the detector that
    call has left, and its faces are sent (an exception of either call
    ends the handler).  The session keeps the values: after any further
    messages that leave the connection open, a message with a frame is
    detected in the same way with the parameters of the session then,
    which for a parameter that none of these messages carries is still
    the value this message applied. *)
Theorem update_then_detect data s s' (frame_data : json) (image : Image) w :
  update_parameters data s = Ok s' ->
  data !! "frame"%string = Some frame_data ->
  decode_frame frame_data = Ok (Some image) ->
  let round := fun (image : Image) (s : Session) (w : World (D := D)) =>
    let set := CallSetParams (scale_factor s) (min_neighbors s) in
    let c := clock w in
    let '(r, d) :=
      set_detection_params (scale_factor s) (min_neighbors s) (detector w) in
    match r with
    | Raise e => (Closed e, [set], mkWorld d c)
    | Ok _ =>
        match detect_faces image d with
        | Raise e =>
            (Closed e, [set; CallDetect image d],
             mkWorld d (mkClock (readings c) (S (pos c))))
        | Ok faces =>
            (Open s,
             [set; CallDetect image d;
              SendJson (mkDetection (Z.of_nat (length faces)) faces
                          (py_round2 (elapsed_ms (readings c (pos c))
                                                 (readings c (S (pos c))))))],
             mkWorld d (mkClock (readings c) (S (S (pos c)))))
        end
    end in
  (forall v x, data !! "scale_factor"%string = Some v -> py_float v = Ok x ->
     scale_factor s' = x)
  /\ (forall u n, data !! "min_neighbors"%string = Some u -> py_int u = Ok n ->
        min_neighbors s' = n)
  /\ turn (Message data) s w = round image s' w
  /\ (forall (later : list inbound) s2 tr2 w2 data' s3
             (frame_data' : json) (image' : Image),
        websocket_loop (Message data :: later) s w = (Open s2, tr2, w2) ->
        update_parameters data' s2 = Ok s3 ->
        data' !! "frame"%string = Some frame_data' ->
        decode_frame frame_data' = Ok (Some image') ->
        websocket_loop (Message data :: later ++ [Message data']) s w
        = (let '(c, tr3, w3) := round image' s3 w2 in (c, tr2 ++ tr3, w3))
        /\ (Forall (omits "scale_factor") (later ++ [Message data']) ->
            scale_factor s3 = scale_factor s')
        /\ (Forall (omits "min_neighbors") (later ++ [Message data']) ->
            min_neighbors s3 = min_neighbors s')).
Proof.
  intros Hup Hframe Hdec round.
  destruct (update_parameters_values _ _ _ Hup) as (Hsf & Hmn & _ & _).
  split; [exact Hsf|]. split; [exact Hmn|].
  split; [exact (turn_detects _ _ _ _ _ w Hup Hframe Hdec)|].
  intros later s2 tr2 w2 data' s3 frame_data' image' Hloop Hup' Hframe' Hdec'.
  split.
  - change (Message data :: later ++ [Message data'])
      with ((Message data :: later) ++ [Message data']).
    rewrite (websocket_loop_snoc _ (Message data') _ _ _ _ _ Hloop).
    rewrite (turn_detects _ _ _ _ _ w2 Hup' Hframe' Hdec'). reflexivity.
  - cbn [websocket_loop] in Hloop.
    destruct (turn (Message data) s w) as [[[s1|e] tr1] w1] eqn:Ht; [|discriminate].
    destruct (turn_open _ _ _ _ _ _ Ht) as (data0 & [= <-] & Hup0).
    assert (s1 = s') by congruence. subst s1.
    destruct (websocket_loop later s' w1) as [[c tr3] w3] eqn:Hl.
    injection Hloop as -> _ _.
    destruct (websocket_loop_keeps _ _ _ _ _ _ Hl) as [Ksf Kmn].
    destruct (update_parameters_values _ _ _ Hup') as (_ & _ & Usf & Umn).
    split; intros Hall; apply Forall_app in Hall as [Hl1 Hl2];
      inversion Hl2 as [|? ? Hd _]; subst.
    + rewrite (Usf Hd). apply Ksf, Hl1.
    + rewrite (Umn Hd). apply Kmn, Hl1.
Qed.

(** *** Malformed frames *)

(** C2, as the code has it.  A frame payload that is decoded but is not an
    image gets no response at all: nothing is sent, the session stays open
    and goes on with the next message.  A frame payload on which decoding
    raises (invalid base64 among others) gets no response either, and the
    exception ends the handler: the messages after it are not read. *)
Theorem malformed_frame data s s' (frame_data : json) w (rest : list inbound) :
  update_parameters data s = Ok s' ->
  data !! "frame"%string = Some frame_data ->
  (decode_frame frame_data = Ok None ->
   turn (Message data) s w = (Open s', [], w)
   /\ websocket_loop (Message data :: rest) s w = websocket_loop rest s' w)
  /\ (forall e, decode_frame frame_data = Raise e ->
      websocket_loop (Message data :: rest) s w = (Closed e, [], w)).
Proof.
  intros Hup Hframe. split.
  - intros Hdec.
    assert (Hturn : turn (Message data) s w = (Open s', [], w)).
    { rewrite turn_message, handle_message_cases, Hup, Hframe, Hdec. reflexivity. }
    split; [exact Hturn|].
    cbn [websocket_loop]. rewrite Hturn.
    destruct (websocket_loop rest s' w) as [[c tr] w']. reflexivity.
  - intros e Hdec. cbn [websocket_loop].
    rewrite turn_message, handle_message_cases, Hup, Hframe, Hdec. reflexivity.
Qed.

End HandlerProperties.

(** ** Concurrent sessions on the detector of the specification *)

Section Isolation.
Import app.
Context {Image : Type} `{!Runtime Image}.
Context (classify : Image -> detector.FaceDetector -> list Rect).
Context (annotate : Image -> list Rect -> Image).

#[local] Instance spec_api : FaceDetector Image detector.FaceDetector :=
  detector.api classify annotate.

Local Abbreviation App := (App (Image := Image) (D := detector.FaceDetector)).
Local Abbreviation World := (World (D := detector.FaceDetector)).
Local Abbreviation Server := (Server (Image := Image) (D := detector.FaceDetector)).
Local Abbreviation effect := (effect (Image := Image) (D := detector.FaceDetector)).
Local Abbreviation sizes := detector.sizes.
Local Abbreviation keeps_sizes := (detector.keeps_sizes (Image := Image)).
Local Abbreviation same_for := (detector.same_for (Image := Image)).

Lemma set_detection_params_sizes x n d :
  sizes (snd (detector.set_detection_params x n d)) = sizes d.
Proof.
  unfold detector.set_detection_params, detector.update.
  destruct (detector.validate _); reflexivity.
Qed.

(** Whether the update is accepted, and the detector it leaves when it
    is, depend on the old detector through its size bounds only. *)
Lemma set_detection_params_sim x n d d' :
  sizes d = sizes d' ->
  fst (detector.set_detection_params x n d)
    = fst (detector.set_detection_params x n d')
  /\ (fst (detector.set_detection_params x n d) = Ok tt ->
      snd (detector.set_detection_params x n d)
        = snd (detector.set_detection_params x n d')).
Proof.
  unfold sizes. intros [= Hmin Hmax].
  unfold detector.set_detection_params, detector.update. cbn [default].
  rewrite Hmin, Hmax.
  destruct (detector.validate _); cbn; split; auto; discriminate.
Qed.

Lemma keeps_sizes_ret {A} (a : A) : keeps_sizes (mret a).
Proof. intros w. reflexivity. Qed.

Lemma keeps_sizes_lift {A} (r : res A) : keeps_sizes (lift r).
Proof. intros w. reflexivity. Qed.

Lemma keeps_sizes_raise {A} (e : exn) : keeps_sizes (raise e : App A).
Proof. intros w. reflexivity. Qed.

Lemma keeps_sizes_get : keeps_sizes get.
Proof. intros w. reflexivity. Qed.

Lemma keeps_sizes_emit e : keeps_sizes (emit e).
Proof. intros w. reflexivity. Qed.

Lemma keeps_sizes_now : keeps_sizes now.
Proof. intros w. reflexivity. Qed.

Lemma keeps_sizes_bind {A B} (m : App A) (k : A -> App B) :
  keeps_sizes m -> (forall a, keeps_sizes (k a)) -> keeps_sizes (m ≫= k).
Proof.
  intros Hm Hk w. specialize (Hm w). unfold mbind, SE_bind.
  destruct (m w) as [[[a|e] tr] w']; cbn [snd] in *; [|exact Hm].
  specialize (Hk a w'). destruct (k a w') as [[r tr'] w''].
  cbn [snd] in *. congruence.
Qed.

Lemma keeps_sizes_try_except {A} (body : App A) handler :
  keeps_sizes body -> (forall e, keeps_sizes (handler e)) ->
  keeps_sizes (try_except body handler).
Proof.
  intros Hb Hh w. specialize (Hb w). unfold try_except.
  destruct (body w) as [[[a|e] tr] w']; cbn [snd] in *; [exact Hb|].
  destruct (is_Exception e); [|exact Hb].
  specialize (Hh e w'). destruct (handler e w') as [[r tr'] w''].
  cbn [snd] in *. congruence.
Qed.

Lemma keeps_sizes_set x n : keeps_sizes (call_set_detection_params x n).
Proof.
  intros w. unfold call_set_detection_params.
  pose proof (set_detection_params_sizes x n (detector w)) as H.
  cbn [set_detection_params spec_api detector.api].
  destruct (detector.set_detection_params x n (detector w)) as [r d].
  exact H.
Qed.


Ltac keeps_sizes_step :=
  first
    [ apply keeps_sizes_ret
    | apply keeps_sizes_lift
    | apply keeps_sizes_raise
    | apply keeps_sizes_get
    | apply keeps_sizes_emit
    | apply keeps_sizes_now
    | apply keeps_sizes_set
    | apply keeps_sizes_bind; [|intros ?] ].

Lemma keeps_sizes_detect_faces image : keeps_sizes (call_detect_faces image).
Proof. unfold call_detect_faces. repeat keeps_sizes_step. Qed.

Lemma keeps_sizes_process_frame image : keeps_sizes (call_process_frame image).
Proof. unfold call_process_frame. repeat keeps_sizes_step. Qed.

Lemma keeps_sizes_detect_and_send image s : keeps_sizes (detect_and_send image s).
Proof.
  unfold detect_and_send.
  repeat first [apply keeps_sizes_detect_faces | keeps_sizes_step].
Qed.

Lemma keeps_sizes_handle_message data s : keeps_sizes (handle_message data s).
Proof.
  unfold handle_message. keeps_sizes_step; [keeps_sizes_step|].
  destruct (data !! "frame"%string); [|keeps_sizes_step].
  keeps_sizes_step; [keeps_sizes_step|].
  destruct a0; [apply keeps_sizes_detect_and_send | keeps_sizes_step].
Qed.

Lemma keeps_sizes_detect_base64 image_data x n :
  keeps_sizes (detect_base64 image_data x n).
Proof.
  unfold detect_base64. apply keeps_sizes_try_except; [|intros e; keeps_sizes_step].
  do 3 (keeps_sizes_step; [keeps_sizes_step|]).
  destruct a1; repeat first [apply keeps_sizes_detect_faces | keeps_sizes_step].
Qed.

Lemma keeps_sizes_detect_image contents x n :
  keeps_sizes (detect_image contents x n).
Proof.
  unfold detect_image. apply keeps_sizes_try_except; [|intros e; keeps_sizes_step].
  keeps_sizes_step; [keeps_sizes_step|].
  destruct a; [|keeps_sizes_step].
  do 2 (keeps_sizes_step; [keeps_sizes_step|]).
  keeps_sizes_step; [apply keeps_sizes_process_frame|].
  destruct a1 as [processed faces]. repeat keeps_sizes_step.
Qed.

Lemma turn_sizes i s (w : World) :
  sizes (detector (snd (turn i s w))) = sizes (detector w).
Proof.
  destruct i; [|reflexivity|reflexivity].
  rewrite turn_message.
  pose proof (keeps_sizes_handle_message data s w) as H.
  destruct (handle_message data s w) as [[[s'|e] tr] w']; exact H.
Qed.

(** What a session does with a frame depends on the shared detector
    through its size bounds only: the session's own parameters are set
    before the detection runs. *)
Lemma detect_and_send_sim image s (w w' : World) :
  sizes (detector w) = sizes (detector w') ->
  fst (fst (detect_and_send image s w)) = fst (fst (detect_and_send image s w'))
  /\ List.map erase_time (snd (fst (detect_and_send image s w)))
     = List.map erase_time (snd (fst (detect_and_send image s w'))).
Proof.
  intros H. rewrite !detect_and_send_cases. cbv zeta.
  cbn [set_detection_params detect_faces spec_api detector.api].
  destruct (set_detection_params_sim (scale_factor s) (min_neighbors s) _ _ H)
    as [H1 H2].
  destruct (detector.set_detection_params _ _ (detector w)) as [r d].
  destruct (detector.set_detection_params _ _ (detector w')) as [r' d'].
  cbn [fst snd] in *. subst r'. destruct r as [[]|e].
  - rewrite <- (H2 eq_refl). split; reflexivity.
  - split; reflexivity.
Qed.

Lemma turn_sim i s (w w' : World) :
  sizes (detector w) = sizes (detector w') ->
  fst (fst (turn i s w)) = fst (fst (turn i s w'))
  /\ List.map erase_time (snd (fst (turn i s w)))
     = List.map erase_time (snd (fst (turn i s w'))).
Proof.
  intros H. destruct i; [|split; reflexivity|split; reflexivity].
  rewrite !turn_message, !handle_message_cases.
  destruct (update_parameters data s) as [s'|e]; [|split; reflexivity].
  destruct (data !! "frame"%string) as [fd|]; [|split; reflexivity].
  destruct (decode_frame fd) as [[image|]|e]; try (split; reflexivity).
  destruct (detect_and_send_sim image s' w w' H) as [H1 H2].
  destruct (detect_and_send image s' w) as [[[s1|e1] tr1] w1];
    destruct (detect_and_send image s' w') as [[[s2|e2] tr2] w2];
    cbn [fst snd] in *; try discriminate; inversion H1; subst; split;
    [reflexivity | exact H2 | reflexivity | exact H2].
Qed.

Lemma trace_of_app c (l l' : list (option nat * effect)) :
  trace_of c (l ++ l') = trace_of c l ++ trace_of c l'.
Proof. unfold trace_of. apply omap_app. Qed.

Lemma trace_of_other c who (tr : list effect) :
  who <> Some c -> trace_of c (tagged who tr) = [].
Proof.
  intros Hne. induction tr as [|e tr IH]; [reflexivity|].
  unfold trace_of, tagged in *. cbn. rewrite IH.
  destruct who as [c'|]; [|reflexivity].
  destruct (Nat.eqb_spec c c'); [congruence | reflexivity].
Qed.

Lemma trace_of_own c (tr : list effect) :
  trace_of c (tagged (Some c) tr) = List.map erase_time tr.
Proof.
  induction tr as [|e tr IH]; [reflexivity|].
  unfold trace_of, tagged in *. cbn. rewrite IH, Nat.eqb_refl. reflexivity.
Qed.

Lemma serve_own c r (sv sv' : Server) :
  own c r = true -> same_for c sv sv' -> same_for c (serve r sv) (serve r sv').
Proof.
  intros Hown (Hsz & Hconn & Hlog). destruct r as [c'|c' i| |]; try discriminate;
    cbn [own] in Hown; apply Nat.eqb_eq in Hown; subst c'; cbn [serve];
    rewrite <- Hconn.
  - destruct (connections sv !! c) eqn:E.
    + split; [assumption|]. split; [congruence|]. assumption.
    + split; [assumption|]. split; [|assumption].
      cbn [connections]. rewrite !lookup_insert_eq. reflexivity.
  - destruct (connections sv !! c) as [[s|e]|] eqn:E;
      try (split; [assumption|]; split; [congruence|assumption]).
    pose proof (turn_sim i s _ _ Hsz) as [H1 H2].
    pose proof (turn_sizes i s (world sv)) as S1.
    pose proof (turn_sizes i s (world sv')) as S2.
    destruct (turn i s (world sv)) as [[c1 tr1] w1].
    destruct (turn i s (world sv')) as [[c2 tr2] w2].
    cbn [fst snd] in *. subst c2.
    split; [|split]; cbn [world connections log].
    + congruence.
    + rewrite !lookup_insert_eq. reflexivity.
    + rewrite !trace_of_app, !trace_of_own. congruence.
Qed.

Lemma serve_other c r (sv sv' : Server) :
  own c r = false -> same_for c sv sv' -> same_for c (serve r sv) sv'.
Proof.
  intros Hown (Hsz & Hconn & Hlog). destruct r as [c'|c' i|p x n|b x n];
    cbn [own] in Hown; try apply Nat.eqb_neq in Hown; cbn [serve].
  - destruct (connections sv !! c') eqn:E.
    + split; [assumption|]. split; assumption.
    + split; [assumption|]. split; [|assumption].
      cbn [connections]. rewrite lookup_insert_ne by congruence. assumption.
  - destruct (connections sv !! c') as [[s|e]|] eqn:E;
      try (split; [assumption|]; split; assumption).
    pose proof (turn_sizes i s (world sv)) as S1.
    destruct (turn i s (world sv)) as [[c1 tr1] w1].
    cbn [fst snd] in *.
    split; [|split]; cbn [world connections log].
    + congruence.
    + rewrite lookup_insert_ne by congruence. assumption.
    + rewrite trace_of_app, trace_of_other, app_nil_r by congruence. assumption.
  - pose proof (keeps_sizes_detect_base64 p x n (world sv)) as S1.
    destruct (detect_base64 p x n (world sv)) as [[r tr] w1].
    cbn [snd] in *.
    split; [|split]; cbn [world connections log]; try congruence.
    rewrite trace_of_app, trace_of_other, app_nil_r by congruence. assumption.
  - pose proof (keeps_sizes_detect_image b x n (world sv)) as S1.
    destruct (detect_image b x n (world sv)) as [[r tr] w1].
    cbn [snd] in *.
    split; [|split]; cbn [world connections log]; try congruence.
    rewrite trace_of_app, trace_of_other, app_nil_r by congruence. assumption.
Qed.

Lemma run_same_for c schedule :
  forall sv sv' : Server,
    same_for c sv sv' ->
    same_for c (run schedule sv) (run (List.filter (own c) schedule) sv').
Proof.
  induction schedule as [|r schedule IH]; intros sv sv' H; [exact H|].
  cbn [List.filter]. unfold run in *. cbn [fold_left].
  destruct (own c r) eqn:E.
  - cbn [fold_left]. apply IH, serve_own; assumption.
  - apply IH, serve_other; assumption.
Qed.

(** A detection of a session runs on a detector holding the session's
    own [scale_factor] and [min_neighbors]. *)
Lemma detection_on_session_parameters image s (w : World) image' d :
  In (CallDetect image' d) (snd (fst (detect_and_send image s w))) ->
  detector.scale_factor d = scale_factor s
  /\ detector.min_neighbors d = min_neighbors s.
Proof.
  rewrite detect_and_send_cases. cbv zeta.
  cbn [set_detection_params detect_faces spec_api detector.api].
  unfold detector.set_detection_params, detector.update. cbn [default].
  destruct (detector.validate _) as [[]|e]; cbn [fst snd].
  - intros [H|[H|[H|[]]]]; inversion H; subst. split; reflexivity.
  - intros [H|[]]. discriminate H.
Qed.

(** One turn of another session does not show in the next turn of this
    one. *)
Lemma turn_of_other_session_invisible (a b : nat) (ia ib : inbound) (sv : Server) :
  a <> b ->
  trace_of b (log (serve (Deliver b ib) (serve (Deliver a ia) sv)))
  = trace_of b (log (serve (Deliver b ib) sv)).
Proof.
  intros Hne.
  assert (Hsame : same_for b sv sv) by (split; [|split]; reflexivity).
  apply (serve_other b (Deliver a ia)) in Hsame.
  - apply (serve_own b (Deliver b ib)) in Hsame.
    + destruct Hsame as (_ & _ & H). exact H.
    + cbn. apply Nat.eqb_refl.
  - cbn. apply Nat.eqb_neq. congruence.
Qed.

(** C1.  On the detector of the specification, what a session does and
    sees does not depend on the other sessions (nor on the HTTP
    requests): from any server state and under any schedule, the session
    parameters of connection [c], the parameters it hands to the
    detector, the detector state each of its detections runs on, and the
    faces it is sent are those of the schedule that holds the requests of
    [c] alone. *)
Theorem sessions_isolated (schedule : list request) (sv : Server) (c : nat) :
  connections (run schedule sv) !! c
    = connections (run (List.filter (own c) schedule) sv) !! c
  /\ trace_of c (log (run schedule sv))
     = trace_of c (log (run (List.filter (own c) schedule) sv)).
Proof.
  destruct (run_same_for c schedule sv sv) as (_ & H1 & H2).
  - repeat split.
  - split; assumption.
Qed.

End Isolation.

(** ** The statements at concrete inputs *)

Section Scenarios.
Import face_detector app.

#[local] Existing Instance doubles.runtime.
#[local] Existing Instance doubles.face_detector.
#[local] Existing Instance doubles.cv.

(** *** [face_detector.py] *)

(** C10 at a concrete input: five calls, a tenth of a second apart, all
    within the first window; each returns 0. *)
Lemma fps_zero_during_first_window_witness :
  fst (fst (update_fps_times 5 (fst (__init__ doubles.tenths))
                             (snd (__init__ doubles.tenths))))
  = repeat 0%Q 5.
Proof.
  apply (fps_zero_during_first_window doubles.tenths 5).
  intros k Hk. cbn [doubles.tenths readings pos].
  assert (Hcases : (k = 1 \/ k = 2 \/ k = 3 \/ k = 4 \/ k = 5)%nat) by lia.
  destruct Hcases as [-> | [-> | [-> | [-> | ->]]]]; reflexivity.
Defined.

(** C5 at concrete inputs.  The first call after the construction sees
    a tenth of a second and holds 0; a call that finds nine frames counted
    and reads the clock one second after the window start recomputes to 10
    frames per second and restarts the window at the next reading. *)
Lemma update_fps_window_witness :
  _update_fps doubles.app0 doubles.clock0
  = (0%Q, mkApp (0 # 10) 1 0, mkClock (readings doubles.tenths) 2)
  /\ (let '(fps, app, c) :=
        _update_fps (mkApp (0 # 10) 9 0) (mkClock (readings doubles.tenths) 10) in
      (fps == 10)%Q /\ fps_frame_count app = 0
      /\ fps_start_time app = (11 # 10)%Q /\ current_fps app = fps).
Proof.
  split.
  - apply (proj1 (update_fps_window doubles.app0 doubles.clock0)). reflexivity.
  - rewrite (proj2 (update_fps_window (mkApp (0 # 10) 9 0)
                      (mkClock (readings doubles.tenths) 10)));
      [|discriminate].
    repeat split.
Defined.

(** The eleventh reading is one second after the construction: the call
    that sees it recomputes, 10 frames over 1.0 second. *)
Example fps_recomputed_after_one_second :
  (let '(app, c) := __init__ doubles.tenths in
   let '(_, app, c) := update_fps_times 9 app c in
   fst (fst (_update_fps app c)) == 10)%Q.
Proof. vm_compute. reflexivity. Qed.

(** Pause after the first frame, then quit while paused: the second
    iteration only waits for a key, and the [finally] block releases the
    capture and the writer once each. *)
Example quit_while_paused :
  fst (run_video doubles.app0 doubles.clock0 (Some doubles.clip) true None
         [doubles.key_p; doubles.key_q])
  = (Returned,
     [EvCapOpen; EvWriterOpen;
      EvCapRead true; EvImshow 1%nat; EvWriterWrite 1%nat; EvWaitKey 40;
      EvWaitKey 40;
      EvCapRelease; EvWriterRelease; EvDestroyAllWindows]).
Proof. vm_compute. reflexivity. Qed.

(** An exception raised by the detector on the second frame. *)
Example error_in_the_loop :
  fst (run_video doubles.app0 doubles.clock0 (Some doubles.clip) false None
         [doubles.no_key; mkTick (-1) (Some (AtProcess, CvError))])
  = (Propagated CvError,
     [EvCapOpen;
      EvCapRead true; EvImshow 1%nat; EvWaitKey 40;
      EvCapRead true;
      EvCapRelease; EvDestroyAllWindows]).
Proof. vm_compute. reflexivity. Qed.

(** The output directory cannot be made: [os.makedirs] raises before the
    [try] block of [run_webcam], the exception leaves the function, and
    the capture, which has been opened and configured, is not released.
    In [run_video] a failure of the last set-up line leaves both the
    capture and the writer open. *)
Lemma setup_error_leaks_capture :
  fst (run_webcam doubles.app0 doubles.clock0 (Some [1; 2]%nat) true
         (Some (AtOutputDir, OSError)) [doubles.key_q])
  = (Propagated OSError, [EvCapOpen; EvCapSet 3 640; EvCapSet 4 480])
  /\ occurrences is_cap_release
       (snd (fst (run_webcam doubles.app0 doubles.clock0 (Some [1; 2]%nat) true
                    (Some (AtOutputDir, OSError)) [doubles.key_q]))) = 0%nat
  /\ fst (run_video doubles.app0 doubles.clock0 (Some doubles.clip) true
            (Some (AtDelay, OverflowError)) [doubles.key_q])
     = (Propagated OverflowError, [EvCapOpen; EvWriterOpen]).
Proof. vm_compute. repeat split. Qed.

(** C7 on a video quit while paused (with a writer), on a webcam whose
    capture fails at the third read (without one), and on a webcam whose
    output directory cannot be made. *)
Lemma resources_released_once_witness :
  released_once true
    (snd (fst (run_video doubles.app0 doubles.clock0 (Some doubles.clip) true None
                 [doubles.key_p; doubles.key_q])))
  /\ released_once false
       (snd (fst (run_webcam doubles.app0 doubles.clock0 (Some [1; 2]%nat) false
                    None [doubles.no_key; doubles.no_key; doubles.no_key])))
  /\ occurrences is_cap_release
       (snd (fst (run_webcam doubles.app0 doubles.clock0 (Some [1; 2]%nat) true
                    (Some (AtOutputDir, OSError)) [doubles.key_q]))) = 0%nat.
Proof.
  split; [|split].
  - apply (resources_released_once doubles.app0 doubles.clock0 true None
             [doubles.key_p; doubles.key_q]).
    vm_compute. discriminate.
  - apply (resources_released_once doubles.app0 doubles.clock0 false None
             [doubles.no_key; doubles.no_key; doubles.no_key]).
    vm_compute. discriminate.
  - apply (proj1 (resources_released_once doubles.app0 doubles.clock0 true
                    (Some (AtOutputDir, OSError)) [doubles.key_q])
             [1; 2]%nat).
Defined.

(** C8 on a paused state after the first of three frames. *)
Lemma paused_iteration_does_not_poll_witness :
  occurrences is_cap_read
    (snd (fst (video_iteration doubles.clip false doubles.no_key doubles.paused_state))) = 0%nat
  /\ cap (snd (video_iteration doubles.clip false doubles.no_key doubles.paused_state)) = [2; 3]%nat
  /\ frame_count (snd (video_iteration doubles.clip false doubles.no_key doubles.paused_state)) = 1.
Proof.
  apply (paused_iteration_does_not_poll doubles.clip false doubles.no_key doubles.paused_state).
  reflexivity.
Defined.

(** *** [app.py] *)

(** Against C2 as worded: a frame that is not an image is passed over in
    silence, and a frame that is not base64 ends the session before the
    next message is read; in neither case is an error response sent. *)
Lemma malformed_frame_unanswered :
  websocket_detect [Message (doubles.frame_only "AAAA")] doubles.world
  = (Open default_session, [], doubles.world)
  /\ websocket_detect
       [Message (doubles.frame_only "not-base64-or-not-an-image");
        Message (doubles.frame_only doubles.face_jpeg)]
       doubles.world
     = (Closed BinasciiError, [], doubles.world).
Proof. split; vm_compute; reflexivity. Qed.

(** C2, as the code has it, on the same two payloads. *)
Lemma malformed_frame_witness :
  (turn (Message (doubles.frame_only "AAAA")) default_session doubles.world
   = (Open default_session, [], doubles.world)
   /\ websocket_loop
        [Message (doubles.frame_only "AAAA"); Message (doubles.frame_only doubles.face_jpeg)]
        default_session doubles.world
      = websocket_loop [Message (doubles.frame_only doubles.face_jpeg)]
          default_session doubles.world)
  /\ websocket_loop
       [Message (doubles.frame_only "not-base64-or-not-an-image");
        Message (doubles.frame_only doubles.face_jpeg)]
       default_session doubles.world
     = (Closed BinasciiError, [], doubles.world).
Proof.
  split.
  - apply (malformed_frame (doubles.frame_only "AAAA") default_session default_session
             (JStr "AAAA") doubles.world [Message (doubles.frame_only doubles.face_jpeg)]);
      reflexivity.
  - apply (malformed_frame (doubles.frame_only "not-base64-or-not-an-image")
             default_session default_session
             (JStr "not-base64-or-not-an-image") doubles.world
             [Message (doubles.frame_only doubles.face_jpeg)]);
      reflexivity.
Defined.


(** The validation comes with the next frame: its [set_detection_params]
    fails, the detector keeps 1.1, and the exception ends the handler. *)
Example invalid_scale_factor_rejected_at_detection :
  websocket_detect
    [Message {[ "scale_factor"%string := JFloat (1 # 2) ]};
     Message (doubles.frame_only doubles.face_jpeg)]
    doubles.world
  = (Closed InvalidParameter, [CallSetParams (1 # 2) 5], doubles.world).
Proof. vm_compute. reflexivity. Qed.

(** [float] of a received integer rounds to the nearest double, and
    raises [OverflowError], which ends the handler, on one too large for
    a double. *)
Example float_of_received_integer :
  py_float (JInt (2 ^ 53 + 1)) = Ok (fl (inject_Z (2 ^ 53 + 1)))
  /\ (fl (inject_Z (2 ^ 53 + 1)) == inject_Z (2 ^ 53))%Q
  /\ py_float (JInt (10 ^ 400)) = Raise OverflowError
  /\ turn (Message {[ "scale_factor"%string := JInt (10 ^ 400) ]})
       default_session doubles.world
     = (Closed OverflowError, [], doubles.world).
Proof. vm_compute. repeat split. Qed.

(** The scenario of the specification: [scale_factor] 1.2 and a frame in
    one message, then a frame alone.  Both detections run on a detector
    holding 1.2, and each finds the face. *)
Example scale_factor_persists :
  let '(c, tr, _) :=
    websocket_detect
      [Message doubles.tuned_frame; Message (doubles.frame_only doubles.face_jpeg)]
      doubles.world in
  c = Open (mkSession (12 # 10) 5)
  /\ List.map erase_time tr
     = [CallSetParams (12 # 10) 5;
        CallDetect 1%nat (detector.mkDetector (12 # 10) 5 (30, 30) None);
        SendJson (mkDetection 1 [(10, 10, 50, 50)] 0);
        CallSetParams (12 # 10) 5;
        CallDetect 1%nat (detector.mkDetector (12 # 10) 5 (30, 30) None);
        SendJson (mkDetection 1 [(10, 10, 50, 50)] 0)].
Proof. vm_compute. split; reflexivity. Qed.

(** C4 on the scenario: the first message sets 1.2 and is detected on
    a detector holding 1.2; the second, a frame alone, is detected with
    the 1.2 the session still holds. *)
Lemma update_then_detect_witness :
  turn (Message doubles.tuned_frame) default_session doubles.world
  = (Open (mkSession (12 # 10) 5),
     [CallSetParams (12 # 10) 5;
      CallDetect 1%nat (detector.mkDetector (12 # 10) 5 (30, 30) None);
      SendJson (mkDetection 1 [(10, 10, 50, 50)]
                  (py_round2 (elapsed_ms (0 # 10) (1 # 10))))],
     mkWorld (detector.mkDetector (12 # 10) 5 (30, 30) None)
       (mkClock (readings doubles.tenths) 2))
  /\ List.map erase_time
       (snd (fst (websocket_loop
                    [Message doubles.tuned_frame;
                     Message (doubles.frame_only doubles.face_jpeg)]
                    default_session doubles.world)))
     = [CallSetParams (12 # 10) 5;
        CallDetect 1%nat (detector.mkDetector (12 # 10) 5 (30, 30) None);
        SendJson (mkDetection 1 [(10, 10, 50, 50)] 0);
        CallSetParams (12 # 10) 5;
        CallDetect 1%nat (detector.mkDetector (12 # 10) 5 (30, 30) None);
        SendJson (mkDetection 1 [(10, 10, 50, 50)] 0)].
Proof.
  destruct (update_then_detect doubles.tuned_frame default_session
              (mkSession (12 # 10) 5) (JStr doubles.face_jpeg) 1%nat doubles.world)
    as (_ & _ & Hturn & Hlater); [reflexivity..|].
  split.
  - eapply eq_trans; [exact Hturn | vm_compute; reflexivity].
  - destruct (Hlater [] (mkSession (12 # 10) 5)
                [CallSetParams (12 # 10) 5;
                 CallDetect 1%nat (detector.mkDetector (12 # 10) 5 (30, 30) None);
                 SendJson (mkDetection 1 [(10, 10, 50, 50)]
                             (py_round2 (elapsed_ms (0 # 10) (1 # 10))))]
                (mkWorld (detector.mkDetector (12 # 10) 5 (30, 30) None)
                   (mkClock (readings doubles.tenths) 2))
                (doubles.frame_only doubles.face_jpeg) (mkSession (12 # 10) 5)
                (JStr doubles.face_jpeg) 1%nat)
      as (Hloop & _ & _); [vm_compute; reflexivity | reflexivity..|].
    eapply eq_trans; [exact (f_equal (fun x => List.map erase_time (snd (fst x))) Hloop)|].
    vm_compute. reflexivity.
Defined.

(** C9, as the code has it, on a JPEG data URI. *)
Lemma data_uri_prefix_stripped_witness :
  strip_data_uri "data:image/jpeg;base64" = Ok "data:image/jpeg;base64"%string
  /\ strip_data_uri "data:image/jpeg;base64,/9j/" = Ok "/9j/"%string
  /\ decode_frame (JStr "data:image/jpeg;base64,/9j/") = Ok (Some 1%nat).
Proof.
  destruct (data_uri_prefix_stripped "data:image/jpeg;base64" "/9j/" (11 # 10) 5)
    as (H1 & _ & H2 & H3 & _); [reflexivity|].
  split; [exact H1|]. split; [exact H2|].
  change (decode_frame
            (JStr ("data:image/jpeg;base64" ++ String comma "/9j/")%string)
          = Ok (Some 1%nat)).
  rewrite H3. reflexivity.
Defined.

(** Two sessions: the other one sets 1.5 and detects between the two
    messages of session 0; session 0 still detects with its own 1.2. *)
Example interleaved_sessions :
  trace_of 0
    (log (run [Connect 0; Connect 1;
               Deliver 0 (Message doubles.tuned_frame);
               Deliver 1 (Message {[ "scale_factor"%string := JFloat (15 # 10);
                                     "frame"%string := JStr doubles.face_jpeg ]});
               Deliver 0 (Message (doubles.frame_only doubles.face_jpeg))]
              (mkServer doubles.world ∅ [])))
  = [CallSetParams (12 # 10) 5;
     CallDetect 1%nat (detector.mkDetector (12 # 10) 5 (30, 30) None);
     SendJson (mkDetection 1 [(10, 10, 50, 50)] 0);
     CallSetParams (12 # 10) 5;
     CallDetect 1%nat (detector.mkDetector (12 # 10) 5 (30, 30) None);
     SendJson (mkDetection 1 [(10, 10, 50, 50)] 0)].
Proof. vm_compute. reflexivity. Qed.

End Scenarios.

(** * Further properties of the code *)

(** ** More on the FPS bookkeeping *)

Section FpsInvariants.
Import face_detector.

(** [_update_fps] keeps the frame counter and the held FPS non-negative
    and returns the FPS it holds afterwards; a recomputed FPS is positive
    and never exceeds the number of frames counted in the window, whatever
    the clock does. *)
Theorem update_fps_bounded (self : FaceDetectionApp) (c : Clock) :
  0 <= fps_frame_count self ->
  (0 <= current_fps self)%Q ->
  let v := fst (fst (_update_fps self c)) in
  let self' := snd (fst (_update_fps self c)) in
  0 <= fps_frame_count self'
  /\ (0 <= current_fps self')%Q
  /\ v = current_fps self'
  /\ ((1 <= readings c (pos c) - fps_start_time self)%Q ->
      (0 < v)%Q /\ (v <= inject_Z (fps_frame_count self + 1))%Q).
Proof.
  intros Hn Hf v self'. subst v self'.
  set (elapsed := (readings c (pos c) - fps_start_time self)%Q).
  destruct (Qlt_le_dec elapsed 1) as [Hlt|Hge].
  - rewrite (update_fps_hold self c Hlt). cbn [fst snd fps_frame_count current_fps].
    split; [lia|]. split; [exact Hf|]. split; [reflexivity|].
    intros Hge. exfalso. exact (Qlt_not_le _ _ Hlt Hge).
  - rewrite (update_fps_recompute self c Hge).
    cbn [fst snd fps_frame_count current_fps]. fold elapsed.
    assert (He : (0 < elapsed)%Q).
    { apply Qlt_le_trans with 1%Q; [reflexivity | exact Hge]. }
    assert (Hcount : (1 <= inject_Z (fps_frame_count self + 1))%Q).
    { rewrite <- (Zle_Qle 1). lia. }
    assert (Hpos : (0 < inject_Z (fps_frame_count self + 1) / elapsed)%Q).
    { apply Qlt_shift_div_l; [exact He|]. rewrite Qmult_0_l.
      apply Qlt_le_trans with 1%Q; [reflexivity | exact Hcount]. }
    assert (Hle : (inject_Z (fps_frame_count self + 1) / elapsed
                   <= inject_Z (fps_frame_count self + 1))%Q).
    { apply Qle_shift_div_r; [exact He|].
      rewrite <- (Qmult_1_r (inject_Z (fps_frame_count self + 1))) at 1.
      apply Qmult_le_l; [|exact Hge].
      apply Qlt_le_trans with 1%Q; [reflexivity | exact Hcount]. }
    split; [lia|]. split; [apply Qlt_le_weak, Hpos|]. split; [reflexivity|].
    intros _. split; assumption.
Qed.

(** No call is lost between two recomputations: after [n] calls within
    the window, the call that closes it divides the frames counted before,
    these [n] and itself by the elapsed time. *)
Theorem update_fps_counts_every_call (n : nat) (self : FaceDetectionApp) (c : Clock) :
  (forall k, (k < n)%nat ->
     (readings c (pos c + k) - fps_start_time self < 1)%Q) ->
  (1 <= readings c (pos c + n) - fps_start_time self)%Q ->
  let self_n := snd (fst (update_fps_times n self c)) in
  let c_n := snd (update_fps_times n self c) in
  fst (fst (_update_fps self_n c_n))
  = (inject_Z (fps_frame_count self + Z.of_nat n + 1)
     / (readings c (pos c + n) - fps_start_time self))%Q
  /\ fps_frame_count (snd (fst (_update_fps self_n c_n))) = 0.
Proof.
  intros Hin Hout self_n c_n. subst self_n c_n.
  rewrite (update_fps_times_hold n self c Hin). cbn [fst snd].
  rewrite update_fps_recompute; [split; reflexivity|].
  cbn [readings pos fps_start_time]. exact Hout.
Qed.

End FpsInvariants.

(** ** Pacing and the geometry of the progress bar *)

Section PacingProperties.
Import face_detector.

Lemma py_int_of_float_nonneg (q : Q) :
  (0 <= q)%Q -> py_int_of_float q = Qfloor q.
Proof.
  destruct q as [n d]. unfold Qle, py_int_of_float, Qfloor. cbn [Qnum Qden].
  intros H. apply Z.quot_div_nonneg; lia.
Qed.





Lemma py_int_of_float_Z (x : Q) (n : Z) :
  (x == inject_Z n)%Q -> 0 <= n -> py_int_of_float x = n.
Proof.
  intros H Hn. rewrite py_int_of_float_nonneg.
  - rewrite H. apply Qfloor_Z.
  - rewrite H. rewrite <- (Zle_Qle 0). exact Hn.
Qed.

Lemma py_int_of_float_bounds (x : Q) (n : Z) :
  (0 <= x)%Q -> (x <= inject_Z n)%Q -> 0 <= py_int_of_float x <= n.
Proof.
  intros H0 Hn. rewrite (py_int_of_float_nonneg x H0). split.
  - change 0 with (Qfloor 0). apply Qfloor_resp_le, H0.
  - rewrite <- (Qfloor_Z n). apply Qfloor_resp_le, Hn.
Qed.

Lemma dyadic_Z (n : Z) : (dyadic n 0 == inject_Z n)%Q.
Proof. unfold dyadic, pow2. cbn [Qpower]. apply Qmult_1_r. Qed.

Lemma fl_int_le (x : Q) (n : Z) :
  (0 <= x)%Q -> 0 <= n < 2 ^ 53 -> (x <= inject_Z n)%Q -> (fl x <= inject_Z n)%Q.
Proof.
  intros Hx Hn Hle. rewrite <- dyadic_Z.
  apply fl_le; [assumption | assumption | lia | rewrite dyadic_Z; assumption].
Qed.

Lemma fl_int (x : Q) (n : Z) :
  0 <= n < 2 ^ 53 -> (x == inject_Z n)%Q -> (fl x == inject_Z n)%Q.
Proof.
  intros Hn H. rewrite <- dyadic_Z.
  apply fl_exact; [assumption | lia | rewrite dyadic_Z; assumption].
Qed.

(** An integer below [2^53] times a float between 0 and a double [b]
    stays, rounded, between 0 and the product with [b], when that is a
    double. *)
Lemma int_mul_float_bounds (n : Z) (x : Q) (m k : Z) :
  0 <= n < 2 ^ 53 -> (0 <= x)%Q -> 0 <= m -> n * m < 2 ^ 53 -> -1074 <= k ->
  (x <= dyadic m k)%Q ->
  (0 <= int_mul_float n x)%Q /\ (int_mul_float n x <= dyadic (n * m) k)%Q.
Proof.
  intros Hn Hx Hm Hnm Hk Hle. unfold int_mul_float.
  assert (Hn0 : (0 <= fl (inject_Z n))%Q).
  { apply fl_nonneg. rewrite <- (Zle_Qle 0). lia. }
  assert (Hn1 : (fl (inject_Z n) <= inject_Z n)%Q).
  { apply fl_int_le; [rewrite <- (Zle_Qle 0); lia | lia | apply Qle_refl]. }
  assert (Hprod : (0 <= fl (inject_Z n) * x)%Q) by (apply Qmult_le_0_compat; assumption).
  split; [apply fl_nonneg, Hprod|].
  apply fl_le; [exact Hprod | lia | exact Hk |].
  unfold dyadic. rewrite inject_Z_mult, <- Qmult_assoc.
  apply Qle_trans with (inject_Z n * x)%Q.
  - apply Qmult_le_compat_r; assumption.
  - apply Qmult_le_compat_l_nonneg; [rewrite <- (Zle_Qle 0); lia | exact Hle].
Qed.

Lemma int_mul_float_one (n : Z) (x : Q) :
  0 <= n < 2 ^ 53 -> (x == 1)%Q -> (int_mul_float n x == inject_Z n)%Q.
Proof.
  intros Hn Hx. unfold int_mul_float. apply fl_int; [exact Hn|].
  rewrite Hx, Qmult_1_r. apply fl_int; [exact Hn | reflexivity].
Qed.

Lemma int_mul_float_zero (n : Z) (x : Q) : (x == 0)%Q -> int_mul_float n x = 0%Q.
Proof.
  intros Hx. unfold int_mul_float. apply fl_zero. rewrite Hx. apply Qmult_0_r.
Qed.

Lemma bar_width_bounds (width : Z) :
  0 <= width < 2 ^ 49 ->
  0 <= bar_width width /\ (inject_Z (bar_width width) <= dyadic (width * 13) (-4))%Q.
Proof.
  intros Hw. unfold bar_width.
  destruct (int_mul_float_bounds width (fl (8 # 10)) 13 (-4)) as [H0 H1];
    [lia | apply fl_nonneg; discriminate | lia | lia | lia | |].
  { apply fl_le; [discriminate | lia | lia | vm_compute; discriminate]. }
  rewrite (py_int_of_float_nonneg _ H0). split.
  - change 0 with (Qfloor 0). apply Qfloor_resp_le, H0.
  - eapply Qle_trans; [apply Qfloor_le | exact H1].
Qed.

Lemma bar_start_bounds (width : Z) :
  0 <= width < 2 ^ 49 ->
  0 <= bar_start width /\ (inject_Z (bar_start width) <= dyadic width (-3))%Q.
Proof.
  intros Hw. unfold bar_start.
  destruct (int_mul_float_bounds width (fl (1 # 10)) 1 (-3)) as [H0 H1];
    [lia | apply fl_nonneg; discriminate | lia | lia | lia | |].
  { apply fl_le; [discriminate | lia | lia | vm_compute; discriminate]. }
  rewrite Z.mul_1_r in H1.
  rewrite (py_int_of_float_nonneg _ H0). split.
  - change 0 with (Qfloor 0). apply Qfloor_resp_le, H0.
  - eapply Qle_trans; [apply Qfloor_le | exact H1].
Qed.

(** The progress bar of [run_video], for a frame less than [2^49] pixels
    wide.  Its columns lie inside the frame, and so do its rows when the
    frame is at least 20 pixels high.  As long as the frame index has not
    passed the reported total the green part lies inside the grey part;
    it is empty when the file reports no positive total, and it fills
    the grey part when the frame index equals the total. *)
Theorem progress_bar_geometry (width height frame_count total_frames : Z) :
  0 <= width < 2 ^ 49 ->
  0 <= frame_count ->
  0 <= bar_start width
  /\ bar_start width + bar_width width <= width
  /\ (20 <= height ->
      0 <= bar_top height /\ bar_top height < bar_bottom height <= height)
  /\ (frame_count <= total_frames ->
      bar_start width <= bar_fill_end width frame_count total_frames
      <= bar_start width + bar_width width)
  /\ (total_frames <= 0 ->
      bar_fill_end width frame_count total_frames = bar_start width)
  /\ (0 < total_frames -> frame_count = total_frames ->
      bar_fill_end width frame_count total_frames
      = bar_start width + bar_width width).
Proof.
  intros Hw Hfc.
  destruct (bar_width_bounds width Hw) as [Hbw0 Hbw1].
  destruct (bar_start_bounds width Hw) as [Hbs0 Hbs1].
  assert (Hsum : bar_start width + bar_width width <= width).
  { rewrite Zle_Qle, inject_Z_plus.
    apply Qle_trans with (dyadic width (-3) + dyadic (width * 13) (-4))%Q.
    - apply Qplus_le_compat; assumption.
    - unfold dyadic. rewrite inject_Z_mult.
      change (pow2 (-3)) with (1 # 8)%Q. change (pow2 (-4)) with (1 # 16)%Q.
      assert (Heq : (inject_Z width * (1 # 8)
                     + inject_Z width * inject_Z 13 * (1 # 16)
                     == inject_Z width * (15 # 16))%Q) by ring.
      rewrite Heq. rewrite <- (Qmult_1_r (inject_Z width)) at 2.
      apply Qmult_le_compat_l_nonneg; [rewrite <- (Zle_Qle 0); lia | discriminate]. }
  assert (Hbw53 : 0 <= bar_width width < 2 ^ 53) by lia.
  assert (Hempty : total_frames <= 0 ->
                   bar_fill_end width frame_count total_frames = bar_start width).
  { intros Ht. unfold bar_fill_end, progress.
    destruct (0 <? total_frames) eqn:E; [apply Z.ltb_lt in E; lia|].
    rewrite int_mul_float_zero by reflexivity.
    change (py_int_of_float 0%Q) with 0. lia. }
  split; [exact Hbs0|]. split; [exact Hsum|].
  split; [unfold bar_top, bar_bottom; lia|].
  split; [|split; [exact Hempty|]].
  - intros Hle. destruct (Z_le_gt_dec total_frames 0) as [Ht|Ht].
    { rewrite Hempty by exact Ht. lia. }
    unfold bar_fill_end.
    assert (Hp0 : (0 <= progress frame_count total_frames)%Q).
    { unfold progress. rewrite (proj2 (Z.ltb_lt 0 total_frames)) by lia.
      apply Qle_shift_div_l; [rewrite <- (Zlt_Qlt 0); lia|].
      rewrite Qmult_0_l, <- (Zle_Qle 0). exact Hfc. }
    assert (Hp1 : (progress frame_count total_frames <= 1)%Q).
    { unfold progress. rewrite (proj2 (Z.ltb_lt 0 total_frames)) by lia.
      apply Qle_shift_div_r; [rewrite <- (Zlt_Qlt 0); lia|].
      rewrite Qmult_1_l, <- Zle_Qle. exact Hle. }
    destruct (int_mul_float_bounds (bar_width width)
                (fl (progress frame_count total_frames)) 1 0) as [H0 H1];
      [exact Hbw53 | apply fl_nonneg, Hp0 | lia | lia | lia | |].
    { apply fl_le; [exact Hp0 | lia | lia | rewrite dyadic_Z; exact Hp1]. }
    rewrite Z.mul_1_r, dyadic_Z in H1.
    pose proof (py_int_of_float_bounds _ _ H0 H1). lia.
  - intros Hpos ->. unfold bar_fill_end. f_equal.
    apply py_int_of_float_Z; [|lia].
    apply int_mul_float_one; [exact Hbw53|].
    apply (fl_int _ 1); [lia|].
    unfold progress. rewrite (proj2 (Z.ltb_lt 0 total_frames)) by lia.
    apply Qmult_inv_r. intros H.
    assert (Hz : (0 < inject_Z total_frames)%Q) by (rewrite <- (Zlt_Qlt 0); lia).
    rewrite H in Hz. discriminate Hz.
Qed.

(** A 640 by 480 video at frame 3 of 4: the grey part spans the columns
    64 to 576 and the rows 460 to 470, the green part ends at 448. *)
Lemma progress_bar_geometry_witness :
  0 <= bar_start 640
  /\ bar_start 640 + bar_width 640 <= 640
  /\ (20 <= 480 -> 0 <= bar_top 480 /\ bar_top 480 < bar_bottom 480 <= 480)
  /\ (3 <= 4 ->
      bar_start 640 <= bar_fill_end 640 3 4 <= bar_start 640 + bar_width 640)
  /\ (4 <= 0 -> bar_fill_end 640 3 4 = bar_start 640)
  /\ (0 < 4 -> 3 = 4 -> bar_fill_end 640 3 4 = bar_start 640 + bar_width 640).
Proof. apply (progress_bar_geometry 640 480 3 4); lia. Defined.

(** The products are rounded as Python rounds them: at frame 15 of 22 in
    a frame 28 pixels wide, [22 * (15 / 22)] is just below 15 and the
    green part ends 14 pixels, not 15, after its start. *)
Example progress_bar_rounds :
  bar_width 28 = 22 /\ bar_start 28 = 2 /\ bar_fill_end 28 15 22 = 2 + 14
  /\ bar_fill_end 640 3 4 = 448.
Proof. vm_compute. repeat split. Qed.

End PacingProperties.

(** ** Rules for running a computation symbolically *)

Section SatRules.
Context {S E : Type}.

Lemma sat_ret {A} (a : A) (post : res A -> list E -> S -> Prop) s :
  post (Ok a) [] s -> sat (mret a) post s.
Proof. intros H. exact H. Qed.

Lemma sat_raise {A} (e : exn) (post : res A -> list E -> S -> Prop) s :
  post (Raise e) [] s -> sat (raise e) post s.
Proof. intros H. exact H. Qed.

Lemma sat_emit (e : E) (post : res unit -> list E -> S -> Prop) s :
  post (Ok tt) [e] s -> sat (emit e) post s.
Proof. intros H. exact H. Qed.

Lemma sat_modify (f : S -> S) (post : res unit -> list E -> S -> Prop) s :
  post (Ok tt) [] (f s) -> sat (modify f) post s.
Proof. intros H. exact H. Qed.

Lemma sat_weaken {A} (m : SE S E A) (post post' : res A -> list E -> S -> Prop) s :
  (forall r tr s', post r tr s' -> post' r tr s') ->
  sat m post s -> sat m post' s.
Proof. unfold sat. destruct (m s) as [[r tr] s']. auto. Qed.

Lemma sat_bind {A B} (m : SE S E A) (k : A -> SE S E B)
  (post : res B -> list E -> S -> Prop) s :
  sat m (fun r tr1 s1 =>
           match r with
           | Ok a => sat (k a) (fun r' tr2 s2 => post r' (tr1 ++ tr2) s2) s1
           | Raise e => post (Raise e) tr1 s1
           end) s ->
  sat (m ≫= k) post s.
Proof.
  unfold sat, mbind, SE_bind. destruct (m s) as [[[a|e] tr1] s1]; [|auto].
  destruct (k a s1) as [[r' tr2] s2]. auto.
Qed.

Lemma sat_assoc {A B C} (m : SE S E A) (f : A -> SE S E B) (g : B -> SE S E C)
  (post : res C -> list E -> S -> Prop) s :
  sat (m ≫= (fun a => f a ≫= g)) post s -> sat ((m ≫= f) ≫= g) post s.
Proof.
  unfold sat, mbind, SE_bind. destruct (m s) as [[[a|e] tr1] s1]; [|auto].
  destruct (f a s1) as [[[b|e] tr2] s2]; [|auto].
  destruct (g b s2) as [[r tr3] s3]. rewrite app_assoc. auto.
Qed.

Lemma sat_bind_ret {A B} (a : A) (k : A -> SE S E B)
  (post : res B -> list E -> S -> Prop) s :
  sat (k a) post s -> sat (mret a ≫= k) post s.
Proof.
  unfold sat, mbind, SE_bind, mret, SE_ret. destruct (k a s) as [[r tr] s'].
  auto.
Qed.

Lemma sat_bind_get {A} (k : S -> SE S E A)
  (post : res A -> list E -> S -> Prop) s :
  sat (k s) post s -> sat (get ≫= k) post s.
Proof.
  unfold sat, mbind, SE_bind, get. destruct (k s s) as [[r tr] s']. auto.
Qed.

Lemma sat_bind_modify {A} (f : S -> S) (k : unit -> SE S E A)
  (post : res A -> list E -> S -> Prop) s :
  sat (k tt) post (f s) -> sat (modify f ≫= k) post s.
Proof.
  unfold sat, mbind, SE_bind, modify. destruct (k tt (f s)) as [[r tr] s'].
  auto.
Qed.

Lemma sat_bind_emit {A} (e : E) (k : unit -> SE S E A)
  (post : res A -> list E -> S -> Prop) s :
  sat (k tt) (fun r tr s' => post r (e :: tr) s') s -> sat (emit e ≫= k) post s.
Proof.
  unfold sat, mbind, SE_bind, emit. destruct (k tt s) as [[r tr] s']. auto.
Qed.

Lemma sat_bind_lift {A B} (x : res A) (k : A -> SE S E B)
  (post : res B -> list E -> S -> Prop) s :
  match x with
  | Ok a => sat (k a) post s
  | Raise e => post (Raise e) [] s
  end ->
  sat (lift x ≫= k) post s.
Proof.
  unfold sat, mbind, SE_bind, lift. destruct x as [a|e]; [|auto].
  destruct (k a s) as [[r tr] s']. auto.
Qed.

End SatRules.

(** ** More on the loops *)

Section LoopAccounting.
Import face_detector.
Context {Frame : Type} `{!Cv Frame}.

Local Abbreviation M := (@M Frame).
Implicit Types (p : Proc Frame) (tr : list (event Frame)) (t : tick).

Lemma sat_bind_ext {A} t (s : stage) (k : unit -> M A) post p :
  (forall e, post (Raise e) [] p) ->
  sat (k tt) post p ->
  sat (ext t s ≫= k) post p.
Proof.
  intros Hraise Hok. unfold ext.
  destruct (fault t) as [[s' e]|]; [destruct (stage_eqb s s')|].
  - apply Hraise.
  - apply sat_bind_ret, Hok.
  - apply sat_bind_ret, Hok.
Qed.

Lemma sat_bind_ext_quiet {A} t (s : stage) (k : unit -> M A) post p :
  fault t = None ->
  sat (k tt) post p ->
  sat (ext t s ≫= k) post p.
Proof. intros Hq Hok. unfold ext. rewrite Hq. apply sat_bind_ret, Hok. Qed.

(** One step of the symbolic run of a loop body. *)
Ltac split_on x :=
  first [ match goal with H : x = _ |- _ => rewrite H end | destruct x eqn:? ].

Ltac sat_step :=
  cbv beta iota;
  lazymatch goal with
  | |- sat ((_ ≫= _) ≫= _) _ _ => apply sat_assoc
  | |- sat (mret _ ≫= _) _ _ => apply sat_bind_ret
  | |- sat (get ≫= _) _ _ => apply sat_bind_get
  | |- sat (modify _ ≫= _) _ _ => apply sat_bind_modify
  | |- sat (emit _ ≫= _) _ _ => apply sat_bind_emit
  | |- sat (ext _ _ ≫= _) _ _ =>
      first [ apply sat_bind_ext_quiet; [assumption|]
            | apply sat_bind_ext; [intros ?|] ]
  | |- sat (cap_read _ ≫= _) _ _ => unfold cap_read
  | |- sat (update_fps ≫= _) _ _ => unfold update_fps
  | |- sat (wait_key _ _ ≫= _) _ _ => unfold wait_key
  | |- sat (match ?x with _ => _ end ≫= _) _ _ => split_on x
  | |- sat (match ?x with _ => _ end) _ _ => split_on x
  | |- sat (mret _) _ _ => apply sat_ret
  | |- sat (emit _) _ _ => apply sat_emit
  | |- sat (modify _) _ _ => apply sat_modify
  | |- sat (raise _) _ _ => apply sat_raise
  end.

Ltac sat_run :=
  unfold webcam_iteration, video_iteration; repeat sat_step; cbv beta iota.

(** A loop keeps what each iteration keeps. *)
Lemma loop_sat (body : tick -> M control)
  (inv : list (event Frame) -> Proc Frame -> Prop)
  (final : loop_end -> list (event Frame) -> Proc Frame -> Prop) :
  (forall t tr0 p, inv tr0 p ->
     sat (body t)
       (fun r tr p' =>
          match r with
          | Ok Continue => inv (tr0 ++ tr) p'
          | Ok Break => final Broke (tr0 ++ tr) p'
          | Raise e => final (Raised e) (tr0 ++ tr) p'
          end) p) ->
  (forall tr p, inv tr p -> final Pending tr p) ->
  forall script tr0 p, inv tr0 p ->
    final (fst (fst (loop body script p)))
          (tr0 ++ snd (fst (loop body script p)))
          (snd (loop body script p)).
Proof.
  intros Hbody Hpending. induction script as [|t script IH]; intros tr0 p Hinv.
  - cbn. rewrite app_nil_r. apply Hpending, Hinv.
  - cbn [loop]. specialize (Hbody t tr0 p Hinv). unfold sat in Hbody.
    destruct (body t p) as [[[[]|e] tr] p1]; cbn [fst snd]; try exact Hbody.
    specialize (IH (tr0 ++ tr) p1 Hbody).
    destruct (loop body script p1) as [[r tr'] p2]. cbn [fst snd] in *.
    rewrite app_assoc. exact IH.
Qed.


(** *** Frames are consumed in order and counted *)

Lemma frames_read_app tr tr' :
  frames_read (tr ++ tr') = (frames_read tr + frames_read tr')%nat.
Proof. apply occurrences_app. Qed.

Lemma skipn_next {A} (n : nat) (l : list A) x rest :
  skipn n l = x :: rest -> skipn (n + 1) l = rest /\ (n < length l)%nat.
Proof.
  revert l. induction n as [|n IH]; intros [|y l] H; cbn in *; try discriminate.
  - inversion H. split; [reflexivity | lia].
  - destruct (IH l H) as [H1 H2]. split; [exact H1 | lia].
Qed.

Lemma in_step_same frames tr0 tr p p' :
  in_step frames tr0 p ->
  frames_read tr = 0%nat -> frame_count p' = frame_count p -> cap p' = cap p ->
  in_step frames (tr0 ++ tr) p'.
Proof.
  intros (H1 & H2 & H3) Hr Hf Hc. unfold in_step.
  rewrite frames_read_app, Hr, Nat.add_0_r, Hf, Hc. auto.
Qed.

Lemma in_step_next frames tr0 tr p p' f :
  in_step frames tr0 p ->
  frames_read tr = 1%nat -> frame_count p' = frame_count p + 1 ->
  cap p = f :: cap p' ->
  in_step frames (tr0 ++ tr) p'.
Proof.
  intros (H1 & H2 & H3) Hr Hf Hc. unfold in_step.
  rewrite frames_read_app, Hr, Hf, H1. rewrite H2 in Hc.
  destruct (skipn_next _ _ _ _ Hc) as [Hs Hl].
  split; [lia|]. split; [symmetry; exact Hs | lia].
Qed.

Ltac in_step_leaf :=
  first
    [ eapply in_step_same; [eassumption | reflexivity ..]
    | eapply in_step_next; [eassumption | reflexivity | reflexivity | cbn; eassumption] ].

Lemma video_iteration_in_step v save t frames tr0 p :
  in_step frames tr0 p ->
  sat (video_iteration v save t) (fun _ tr p' => in_step frames (tr0 ++ tr) p') p.
Proof. intros Hinv. sat_run; in_step_leaf. Qed.

(** *** The shape of a run *)

Lemma try_finally_shape body save p :
  exists post,
    Forall plumbing post
    /\ try_finally body save p
       = (ended (fst (fst (body p))), snd (fst (body p)) ++ post, snd (body p)).
Proof.
  unfold try_finally.
  destruct (body p) as [[[| e |] tr] p']; rewrite ?finally_effects; cbn [fst snd ended].
  - eexists. split; [|reflexivity]. destruct save; repeat constructor.
  - eexists. split; [|reflexivity]. destruct save; repeat constructor.
  - exists []. split; [constructor | rewrite app_nil_r; reflexivity].
Qed.

Lemma run_with_setup_shape setup body save (p : Proc Frame) outcome pre p' :
  setup p = (outcome, pre, p') ->
  match outcome with
  | Raise e => run_with_setup setup body save p = (Propagated e, pre, p')
  | Ok _ =>
      exists post,
        Forall plumbing post
        /\ run_with_setup setup body save p
           = (ended (fst (fst (body p'))), pre ++ snd (fst (body p')) ++ post,
              snd (body p'))
  end.
Proof.
  intros Hsetup. unfold run_with_setup. rewrite Hsetup.
  destruct outcome as [[]|e]; [|reflexivity].
  destruct (try_finally_shape body save p') as (post & Hpost & ->).
  exists post. split; [exact Hpost | reflexivity].
Qed.

(** A run is its set-up, then (unless the set-up raised) its loop and
    the [finally] block. *)
Lemma run_video_shape app c v save fault script :
  let p0 := set_cap (v_frames v) (start app c) in
  let lp := loop (video_iteration v save) script p0 in
  exists pre,
    Forall plumbing pre
    /\ match setup_outcome (video_stages save) fault with
       | Raise e =>
           run_video app c (Some v) save fault script = (Propagated e, pre, p0)
       | Ok _ =>
           exists post,
             Forall plumbing post
             /\ run_video app c (Some v) save fault script
                = (ended (fst (fst lp)), pre ++ snd (fst lp) ++ post, snd lp)
       end.
Proof.
  intros p0 lp. subst lp. unfold run_video. fold p0.
  destruct (video_setup_cases save fault p0) as (pre & Hsetup & Hpre & _).
  exists pre. split; [exact Hpre|].
  exact (run_with_setup_shape _ (loop (video_iteration v save) script) save
           _ _ _ _ Hsetup).
Qed.

Lemma run_webcam_shape app c frames save fault script :
  exists p0 pre,
    cap p0 = frames /\ screenshot_count p0 = 0
    /\ Forall plumbing pre
    /\ match setup_outcome (webcam_stages save) fault with
       | Raise e =>
           run_webcam app c (Some frames) save fault script
           = (Propagated e, pre, p0)
       | Ok _ =>
           exists post,
             Forall plumbing post
             /\ run_webcam app c (Some frames) save fault script
                = (ended (fst (fst (loop (webcam_iteration save) script p0))),
                   pre ++ snd (fst (loop (webcam_iteration save) script p0)) ++ post,
                   snd (loop (webcam_iteration save) script p0))
       end.
Proof.
  unfold run_webcam.
  destruct (webcam_setup_cases save fault (set_cap frames (start app c)))
    as (pre & p0 & Hsetup & Hpre & _ & _ & _ & Hcap & Hsc).
  exists p0, pre. split; [exact Hcap|]. split; [exact Hsc|].
  split; [exact Hpre|].
  exact (run_with_setup_shape _ (loop (webcam_iteration save) script) save
           _ _ _ _ Hsetup).
Qed.

Lemma frames_read_plumbing tr : Forall plumbing tr -> frames_read tr = 0%nat.
Proof.
  induction 1 as [|e tr He _ IH]; [reflexivity|].
  change (e :: tr) with ([e] ++ tr). rewrite frames_read_app, IH.
  destruct e; try destruct He; reflexivity.
Qed.

Lemma shown_plumbing tr : Forall plumbing tr -> shown tr = [].
Proof.
  induction 1 as [|e tr He _ IH]; [reflexivity|].
  unfold shown in *. cbn. rewrite IH. destruct e; try destruct He; reflexivity.
Qed.

Lemma written_plumbing tr : Forall plumbing tr -> written tr = [].
Proof.
  induction 1 as [|e tr He _ IH]; [reflexivity|].
  unfold written in *. cbn. rewrite IH. destruct e; try destruct He; reflexivity.
Qed.

Lemma screenshots_plumbing tr : Forall plumbing tr -> screenshots tr = [].
Proof.
  induction 1 as [|e tr He _ IH]; [reflexivity|].
  unfold screenshots in *. cbn. rewrite IH. destruct e; try destruct He; reflexivity.
Qed.

Lemma shown_app tr tr' : shown (tr ++ tr') = shown tr ++ shown tr'.
Proof. apply omap_app. Qed.

Lemma written_app tr tr' : written (tr ++ tr') = written tr ++ written tr'.
Proof. apply omap_app. Qed.

Lemma screenshots_app tr tr' :
  screenshots (tr ++ tr') = screenshots tr ++ screenshots tr'.
Proof. apply omap_app. Qed.

(** In a video run the frames are taken from the file in order, one per
    successful read, and [frame_count] counts them: at any point of any
    run, [frame_count] is the number of successful reads and the capture
    holds exactly the frames after those, none skipped and none read
    twice. *)
Theorem video_frames_in_order app c (v : VideoFile) (save_output : bool)
  (fault : option (setup_stage * exn)) (script : list tick) :
  let run := run_video app c (Some v) save_output fault script in
  let n := frames_read (snd (fst run)) in
  frame_count (snd run) = Z.of_nat n
  /\ cap (snd run) = skipn n (v_frames v)
  /\ (n <= length (v_frames v))%nat.
Proof.
  cbv zeta.
  destruct (run_video_shape app c v save_output fault script) as (pre & Hpre & H).
  destruct (setup_outcome (video_stages save_output) fault) as [[]|e].
  2:{ rewrite H. cbn [fst snd]. rewrite (frames_read_plumbing _ Hpre).
      cbn. split; [reflexivity|]. split; [reflexivity | lia]. }
  destruct H as (post & Hpost & ->).
  cbn [fst snd].
  rewrite !frames_read_app, (frames_read_plumbing _ Hpre),
    (frames_read_plumbing _ Hpost), Nat.add_0_r, Nat.add_0_l.
  refine (loop_sat (video_iteration v save_output)
            (in_step (v_frames v)) (fun _ => in_step (v_frames v))
            _ _ script [] (set_cap (v_frames v) (start app c)) _).
  - intros t tr0 p Hinv.
    eapply sat_weaken; [|apply video_iteration_in_step, Hinv].
    intros [[]|e] tr p' H; exact H.
  - auto.
  - unfold in_step. cbn. split; [reflexivity|]. split; [reflexivity | lia].
Qed.


(** *** Screenshots *)

Lemma numbered_same tr0 tr p p' :
  numbered tr0 p -> screenshots tr = [] -> screenshot_count p' = screenshot_count p ->
  numbered (tr0 ++ tr) p'.
Proof.
  intros [H1 H2] Hs Hc. unfold numbered.
  rewrite screenshots_app, Hs, app_nil_r, Hc. auto.
Qed.

Lemma numbered_next tr0 tr p p' :
  numbered tr0 p -> screenshots tr = [screenshot_count p] ->
  screenshot_count p' = screenshot_count p + 1 ->
  numbered (tr0 ++ tr) p'.
Proof.
  intros [H1 H2] Hs Hc. unfold numbered.
  rewrite screenshots_app, Hs, List.length_app, Hc, H2. cbn [length].
  split; [|lia].
  rewrite seq_app, List.map_app. cbn [seq List.map]. rewrite <- H1.
  rewrite Nat.add_0_l. reflexivity.
Qed.

Ltac numbered_leaf :=
  first
    [ eapply numbered_same; [eassumption | reflexivity ..]
    | eapply numbered_next; [eassumption | reflexivity ..] ].

Lemma webcam_iteration_numbered save t tr0 p :
  numbered tr0 p ->
  sat (webcam_iteration save t) (fun _ tr p' => numbered (tr0 ++ tr) p') p.
Proof. intros Hinv. sat_run; numbered_leaf. Qed.

(** The screenshots of a webcam run are numbered 0, 1, 2, ... in the
    order they are taken, without a gap or a repeat, so no screenshot of
    a run overwrites another; the counter ends at their number. *)
Theorem screenshots_numbered app c (frames : list Frame) (save_output : bool)
  (fault : option (setup_stage * exn)) (script : list tick) :
  let run := run_webcam app c (Some frames) save_output fault script in
  let shots := screenshots (snd (fst run)) in
  shots = List.map Z.of_nat (seq 0 (length shots))
  /\ screenshot_count (snd run) = Z.of_nat (length shots).
Proof.
  cbv zeta.
  destruct (run_webcam_shape app c frames save_output fault script)
    as (p0 & pre & Hcap & Hsc & Hpre & H).
  destruct (setup_outcome (webcam_stages save_output) fault) as [[]|e].
  2:{ rewrite H. cbn [fst snd]. rewrite (screenshots_plumbing _ Hpre).
      split; [reflexivity | exact Hsc]. }
  destruct H as (post & Hpost & ->).
  cbn [fst snd].
  rewrite !screenshots_app, (screenshots_plumbing _ Hpre),
    (screenshots_plumbing _ Hpost), app_nil_r, app_nil_l.
  refine (loop_sat (webcam_iteration save_output) numbered (fun _ => numbered)
            _ _ script [] p0 _).
  - intros t tr0 p Hinv.
    eapply sat_weaken; [|apply webcam_iteration_numbered, Hinv].
    intros [[]|e] tr p' H; exact H.
  - auto.
  - split; [reflexivity | exact Hsc].
Qed.

(** *** The recording *)

Ltac wrote_shown_leaf :=
  unfold wrote_shown; cbn;
  first [ reflexivity | left; reflexivity | right; eexists; split; reflexivity ].

Lemma webcam_iteration_wrote_shown save t p :
  sat (webcam_iteration save t) (fun r tr _ => wrote_shown save r tr) p.
Proof. destruct save; sat_run; wrote_shown_leaf. Qed.

Lemma video_iteration_wrote_shown v save t p :
  sat (video_iteration v save t) (fun r tr _ => wrote_shown save r tr) p.
Proof. destruct save; sat_run; wrote_shown_leaf. Qed.

Lemma loop_recorded (body : tick -> M control) save script p :
  (forall t p, sat (body t) (fun r tr _ => wrote_shown save r tr) p) ->
  recorded save (ended (fst (fst (loop body script p))))
    (snd (fst (loop body script p))).
Proof.
  intros Hbody. destruct save.
  - refine (loop_sat body (fun tr _ => written tr = shown tr)
              (fun e tr _ => recorded true (ended e) tr) _ _ script [] p eq_refl).
    + intros t tr0 p1 Hinv. eapply sat_weaken; [|apply Hbody].
      unfold wrote_shown, recorded.
      intros [[]|e] tr p' H; rewrite ?written_app, ?shown_app, ?Hinv.
      * rewrite H. reflexivity.
      * rewrite H. split; [discriminate|]. intros _.
        split; [left; reflexivity | intros _; reflexivity].
      * split; [discriminate|]. intros _. split.
        -- destruct H as [H|(f & Hw & Hs)]; [left; rewrite H; reflexivity|].
           right. exists f. rewrite Hw, Hs, app_nil_r. reflexivity.
        -- intros Hne. exfalso. exact (Hne e eq_refl).
    + intros tr p1 Hinv. split; [discriminate|]. intros _.
      split; [left; exact Hinv | intros _; exact Hinv].
  - refine (loop_sat body (fun tr _ => written tr = [])
              (fun e tr _ => recorded false (ended e) tr) _ _ script [] p eq_refl).
    + intros t tr0 p1 Hinv. eapply sat_weaken; [|apply Hbody].
      unfold wrote_shown, recorded.
      intros [[]|e] tr p' H; rewrite ?written_app, ?Hinv, ?H;
        try reflexivity; (split; [reflexivity | discriminate]).
    + intros tr p1 Hinv. split; [intros _; exact Hinv | discriminate].
Qed.

Lemma recorded_plumbing save r pre tr post :
  Forall plumbing pre -> Forall plumbing post ->
  recorded save r tr -> recorded save r (pre ++ tr ++ post).
Proof.
  intros Hpre Hpost H. unfold recorded in *.
  rewrite !written_app, !shown_app, (written_plumbing _ Hpre),
    (written_plumbing _ Hpost), (shown_plumbing _ Hpre), (shown_plumbing _ Hpost),
    !app_nil_r, !app_nil_l.
  exact H.
Qed.

(** In both runs the recording follows the display: without
    [save_output] no frame is ever written; with it, the frames written
    are exactly the frames displayed, in the same order, and only a run
    left by an exception can miss the last displayed frame. *)
Lemma recorded_setup save r (pre : list (event Frame)) :
  Forall plumbing pre -> recorded save r pre.
Proof.
  intros Hpre. unfold recorded.
  rewrite (written_plumbing _ Hpre), (shown_plumbing _ Hpre).
  split; [reflexivity|]. intros _. split; [left; reflexivity | reflexivity].
Qed.

Theorem recording_follows_display app c (save_output : bool)
  (fault : option (setup_stage * exn)) (script : list tick) :
  (forall frames,
     let run := run_webcam app c (Some frames) save_output fault script in
     recorded save_output (fst (fst run)) (snd (fst run)))
  /\ (forall v,
        let run := run_video app c (Some v) save_output fault script in
        recorded save_output (fst (fst run)) (snd (fst run))).
Proof.
  split.
  - intros frames. cbv zeta.
    destruct (run_webcam_shape app c frames save_output fault script)
      as (p0 & pre & _ & _ & Hpre & H).
    destruct (setup_outcome (webcam_stages save_output) fault) as [[]|e];
      [|rewrite H; apply recorded_setup, Hpre].
    destruct H as (post & Hpost & ->).
    cbn [fst snd]. apply recorded_plumbing; [assumption..|].
    apply loop_recorded. intros t p. apply webcam_iteration_wrote_shown.
  - intros v. cbv zeta.
    destruct (run_video_shape app c v save_output fault script)
      as (pre & Hpre & H).
    destruct (setup_outcome (video_stages save_output) fault) as [[]|e];
      [|rewrite H; apply recorded_setup, Hpre].
    destruct H as (post & Hpost & ->).
    cbn [fst snd]. apply recorded_plumbing; [assumption..|].
    apply loop_recorded. intros t p. apply video_iteration_wrote_shown.
Qed.


(** *** Pause and end of stream *)

Lemma sat_exact {A} (m : M A) (x : res A * list (event Frame) * Proc Frame) p :
  sat m (fun r tr p' => (r, tr, p') = x) p -> m p = x.
Proof. unfold sat. destruct (m p) as [[r tr] p']. auto. Qed.

Ltac absurd_key :=
  match goal with
  | H : (_ =? _) = true |- _ => apply Z.eqb_eq in H; contradiction
  end.

Lemma video_iteration_paused_idle v save t p :
  paused p = true -> idle t ->
  video_iteration v save t p = (Ok Continue, [EvWaitKey (delay (v_fps v))], p).
Proof.
  intros Hp (Hf & Hq & Hk). apply sat_exact.
  sat_run; first [absurd_key | reflexivity].
Qed.

(** A paused video only waits: through any number of iterations in which
    nothing is pressed but keys other than [p] and [q], the loop goes on,
    each iteration only waits for a key, and the state is untouched: no
    frame is read, nothing is counted, and the FPS clock is not read. *)
Theorem paused_video_waits (v : VideoFile) (save_output : bool)
  (script : list tick) (p : Proc Frame) :
  paused p = true ->
  Forall idle script ->
  loop (video_iteration v save_output) script p
  = (Pending, repeat (EvWaitKey (delay (v_fps v))) (length script), p).
Proof.
  intros Hp. induction 1 as [|t script Ht _ IH]; [reflexivity|].
  cbn [loop]. rewrite (video_iteration_paused_idle v save_output t p Hp Ht), IH.
  reflexivity.
Qed.

Lemma video_iteration_end_of_stream v save t p :
  paused p = false -> idle t -> cap p = [] ->
  video_iteration v save t p = (Ok Break, [EvCapRead false], p).
Proof.
  intros Hp (Hf & Hq & Hk) Hc. apply sat_exact.
  sat_run; reflexivity.
Qed.

Lemma video_iteration_next_frame v save t p f rest :
  paused p = false -> idle t -> cap p = f :: rest ->
  sat (video_iteration v save t)
    (fun r tr p' =>
       r = Ok Continue /\ cap p' = rest /\ paused p' = false
       /\ frame_count p' = frame_count p + 1 /\ length (shown tr) = 1%nat) p.
Proof.
  intros Hp (Hf & Hq & Hk) Hc.
  sat_run; first [absurd_key | cbn; auto].
Qed.

Lemma loop_plays_to_the_end v save script :
  forall p,
    paused p = false -> Forall idle script ->
    (length (cap p) < length script)%nat ->
    let r := loop (video_iteration v save) script p in
    fst (fst r) = Broke
    /\ cap (snd r) = []
    /\ frame_count (snd r) = frame_count p + Z.of_nat (length (cap p))
    /\ length (shown (snd (fst r))) = length (cap p).
Proof.
  induction script as [|t script IH]; intros p Hp Hidle Hlen; [cbn in Hlen; lia|].
  inversion Hidle as [|? ? Ht Hrest]; subst. cbv zeta. cbn [loop].
  destruct (cap p) as [|f rest] eqn:Hc.
  - rewrite (video_iteration_end_of_stream v save t p Hp Ht Hc). cbn.
    rewrite Hc. repeat split; lia.
  - pose proof (video_iteration_next_frame v save t p f rest Hp Ht Hc) as H.
    unfold sat in H.
    destruct (video_iteration v save t p) as [[r tr] p1].
    destruct H as (-> & Hc1 & Hp1 & Hf1 & Hs1).
    specialize (IH p1 Hp1 Hrest). rewrite Hc1 in IH.
    cbn [length] in Hlen. specialize (IH ltac:(lia)). cbv zeta in IH.
    destruct (loop (video_iteration v save) script p1) as [[r' tr'] p2].
    cbn [fst snd] in *. destruct IH as (-> & Hc2 & Hf2 & Hs2).
    rewrite shown_app, List.length_app, Hs1, Hs2, Hf2, Hf1. cbn [length].
    repeat split; [assumption | lia].
Qed.

(** Left alone, a video plays to its end: when no key but keys other
    than [p] and [q] is pressed, no call raises, and the script has more
    iterations than the file has frames, the run returns after the read
    that fails, having read and displayed every frame once. *)
Theorem video_plays_to_the_end app c (v : VideoFile) (save_output : bool)
  (script : list tick) :
  Forall idle script ->
  (length (v_frames v) < length script)%nat ->
  let run := run_video app c (Some v) save_output None script in
  fst (fst run) = Returned
  /\ frame_count (snd run) = Z.of_nat (length (v_frames v))
  /\ cap (snd run) = []
  /\ length (shown (snd (fst run))) = length (v_frames v).
Proof.
  intros Hidle Hlen. cbv zeta.
  destruct (run_video_shape app c v save_output None script)
    as (pre & Hpre & post & Hpost & ->).
  cbn [fst snd].
  rewrite !shown_app, (shown_plumbing _ Hpre), (shown_plumbing _ Hpost),
    app_nil_r, app_nil_l.
  destruct (loop_plays_to_the_end v save_output script
              (set_cap (v_frames v) (start app c)) eq_refl Hidle Hlen)
    as (-> & H2 & H3 & H4).
  cbn [ended]. repeat split; assumption.
Qed.

(** *** The statistics *)

Lemma detections_app (l l' : list Frame) :
  detections (l ++ l') = detections l + detections l'.
Proof.
  unfold detections. induction l as [|f l IH]; cbn [app fold_right];
    [reflexivity | rewrite IH; lia].
Qed.

Lemma detections_nonneg (l : list Frame) : 0 <= detections l.
Proof. unfold detections. induction l as [|f l IH]; cbn [fold_right]; lia. Qed.

Lemma firstn_next {A} (n : nat) (l : list A) x rest :
  skipn n l = x :: rest -> firstn (n + 1) l = firstn n l ++ [x].
Proof.
  revert l. induction n as [|n IH]; intros [|y l] H; cbn in *; try discriminate.
  - inversion H. reflexivity.
  - rewrite (IH l H). reflexivity.
Qed.

Ltac tallies_leaf :=
  unfold tallies; cbn;
  first
    [ left; repeat split; reflexivity
    | right; eexists; split; [eassumption|];
      split; [reflexivity|]; split; [reflexivity|];
      first [ left; match goal with H : process_frame _ = _ |- _ => rewrite H end;
              reflexivity
            | right; split; [reflexivity | eexists; reflexivity] ] ].

Lemma video_iteration_tallies v save t p :
  sat (video_iteration v save t) (fun r tr p' => tallies p r tr p') p.
Proof. sat_run; tallies_leaf. Qed.

(** The statistics a video run prints at its end: at any point of any
    run the total of detections is at most the number of faces found in
    the frames read so far, and it is exactly that number unless an
    exception has left the run. *)
Theorem video_statistics app c (v : VideoFile) (save_output : bool)
  (fault : option (setup_stage * exn)) (script : list tick) :
  let run := run_video app c (Some v) save_output fault script in
  let seen := firstn (frames_read (snd (fst run))) (v_frames v) in
  0 <= total_faces_detected (snd run) <= detections seen
  /\ ((forall e, fst (fst run) <> Propagated e) ->
      total_faces_detected (snd run) = detections seen).
Proof.
  cbv zeta.
  destruct (run_video_shape app c v save_output fault script) as (pre & Hpre & H).
  destruct (setup_outcome (video_stages save_output) fault) as [[]|e].
  2:{ rewrite H. cbn [fst snd]. rewrite (frames_read_plumbing _ Hpre).
      change (firstn 0 (v_frames v)) with (@nil Frame).
      unfold detections. cbn. split; [lia | reflexivity]. }
  destruct H as (post & Hpost & ->).
  cbn [fst snd].
  rewrite !frames_read_app, (frames_read_plumbing _ Hpre),
    (frames_read_plumbing _ Hpost), Nat.add_0_r, Nat.add_0_l.
  set (frames := v_frames v).
  refine (loop_sat (video_iteration v save_output)
            (fun tr p =>
               in_step frames tr p
               /\ total_faces_detected p = detections (firstn (frames_read tr) frames))
            (fun e tr p =>
               0 <= total_faces_detected p
                 <= detections (firstn (frames_read tr) frames)
               /\ ((forall x, ended e <> Propagated x) ->
                   total_faces_detected p
                   = detections (firstn (frames_read tr) frames)))
            _ _ script [] (set_cap frames (start app c)) _).
  - intros t tr0 p [Hstep Htotal].
    eapply sat_weaken; [|apply video_iteration_tallies].
    intros r tr p' Htally.
    assert (Hboth :
      0 <= total_faces_detected p'
        <= detections (firstn (frames_read (tr0 ++ tr)) frames)
      /\ ((forall x, r <> Raise x) ->
          in_step frames (tr0 ++ tr) p'
          /\ total_faces_detected p'
             = detections (firstn (frames_read (tr0 ++ tr)) frames))).
    { pose proof (detections_nonneg (firstn (frames_read tr0) frames)) as Hpos.
      destruct Htally as [(Hr & Hc & Hf & Ht) | (f & Hc & Hr & Hf & Ht)].
      - rewrite frames_read_app, Hr, Nat.add_0_r, Ht, Htotal.
        split; [lia|]. intros _. split; [|reflexivity].
        exact (in_step_same _ _ _ _ _ Hstep Hr Hf Hc).
      - destruct Hstep as (H1 & H2 & H3).
        assert (Hnext : firstn (frames_read tr0 + 1) frames
                        = firstn (frames_read tr0) frames ++ [f]).
        { apply firstn_next with (rest := cap p'). rewrite <- H2. exact Hc. }
        rewrite frames_read_app, Hr, Hnext, detections_app. cbn [detections fold_right].
        destruct Ht as [Ht | [Ht [x ->]]]; rewrite Ht, Htotal.
        + split; [lia|]. intros _. split; [|lia].
          exact (in_step_next _ _ _ _ _ _ (conj H1 (conj H2 H3)) Hr Hf Hc).
        + split; [lia|]. intros Hne. destruct (Hne x eq_refl). }
    destruct Hboth as [Hbound Hexact].
    destruct r as [[]|e]; cbn [ended].
    + apply Hexact. discriminate.
    + split; [exact Hbound|]. intros _. apply Hexact. discriminate.
    + split; [exact Hbound|]. intros Hne. destruct (Hne e eq_refl).
  - intros tr p [_ Htotal]. rewrite Htotal.
    pose proof (detections_nonneg (firstn (frames_read tr) frames)).
    split; [lia | reflexivity].
  - split.
    + unfold in_step. cbn. split; [reflexivity|]. split; [reflexivity | lia].
    + reflexivity.
Qed.

(** *** The display *)

Ltac displayed_leaf :=
  unfold displayed, frames_read, occurrences, shown; cbn;
  split; [lia | first [ reflexivity | intros H; exfalso; eapply H; reflexivity ]].

Lemma webcam_iteration_displayed save t p :
  sat (webcam_iteration save t)
    (fun r tr _ => displayed (forall e, r <> Raise e) tr) p.
Proof. sat_run; displayed_leaf. Qed.

Lemma video_iteration_displayed v save t p :
  sat (video_iteration v save t)
    (fun r tr _ => displayed (forall e, r <> Raise e) tr) p.
Proof. sat_run; displayed_leaf. Qed.

Lemma loop_displayed (body : tick -> M control) script p :
  (forall t p, sat (body t) (fun r tr _ => displayed (forall e, r <> Raise e) tr) p) ->
  displayed (forall e, ended (fst (fst (loop body script p))) <> Propagated e)
    (snd (fst (loop body script p))).
Proof.
  intros Hbody.
  refine (loop_sat body (fun tr _ => frames_read tr = length (shown tr))
            (fun e tr _ => displayed (forall x, ended e <> Propagated x) tr)
            _ _ script [] p eq_refl).
  - intros t tr0 p1 Hinv. eapply sat_weaken; [|apply Hbody].
    unfold displayed.
    intros r tr p' [Hle Hexact];
      rewrite frames_read_app, shown_app, List.length_app, Hinv.
    destruct r as [[]|e]; cbn [ended].
    + rewrite Hexact by discriminate. reflexivity.
    + rewrite Hexact by discriminate. split; [lia | reflexivity].
    + split; [lia|]. intros Hne. destruct (Hne e eq_refl).
  - intros tr p1 Hinv. unfold displayed. rewrite Hinv. split; [lia | reflexivity].
Qed.

Lemma displayed_plumbing exact pre tr post :
  Forall plumbing pre -> Forall plumbing post ->
  displayed exact tr -> displayed exact (pre ++ tr ++ post).
Proof.
  intros Hpre Hpost H. unfold displayed in *.
  rewrite !frames_read_app, !shown_app, !List.length_app,
    (frames_read_plumbing _ Hpre), (frames_read_plumbing _ Hpost),
    (shown_plumbing _ Hpre), (shown_plumbing _ Hpost).
  cbn [length]. rewrite !Nat.add_0_r. exact H.
Qed.

(** In both runs every frame that is read is displayed: at any point the
    frames displayed are as many as the successful reads, and only a run
    left by an exception can have read one frame more than it has
    displayed. *)
Lemma displayed_setup exact (pre : list (event Frame)) :
  Forall plumbing pre -> displayed exact pre.
Proof.
  intros Hpre. unfold displayed.
  rewrite (frames_read_plumbing _ Hpre), (shown_plumbing _ Hpre).
  cbn. split; [lia | reflexivity].
Qed.

Theorem every_frame_displayed app c (save_output : bool)
  (fault : option (setup_stage * exn)) (script : list tick) :
  (forall frames,
     let run := run_webcam app c (Some frames) save_output fault script in
     displayed (forall e, fst (fst run) <> Propagated e) (snd (fst run)))
  /\ (forall v,
        let run := run_video app c (Some v) save_output fault script in
        displayed (forall e, fst (fst run) <> Propagated e) (snd (fst run))).
Proof.
  split.
  - intros frames. cbv zeta.
    destruct (run_webcam_shape app c frames save_output fault script)
      as (p0 & pre & _ & _ & Hpre & H).
    destruct (setup_outcome (webcam_stages save_output) fault) as [[]|e];
      [|rewrite H; apply displayed_setup, Hpre].
    destruct H as (post & Hpost & ->).
    cbn [fst snd]. apply displayed_plumbing; [assumption..|].
    apply loop_displayed. intros t p. apply webcam_iteration_displayed.
  - intros v. cbv zeta.
    destruct (run_video_shape app c v save_output fault script)
      as (pre & Hpre & H).
    destruct (setup_outcome (video_stages save_output) fault) as [[]|e];
      [|rewrite H; apply displayed_setup, Hpre].
    destruct H as (post & Hpost & ->).
    cbn [fst snd]. apply displayed_plumbing; [assumption..|].
    apply loop_displayed. intros t p. apply video_iteration_displayed.
Qed.

(** *** The key *)

Lemma land_low_byte (k m : Z) : Z.land (k + 256 * m) 255 = Z.land k 255.
Proof.
  change 255 with (Z.ones 8). rewrite !Z.land_ones by lia.
  change (2 ^ 8) with 256. rewrite (Z.mul_comm 256 m). apply Z_mod_plus_full.
Qed.

(** Both loops look at the low byte of what [cv2.waitKey] returns and at
    nothing else of it: a key code with modifier bits above the low byte
    does what the bare key does. *)
Theorem key_low_byte_only (v : VideoFile) (save_output : bool)
  (k m : Z) (f : option (stage * exn)) :
  webcam_iteration save_output (mkTick (k + 256 * m) f)
  = webcam_iteration save_output (mkTick k f)
  /\ video_iteration v save_output (mkTick (k + 256 * m) f)
     = video_iteration v save_output (mkTick k f).
Proof.
  unfold webcam_iteration, video_iteration, cap_read, wait_key, ext.
  cbn [key fault]. rewrite land_low_byte. split; reflexivity.
Qed.

End LoopAccounting.

(** ** More on the payloads and the endpoints *)

Section EndpointProperties.
Import app.

Lemma str_split_second c s :
  str_contains c s = true ->
  exists rest,
    str_split c s = str_until c s :: str_until c (str_after c s) :: rest.
Proof.
  induction s as [|a s IH]; cbn; [discriminate|].
  destruct (Ascii.eqb a c).
  - intros _. destruct (str_split_head c s) as [rest ->]. eauto.
  - intros H. destruct (IH H) as [rest ->]. eauto.
Qed.

(** Stripping the data-URI prefix never fails (the index 1 of the split
    exists whenever there is a comma), what it keeps holds no comma, and
    stripping what it keeps changes nothing. *)
Theorem strip_data_uri_total (data : string) :
  exists kept,
    strip_data_uri data = Ok kept
    /\ str_contains comma kept = false
    /\ strip_data_uri kept = Ok kept.
Proof.
  unfold strip_data_uri at 1. destruct (str_contains comma data) eqn:E.
  - destruct (str_split_second comma data E) as [rest ->].
    eexists. split; [reflexivity|].
    split; [apply str_contains_until|].
    apply strip_data_uri_no_comma, str_contains_until.
  - exists data. split; [reflexivity|]. split; [exact E|].
    apply strip_data_uri_no_comma, E.
Qed.

Context {Image D : Type} `{!Runtime Image} `{!FaceDetector Image D}.

Local Abbreviation App := (App (Image := Image) (D := D)).

Implicit Types (w : World (D := D)).

Lemma try_except_answers {A} (body : App A) (answer : exn -> A) w :
  match fst (fst (try_except body (fun e => mret (answer e)) w)) with
  | Ok _ => True
  | Raise e => is_Exception e = false
  end.
Proof.
  unfold try_except. destruct (body w) as [[[a|e] tr] w1]; [exact I|].
  destruct (is_Exception e) eqn:E; [exact I | exact E].
Qed.

(** Neither detection endpoint lets an [Exception] escape: whatever the
    payload, the decoders and the detector do, the handler returns a
    response. *)
Theorem endpoints_always_respond (image_data : string) (contents : list Byte.byte)
  (scale_factor : Q) (min_neighbors : Z) w :
  match fst (fst (detect_base64 image_data scale_factor min_neighbors w)) with
  | Ok _ => True
  | Raise e => is_Exception e = false
  end
  /\ match fst (fst (detect_image contents scale_factor min_neighbors w)) with
     | Ok _ => True
     | Raise e => is_Exception e = false
     end.
Proof. split; apply try_except_answers. Qed.

Lemma trace_head_bind {S E A B} (m : SE S E A) (k : A -> SE S E B) s e0 tr0 :
  snd (fst (m s)) = e0 :: tr0 ->
  exists tl, snd (fst ((m ≫= k) s)) = e0 :: tl.
Proof.
  unfold mbind, SE_bind. destruct (m s) as [[[a|e] tr] s']; cbn; intros ->.
  - destruct (k a s') as [[r tr'] s'']. cbn. eauto.
  - eauto.
Qed.

Lemma trace_head_try_except {A} (body : App A) handler w e0 :
  (exists tr0, snd (fst (body w)) = e0 :: tr0) ->
  exists tl, snd (fst (try_except body handler w)) = e0 :: tl.
Proof.
  unfold try_except. destruct (body w) as [[[a|e] tr] w1]; cbn; intros [tr0 ->].
  - eauto.
  - destruct (is_Exception e); [|eauto].
    destruct (handler e w1) as [[r tr'] w2]. cbn. eauto.
Qed.

Lemma call_set_detection_params_trace (scale_factor : Q) (min_neighbors : Z) w :
  snd (fst (call_set_detection_params scale_factor min_neighbors w))
  = [CallSetParams scale_factor min_neighbors].
Proof.
  unfold call_set_detection_params.
  destruct (set_detection_params _ _ (detector w)) as [r d]. reflexivity.
Qed.

(** The first three steps of the base64 endpoint are the decoding of a
    websocket frame. *)
Lemma detect_base64_decoded (image_data : string) (scale_factor : Q)
  (min_neighbors : Z) w :
  detect_base64 image_data scale_factor min_neighbors w
  = try_except
      (image ← lift (decode_frame (JStr image_data));
       match image with
       | None => mret BadRequest
       | Some image =>
           call_set_detection_params scale_factor min_neighbors;;
           start_time ← now;
           faces ← call_detect_faces image;
           end_time ← now;
           mret (Detected
                   (mkDetection (Z.of_nat (length faces)) faces
                      (py_round2 (elapsed_ms start_time end_time))))
       end)
      (fun e => mret (ServerError e)) w.
Proof.
  unfold detect_base64, decode_frame, try_except, app.App.
  destruct (strip_data_uri image_data) as [payload|e]; cbn [res_bind].
  2:{ rewrite !bind_lift_raise. reflexivity. }
  rewrite bind_lift_ok.
  destruct (b64decode payload) as [bytes|e]; cbn [res_bind].
  2:{ rewrite !bind_lift_raise. reflexivity. }
  rewrite bind_lift_ok. reflexivity.
Qed.

(** The base64 endpoint touches the detector for a decodable image only,
    and then starts by handing it the parameters of the request: a
    payload that is not an image is answered 400 and a payload whose
    decoding raises is answered 500, both without any call on the
    detector and without a reading of the clock. *)
Theorem detect_base64_by_payload (image_data : string)
  (scale_factor : Q) (min_neighbors : Z) w :
  (decode_frame (JStr image_data) = Ok None ->
   detect_base64 image_data scale_factor min_neighbors w = (Ok BadRequest, [], w))
  /\ (forall e, decode_frame (JStr image_data) = Raise e -> is_Exception e = true ->
      detect_base64 image_data scale_factor min_neighbors w
      = (Ok (ServerError e), [], w))
  /\ (forall image, decode_frame (JStr image_data) = Ok (Some image) ->
      exists tl,
        snd (fst (detect_base64 image_data scale_factor min_neighbors w))
        = CallSetParams scale_factor min_neighbors :: tl).
Proof.
  rewrite detect_base64_decoded.
  split; [|split].
  - intros ->. unfold try_except, app.App. rewrite bind_lift_ok. reflexivity.
  - intros e -> He. unfold try_except, app.App. rewrite bind_lift_raise, He.
    reflexivity.
  - intros image ->.
    apply trace_head_try_except. unfold app.App. rewrite bind_lift_ok.
    eapply trace_head_bind, call_set_detection_params_trace.
Qed.

End EndpointProperties.

(** ** More on the websocket session *)

Section SessionProperties.
Import app.
Context {Image D : Type} `{!Runtime Image} `{!FaceDetector Image D}.

Implicit Types (data : gmap string json) (s : Session) (w : World (D := D)).

Local Abbreviation effect := (effect (Image := Image) (D := D)).

Lemma responses_app (a b : list effect) :
  responses (a ++ b) = responses a ++ responses b.
Proof. apply omap_app. Qed.

Lemma handle_message_answers_once data s w :
  (length (responses (snd (fst (handle_message data s w)))) <= 1)%nat.
Proof.
  rewrite handle_message_cases.
  destruct (update_parameters data s) as [s'|e]; [|cbn; lia].
  destruct (data !! "frame"%string) as [frame_data|]; [|cbn; lia].
  destruct (decode_frame frame_data) as [[image|]|e]; [|cbn; lia..].
  rewrite detect_and_send_cases. cbv zeta.
  destruct (set_detection_params _ _ (detector w)) as [[[]|e] d]; [|cbn; lia].
  destruct (detect_faces image d) as [found|e]; cbn; lia.
Qed.

(** A message is answered at most once, and a response is sent only at
    the end of a full round: the detector was given the parameters the
    session holds after the update, the detection ran on the detector
    that call left, and the response carries the faces this detection
    returned, with their number as [faces_count]. *)
Theorem response_reports_detection data s w :
  let r := fst (fst (handle_message data s w)) in
  let tr := snd (fst (handle_message data s w)) in
  let w' := snd (handle_message data s w) in
  (length (responses tr) <= 1)%nat
  /\ forall det, In det (responses tr) ->
       exists s' (image : Image),
         r = Ok s'
         /\ update_parameters data s = Ok s'
         /\ tr = [CallSetParams (scale_factor s') (min_neighbors s');
                  CallDetect image (detector w'); SendJson det]
         /\ set_detection_params (scale_factor s') (min_neighbors s') (detector w)
            = (Ok tt, detector w')
         /\ detect_faces image (detector w') = Ok (faces det)
         /\ faces_count det = Z.of_nat (length (faces det)).
Proof.
  cbv zeta. split; [apply handle_message_answers_once|].
  rewrite handle_message_cases.
  destruct (update_parameters data s) as [s'|e]; [|intros ? []].
  destruct (data !! "frame"%string) as [frame_data|]; [|intros ? []].
  destruct (decode_frame frame_data) as [[image|]|e]; [|intros ? []..].
  rewrite detect_and_send_cases. cbv zeta.
  destruct (set_detection_params _ _ (detector w)) as [[[]|e] d] eqn:Hset;
    [|intros ? []].
  destruct (detect_faces image d) as [found|e] eqn:Hdet; [|intros ? []].
  cbn [fst snd detector].
  intros det [<-|[]]. exists s', image. cbn [faces faces_count].
  repeat split; assumption.
Qed.

(** A message without a [frame] key has no effect outside the session:
    no call on the detector, no reading of the clock, nothing sent. *)
Lemma turn_without_frame data s w :
  data !! "frame"%string = None ->
  snd (fst (turn (Message data) s w)) = [] /\ snd (turn (Message data) s w) = w.
Proof.
  intros H. rewrite turn_message, handle_message_cases, H.
  destruct (update_parameters data s); split; reflexivity.
Qed.

Lemma turn_responses i s w :
  (length (responses (snd (fst (turn i s w)))) <= if has_frame i then 1 else 0)%nat.
Proof.
  destruct i as [data| |]; cbn [has_frame];
    [|unfold turn, receive_json, app.App; rewrite bind_raise; cbn; lia..].
  case_bool_decide as Hf.
  - rewrite turn_message.
    pose proof (handle_message_answers_once data s w) as Hle.
    destruct (handle_message data s w) as [[[s'|e] tr] w']; exact Hle.
  - assert (data !! "frame"%string = None) as Hnone.
    { destruct (data !! "frame"%string); [exfalso; apply Hf; eauto | reflexivity]. }
    destruct (turn_without_frame data s w Hnone) as [-> _]. cbn. lia.
Qed.

(** Over a whole session the handler sends at most one response per
    message that carries a frame; if no message carries one, the session
    leaves the shared detector and the clock as it found them. *)
Theorem session_responses_bounded (script : list inbound) s w :
  (length (responses (snd (fst (websocket_loop script s w))))
   <= length (filter (fun i => has_frame i = true) script))%nat
  /\ (Forall (fun i => has_frame i = false) script ->
      snd (fst (websocket_loop script s w)) = []
      /\ snd (websocket_loop script s w) = w).
Proof.
  revert s w. induction script as [|i script IH]; intros s w.
  { split; [cbn; lia | intros _; split; reflexivity]. }
  cbn [websocket_loop]. pose proof (turn_responses i s w) as Hturn.
  assert (Hquiet : has_frame i = false ->
            snd (fst (turn i s w)) = [] /\ snd (turn i s w) = w).
  { destruct i as [data| |]; cbn [has_frame];
      [|intros _; unfold turn, receive_json, app.App; rewrite bind_raise;
        split; reflexivity..].
    case_bool_decide as Hf; [discriminate|]. intros _.
    apply turn_without_frame.
    destruct (data !! "frame"%string); [exfalso; apply Hf; eauto | reflexivity]. }
  rewrite filter_cons.
  destruct (turn i s w) as [[[s'|e] tr] w'] eqn:Ht; cbn [fst snd] in *.
  - destruct (IH s' w') as [IHle IHquiet].
    destruct (websocket_loop script s' w') as [[c tr'] w''] eqn:Hl.
    cbn [fst snd] in *. split.
    + rewrite responses_app, length_app.
      destruct (decide (has_frame i = true)) as [Hi|Hi].
      * rewrite Hi in Hturn. cbn [length]. lia.
      * destruct (has_frame i); [congruence|]. lia.
    + intros Hall. inversion Hall as [|? ? Hi Hrest]; subst.
      destruct (Hquiet Hi) as [-> ->].
      destruct (IHquiet Hrest) as [-> ->]. split; reflexivity.
  - split.
    + destruct (decide (has_frame i = true)) as [Hi|Hi].
      * rewrite Hi in Hturn. cbn [length]. lia.
      * destruct (has_frame i); [congruence|]. lia.
    + intros Hall. inversion Hall as [|? ? Hi Hrest]; subst.
      destruct (Hquiet Hi) as [-> ->]. split; reflexivity.
Qed.

(** The handler on a script in two parts: while the session is open the
    second part continues with the parameters and the world the first
    part left; once an exception has ended the handler, nothing that is
    delivered later is read. *)
Theorem websocket_loop_app (script script' : list inbound) s w :
  websocket_loop (script ++ script') s w
  = match websocket_loop script s w with
    | (Open s', tr, w') =>
        let '(c, tr', w'') := websocket_loop script' s' w' in (c, tr ++ tr', w'')
    | closed => closed
    end.
Proof.
  revert s w. induction script as [|i script IH]; intros s w.
  { cbn. destruct (websocket_loop script' s w) as [[c tr] w']. reflexivity. }
  cbn [websocket_loop app]. destruct (turn i s w) as [[[s1|e] tr1] w1]; [|reflexivity].
  rewrite IH. destruct (websocket_loop script s1 w1) as [[[s2|e] tr2] w2].
  - destruct (websocket_loop script' s2 w2) as [[c tr3] w3].
    rewrite app_assoc. reflexivity.
  - reflexivity.
Qed.

(** Re-sending a parameter message changes nothing: the parameters a
    message leaves are a fixed point of its update. *)
Theorem update_parameters_idempotent data s s' :
  update_parameters data s = Ok s' ->
  update_parameters data s' = Ok s'.
Proof.
  unfold update_parameters.
  destruct (data !! "scale_factor"%string) as [v|];
    [destruct (py_float v) as [x|e]|];
    (destruct (data !! "min_neighbors"%string) as [u|];
     [destruct (py_int u) as [n|e']|]);
    cbn; intros [= <-]; reflexivity.
Qed.

End SessionProperties.

(** ** The upload endpoint and the reported time *)

Section UploadProperties.
Import app.
Context {Image D : Type} `{!Runtime Image} `{!FaceDetector Image D}.

Implicit Types (w : World (D := D)).

Local Abbreviation effect := (effect (Image := Image) (D := D)).

(** [detect_image], case by case. *)
Lemma detect_image_cases (contents : list Byte.byte) (scale_factor : Q)
  (min_neighbors : Z) w :
  detect_image contents scale_factor min_neighbors w =
  match imdecode contents with
  | Raise e => answered e [] w
  | Ok None => (Ok BadRequest, [], w)
  | Ok (Some image) =>
      let set := CallSetParams scale_factor min_neighbors in
      let c := clock w in
      let '(r, d) := set_detection_params scale_factor min_neighbors (detector w) in
      match r with
      | Raise e => answered e [set] (mkWorld d c)
      | Ok _ =>
          match process_frame image d with
          | Raise e =>
              answered e [set; CallProcess image d]
                (mkWorld d (mkClock (readings c) (S (pos c))))
          | Ok (processed_image, faces) =>
              match imencode_jpg processed_image with
              | Raise e =>
                  answered e [set; CallProcess image d]
                    (mkWorld d (mkClock (readings c) (S (S (pos c)))))
              | Ok buffer =>
                  (Ok (DetectedImage
                         (mkDetection (Z.of_nat (length faces)) faces
                            (py_round2 (elapsed_ms (readings c (pos c))
                                                   (readings c (S (pos c))))))
                         ("data:image/jpeg;base64," ++ b64encode buffer)%string
                         (snd (shape image), fst (shape image))),
                   [set; CallProcess image d],
                   mkWorld d (mkClock (readings c) (S (S (pos c)))))
              end
          end
      end
  end.
Proof.
  unfold detect_image, try_except, answered, app.App.
  destruct (imdecode contents) as [[image|]|e].
  - rewrite bind_lift_ok.
    unfold call_set_detection_params, call_process_frame, now.
    unfold mbind, SE_bind, mret, SE_ret, get, emit, lift, time_time.
    cbn [detector clock].
    destruct (set_detection_params _ _ (detector w)) as [[[]|e] d]; cbn.
    + destruct (process_frame image d) as [[processed found]|e]; cbn.
      * destruct (imencode_jpg processed) as [buffer|e]; cbn; [reflexivity|].
        destruct (is_Exception e); reflexivity.
      * destruct (is_Exception e); reflexivity.
    + destruct (is_Exception e); reflexivity.
  - rewrite bind_lift_ok. reflexivity.
  - rewrite bind_lift_raise. destruct (is_Exception e); reflexivity.
Qed.

(** A 200 answer of the upload endpoint means a full round: the upload
    decoded to an image, the detector took the parameters of the request,
    the frame was processed on the detector that call left, and the
    answer carries the faces found, their number, the processed image as
    a JPEG data URI, and the size of the upload as (width, height).  The
    clock was read exactly twice. *)
Theorem detect_image_success (contents : list Byte.byte) (scale_factor : Q)
  (min_neighbors : Z) w (resp : response) tr w' :
  detect_image contents scale_factor min_neighbors w = (Ok resp, tr, w') ->
  (forall e, resp <> ServerError e) ->
  resp <> BadRequest ->
  exists (image processed_image : Image) buffer det,
    imdecode contents = Ok (Some image)
    /\ set_detection_params scale_factor min_neighbors (detector w)
       = (Ok tt, detector w')
    /\ process_frame image (detector w') = Ok (processed_image, faces det)
    /\ imencode_jpg processed_image = Ok buffer
    /\ resp = DetectedImage det
                ("data:image/jpeg;base64," ++ b64encode buffer)%string
                (snd (shape image), fst (shape image))
    /\ faces_count det = Z.of_nat (length (faces det))
    /\ tr = [CallSetParams scale_factor min_neighbors;
             CallProcess image (detector w')]
    /\ pos (clock w') = S (S (pos (clock w))).
Proof.
  rewrite detect_image_cases. unfold answered.
  intros H Hserver Hbad.
  destruct (imdecode contents) as [[image|]|e].
  - cbv zeta in H.
    destruct (set_detection_params _ _ (detector w)) as [[[]|e] d] eqn:Hset.
    + destruct (process_frame image d) as [[processed found]|e] eqn:Hproc.
      * destruct (imencode_jpg processed) as [buffer|e] eqn:Henc.
        -- injection H as <- <- <-. cbn [detector clock pos].
           eexists image, processed, buffer, _.
           repeat split; try reflexivity; assumption.
        -- destruct (is_Exception e); [|discriminate].
           injection H as <- _ _. destruct (Hserver e eq_refl).
      * destruct (is_Exception e); [|discriminate].
        injection H as <- _ _. destruct (Hserver e eq_refl).
    + destruct (is_Exception e); [|discriminate].
      injection H as <- _ _. destruct (Hserver e eq_refl).
  - injection H as <- _ _. destruct (Hbad eq_refl).
  - destruct (is_Exception e); [|discriminate].
    injection H as <- _ _. destruct (Hserver e eq_refl).
Qed.

Lemma py_round2_nonneg (x : Q) : (0 <= x)%Q -> (0 <= py_round2 x)%Q.
Proof.
  intros H. unfold py_round2. apply fl_nonneg.
  apply Qle_shift_div_l; [reflexivity|].
  rewrite Qmult_0_l. rewrite <- (Zle_Qle 0). apply round_half_even_nonneg.
  apply Qmult_le_0_compat; [exact H | discriminate].
Qed.

Lemma elapsed_ms_nonneg (start_time end_time : Q) :
  (start_time <= end_time)%Q -> (0 <= elapsed_ms start_time end_time)%Q.
Proof.
  intros H. unfold elapsed_ms. apply fl_nonneg.
  apply Qmult_le_0_compat; [|discriminate]. apply fl_nonneg.
  unfold Qminus. rewrite <- Qle_minus_iff. exact H.
Qed.

(** The time a websocket response reports: the handler reads the clock
    exactly twice for an answered frame, and [detection_time_ms] is
    [round(.., 2)] of the difference of these two readings times 1000,
    computed on floats.  It is not negative when the second reading is
    not before the first. *)
Theorem detection_time_reported (data : gmap string json) (s : Session) w :
  forall det, In det (responses (snd (fst (handle_message data s w)))) ->
    let c := clock w in
    detection_time_ms det
    = py_round2 (elapsed_ms (readings c (pos c)) (readings c (S (pos c))))
    /\ pos (clock (snd (handle_message data s w))) = S (S (pos c))
    /\ ((readings c (pos c) <= readings c (S (pos c)))%Q ->
        (0 <= detection_time_ms det)%Q).
Proof.
  intros det. rewrite handle_message_cases.
  destruct (update_parameters data s) as [s'|e]; [|intros []].
  destruct (data !! "frame"%string) as [frame_data|]; [|intros []].
  destruct (decode_frame frame_data) as [[image|]|e]; [|intros []..].
  rewrite detect_and_send_cases. cbv zeta.
  destruct (set_detection_params _ _ (detector w)) as [[[]|e] d]; [|intros []].
  destruct (detect_faces image d) as [found|e]; [|intros []].
  cbn [fst snd]. intros [<-|[]]. cbn [detection_time_ms clock pos].
  split; [reflexivity|]. split; [reflexivity|].
  intros Hclock. apply py_round2_nonneg, elapsed_ms_nonneg, Hclock.
Qed.


End UploadProperties.

(** ** Parameter updates on the detector of the specification *)

Section ParameterValidation.
Import app.
Context {Image : Type} `{!Runtime Image}.
Context (classify : Image -> detector.FaceDetector -> list Rect).
Context (annotate : Image -> list Rect -> Image).


Local Abbreviation World := (World (D := detector.FaceDetector)).






End ParameterValidation.

(** ** The further properties at concrete inputs *)

Section MoreScenarios.
Import face_detector app.

#[local] Existing Instance doubles.runtime.
#[local] Existing Instance doubles.face_detector.
#[local] Existing Instance doubles.cv.

(** Nine frames counted and a reading one second after the window
    start: the recomputed FPS lies between 0 and 10. *)
Lemma update_fps_bounded_witness :
  (0 < fst (fst (_update_fps (mkApp (0 # 10) 9 0)
                   (mkClock (readings doubles.tenths) 10))))%Q
  /\ (fst (fst (_update_fps (mkApp (0 # 10) 9 0)
                  (mkClock (readings doubles.tenths) 10))) <= 10)%Q.
Proof.
  destruct (update_fps_bounded (mkApp (0 # 10) 9 0)
              (mkClock (readings doubles.tenths) 10))
    as (_ & _ & _ & H); [cbn; lia | cbn; discriminate |].
  apply H. cbn. discriminate.
Defined.

(** Nine calls a tenth of a second apart after the construction, then
    the call at one second: ten frames over one second. *)
Lemma update_fps_counts_every_call_witness :
  fst (fst (_update_fps
              (snd (fst (update_fps_times 9 doubles.app0 doubles.clock0)))
              (snd (update_fps_times 9 doubles.app0 doubles.clock0))))
  = (inject_Z 10 / ((10 # 10) - (0 # 10)))%Q
  /\ fps_frame_count
       (snd (fst (_update_fps
                    (snd (fst (update_fps_times 9 doubles.app0 doubles.clock0)))
                    (snd (update_fps_times 9 doubles.app0 doubles.clock0)))))
     = 0.
Proof.
  apply (update_fps_counts_every_call 9 doubles.app0 doubles.clock0).
  - intros k Hk.
    assert (Hcases : (k = 0 \/ k = 1 \/ k = 2 \/ k = 3 \/ k = 4 \/ k = 5
                      \/ k = 6 \/ k = 7 \/ k = 8)%nat) by lia.
    destruct Hcases as [-> | [-> | [-> | [-> | [-> | [-> | [-> | [-> | ->]]]]]]]];
      reflexivity.
  - cbn. discriminate.
Defined.

Lemma idle_no_key : idle doubles.no_key.
Proof. split; [reflexivity|]. split; intros H; discriminate H. Qed.

(** The paused scenario state through two iterations without a key. *)
Lemma paused_video_waits_witness :
  loop (video_iteration doubles.clip false) [doubles.no_key; doubles.no_key]
    doubles.paused_state
  = (Pending, [EvWaitKey 40; EvWaitKey 40], doubles.paused_state).
Proof.
  apply (paused_video_waits doubles.clip false [doubles.no_key; doubles.no_key]
           doubles.paused_state); [reflexivity|].
  repeat constructor; apply idle_no_key.
Defined.

(** The clip of three frames, left alone for four iterations. *)
Lemma video_plays_to_the_end_witness :
  fst (fst (run_video doubles.app0 doubles.clock0 (Some doubles.clip) false
              None (repeat doubles.no_key 4))) = Returned
  /\ frame_count (snd (run_video doubles.app0 doubles.clock0 (Some doubles.clip)
                         false None (repeat doubles.no_key 4))) = 3
  /\ cap (snd (run_video doubles.app0 doubles.clock0 (Some doubles.clip)
                 false None (repeat doubles.no_key 4))) = []
  /\ length (shown (snd (fst (run_video doubles.app0 doubles.clock0
                                (Some doubles.clip) false None
                                (repeat doubles.no_key 4))))) = 3%nat.
Proof.
  apply (video_plays_to_the_end doubles.app0 doubles.clock0 doubles.clip false
           (repeat doubles.no_key 4)).
  - repeat constructor; apply idle_no_key.
  - cbn. lia.
Defined.

(** The tuned message sent twice. *)
Lemma update_parameters_idempotent_witness :
  update_parameters doubles.tuned_frame (mkSession (12 # 10) 5)
  = Ok (mkSession (12 # 10) 5).
Proof.
  apply (update_parameters_idempotent doubles.tuned_frame default_session).
  reflexivity.
Defined.

(** A JPEG upload with one face, on the clock of the scenarios. *)
Lemma detect_image_success_witness :
  exists (image processed_image : nat) buffer det,
    imdecode [Byte.xff; Byte.xd8; Byte.xff] = Ok (Some image)
    /\ set_detection_params (12 # 10) 4 (detector doubles.world)
       = (Ok tt, detector.mkDetector (12 # 10) 4 (30, 30) None)
    /\ process_frame image (detector.mkDetector (12 # 10) 4 (30, 30) None)
       = Ok (processed_image, faces det)
    /\ imencode_jpg processed_image = Ok buffer
    /\ DetectedImage
         (mkDetection 1 [(10, 10, 50, 50)]
            (py_round2 (elapsed_ms (0 # 10) (1 # 10))))
         "data:image/jpeg;base64,/9j/" (100, 100)
       = DetectedImage det
           ("data:image/jpeg;base64," ++ b64encode buffer)%string
           (snd (shape image), fst (shape image))
    /\ faces_count det = Z.of_nat (length (faces det))
    /\ [CallSetParams (12 # 10) 4;
        CallProcess 1%nat (detector.mkDetector (12 # 10) 4 (30, 30) None)]
       = [CallSetParams (12 # 10) 4;
          CallProcess image (detector.mkDetector (12 # 10) 4 (30, 30) None)]
    /\ pos (mkClock (readings doubles.tenths) 2) = S (S (pos (clock doubles.world))).
Proof.
  apply (detect_image_success [Byte.xff; Byte.xd8; Byte.xff] (12 # 10) 4
           doubles.world
           (DetectedImage
              (mkDetection 1 [(10, 10, 50, 50)]
                 (py_round2 (elapsed_ms (0 # 10) (1 # 10))))
              "data:image/jpeg;base64,/9j/" (100, 100))
           [CallSetParams (12 # 10) 4;
            CallProcess 1%nat (detector.mkDetector (12 # 10) 4 (30, 30) None)]
           (mkWorld (detector.mkDetector (12 # 10) 4 (30, 30) None)
              (mkClock (readings doubles.tenths) 2))).
  - vm_compute. reflexivity.
  - intros e H. discriminate H.
  - intros H. discriminate H.
Defined.

(** The tuned frame on the clock of the scenarios: the detection took a
    tenth of a second. *)
Lemma detection_time_reported_witness :
  detection_time_ms
    (mkDetection 1 [(10, 10, 50, 50)] (py_round2 (elapsed_ms (0 # 10) (1 # 10))))
  = py_round2 (elapsed_ms (0 # 10) (1 # 10))
  /\ pos (clock (snd (handle_message doubles.tuned_frame default_session
                        doubles.world))) = S (S (pos (clock doubles.world)))
  /\ (((0 # 10) <= (1 # 10))%Q ->
      (0 <= py_round2 (elapsed_ms (0 # 10) (1 # 10)))%Q).
Proof.
  apply (detection_time_reported doubles.tuned_frame default_session
           doubles.world
           (mkDetection 1 [(10, 10, 50, 50)]
              (py_round2 (elapsed_ms (0 # 10) (1 # 10))))).
  vm_compute. left. reflexivity.
Defined.


End MoreScenarios.
